(** * EnvKey: generated-envkey lifecycle, local control surface, access scopes

    A shallow embedding of
      - [api/shared/src/api_handlers/keyable_parents.ts]  (module [Api]),
      - [client/core_process/src/server.ts]               (module [CoreProcess]),
      - [client/core_process/src/handlers/blocks.ts]      (module [Blocks]),
    together with the properties the specification states about them.

    Conventions.  A graph is a JavaScript object used as a map from ids to
    nodes: a [gmap string _].  Nodes are a tagged union on the [type]
    discriminant.  The unchecked TypeScript casts ([orgGraph[id] as
    Api.Db.Server]) are typed projections: a handler returns [None] where the
    JavaScript throws a [TypeError] (the node is absent) and also where the
    cast would be violated.  On a violated cast the JavaScript does not
    throw, it goes on with a node of another type; such runs are outside the
    model.  So every [Some] result is a run on which the casts held, and a
    statement about when a handler has a result carries the hypothesis that
    the casts hold ([CastHolds]).  [uuid()] and [Date.now()] are explicit
    inputs ([newId], [now]).  Numbers are [Z]. *)

From stdpp Require Import gmap strings list fin_maps.
From Stdlib Require Import ZArith Lia Ascii.

Open Scope Z_scope.

Module Api.

(** ** Data model ([Api.Db], [Auth], [Api.GraphHandlerResult]) *)

Inductive KeyableParentType := server | localKey.

#[global] Instance KeyableParentType_eq_dec : EqDecision KeyableParentType.
Proof. solve_decision. Defined.

Record Org := mkOrg {
  org_id : string;
  serverEnvkeyCount : Z;
  org_updatedAt : Z;
  org_deletedAt : option Z;
}.

Record Environment := mkEnvironment {
  env_id : string;
  envParentId : string;
  environmentRoleId : string;
  isSub : bool;
  env_deletedAt : option Z;
}.

(** [Api.Db.KeyableParent = Api.Db.Server | Api.Db.LocalKey]; [userId] and
    [deviceId] are present on local keys only. *)
Record KeyableParent := mkKeyableParent {
  kp_type : KeyableParentType;
  kp_id : string;
  kp_appId : string;
  kp_environmentId : string;
  kp_name : string;
  kp_userId : option string;
  kp_deviceId : option string;
  kp_createdAt : Z;
  kp_updatedAt : Z;
  kp_deletedAt : option Z;
}.

Record GeneratedEnvkey := mkGeneratedEnvkey {
  ge_id : string;
  ge_pkey : string;
  ge_skey : string;
  ge_appId : string;
  encryptedPrivkey : string;
  envkeyIdPart : string;
  keyableParentId : string;
  keyableParentType : KeyableParentType;
  pubkey : string;
  ge_environmentId : string;
  signedTrustedRoot : string;
  trustedRootUpdatedAt : Z;
  envkeyShort : string;
  envkeyIdPartHash : string;
  creatorId : string;
  creatorDeviceId : option string;
  signedById : string;
  pubkeyId : string;
  pubkeyUpdatedAt : Z;
  blobsUpdatedAt : Z;
  ge_userId : option string;
  ge_deviceId : option string;
  ge_createdAt : Z;
  ge_updatedAt : Z;
  ge_deletedAt : option Z;
}.

Inductive GraphObject :=
| OrgObj (o : Org)
| EnvironmentObj (e : Environment)
| KeyableParentObj (k : KeyableParent)
| GeneratedEnvkeyObj (g : GeneratedEnvkey)
| OtherObj (id : string) (deletedAt : option Z).

Abbreviation OrgGraph := (gmap string GraphObject).

Definition objectId (o : GraphObject) : string :=
  match o with
  | OrgObj o => org_id o
  | EnvironmentObj e => env_id e
  | KeyableParentObj k => kp_id k
  | GeneratedEnvkeyObj g => ge_id g
  | OtherObj id _ => id
  end.

Inductive AuthType :=
| tokenAuthContext (orgUserDeviceId : string)
| cliUserAuthContext.

Record License := mkLicense { maxServerEnvkeys : Z }.

Record AuthContext := mkAuth {
  auth_type : AuthType;
  auth_user_id : string;
  auth_org_id : string;
  auth_license : License;
}.

Record HardDeleteScope := mkScope { pkey : string }.

Record TransactionItems := mkItems { hardDeleteScopes : list HardDeleteScope }.

(** [Api.ClearEnvkeySocketParams] (socket.ts): the whole org, or one envkey. *)
Inductive ClearEnvkeySocketParams :=
| ClearOrgEnvkeySockets (orgId : string)
| ClearEnvkeySocket (orgId generatedEnvkeyId : string).

Record HandlerContext := mkHandlerContext {
  hc_type : string;
  createdId : string;
}.

Record GraphHandlerResult := mkResult {
  graph : OrgGraph;
  handlerContext : option HandlerContext;
  transactionItems : option TransactionItems;
  logTargetIds : list string;
  clearEnvkeySockets : option (list ClearEnvkeySocketParams);
}.

Record GenerateKeyPayload := mkGenerateKeyPayload {
  p_appId : string;
  p_encryptedPrivkey : string;
  p_envkeyIdPart : string;
  p_keyableParentId : string;
  p_keyableParentType : KeyableParentType;
  p_pubkey : string;
  p_signedTrustedRoot : string;
}.

(** ** Graph helpers of [@core/lib/graph] *)

Definition asGeneratedEnvkey (o : GraphObject) : option GeneratedEnvkey :=
  match o with GeneratedEnvkeyObj g => Some g | _ => None end.

Definition asKeyableParent (o : GraphObject) : option KeyableParent :=
  match o with KeyableParentObj k => Some k | _ => None end.

Definition asEnvironment (o : GraphObject) : option Environment :=
  match o with EnvironmentObj e => Some e | _ => None end.

Definition asOrg (o : GraphObject) : option Org :=
  match o with OrgObj o => Some o | _ => None end.

(** The unchecked cast [orgGraph[id] as T] holds: the id names no node, or
    a node of the type the cast names. *)
Definition CastHolds {A : Type} (asT : GraphObject → option A) (g : OrgGraph)
    (id : string) : Prop :=
  ∀ o, g !! id = Some o → is_Some (asT o).

(** The type of the keyable-parent node an id names. *)
Definition keyableParentTypeAt (g : OrgGraph) (id : string) : option KeyableParentType :=
  kp_type <$> (g !! id ≫= asKeyableParent).

(** A generated envkey is active when it carries no delete marker. *)
Definition activeEnvkey (o : GraphObject) : option GeneratedEnvkey :=
  match o with
  | GeneratedEnvkeyObj g =>
      match ge_deletedAt g with None => Some g | Some _ => None end
  | _ => None
  end.

(** The active generated envkeys of a graph, keyed by node id. *)
Definition activeGeneratedEnvkeys (g : OrgGraph) : gmap string GeneratedEnvkey :=
  omap activeEnvkey g.

Definition byKeyableParentId (p : string * GeneratedEnvkey) : string * GeneratedEnvkey :=
  (keyableParentId p.2, p.2).

Definition indexByKeyableParentId (a : gmap string GeneratedEnvkey)
  : gmap string GeneratedEnvkey :=
  list_to_map (byKeyableParentId <$> map_to_list a).

(** Modelled from the spec: [getActiveGeneratedEnvkeysByKeyableParentId] of
    [@core/lib/graph] is not among the sources.  The spec calls it the
    "parent→active-envkey index", and the handlers below look it up with
    server ids and with local-key ids alike, so it holds the active envkeys
    of every keyable-parent type.  Where several active envkeys share one
    parent an index keeps one of them; which one is a matter of object-key
    order, and the properties below use the index under the
    one-active-envkey-per-parent invariant, where the choice does not
    arise. *)
Definition getActiveGeneratedEnvkeysByKeyableParentId (g : OrgGraph)
  : gmap string GeneratedEnvkey :=
  indexByKeyableParentId (activeGeneratedEnvkeys g).

(** [Object.values(getActiveGeneratedEnvkeysByKeyableParentId(orgGraph)).length] *)
Definition numActive (g : OrgGraph) : Z :=
  Z.of_nat (size (getActiveGeneratedEnvkeysByKeyableParentId g)).

Definition markDeleted (now : Z) (o : GraphObject) : GraphObject :=
  match o with
  | OrgObj o =>
      OrgObj (mkOrg (org_id o) (serverEnvkeyCount o) (org_updatedAt o) (Some now))
  | EnvironmentObj e =>
      EnvironmentObj
        (mkEnvironment (env_id e) (envParentId e) (environmentRoleId e) (isSub e) (Some now))
  | KeyableParentObj k =>
      KeyableParentObj
        (mkKeyableParent (kp_type k) (kp_id k) (kp_appId k) (kp_environmentId k)
           (kp_name k) (kp_userId k) (kp_deviceId k) (kp_createdAt k)
           (kp_updatedAt k) (Some now))
  | GeneratedEnvkeyObj g =>
      GeneratedEnvkeyObj
        (mkGeneratedEnvkey (ge_id g) (ge_pkey g) (ge_skey g) (ge_appId g)
           (encryptedPrivkey g) (envkeyIdPart g) (keyableParentId g)
           (keyableParentType g) (pubkey g) (ge_environmentId g)
           (signedTrustedRoot g) (trustedRootUpdatedAt g) (envkeyShort g)
           (envkeyIdPartHash g) (creatorId g) (creatorDeviceId g) (signedById g)
           (pubkeyId g) (pubkeyUpdatedAt g) (blobsUpdatedAt g) (ge_userId g)
           (ge_deviceId g) (ge_createdAt g) (ge_updatedAt g) (Some now))
  | OtherObj id _ => OtherObj id (Some now)
  end.

(** An active envkey whose keyable parent, the node its [keyableParentId]
    names in the graph, is of type Server: the credentials the org counter
    counts ("active GeneratedEnvkeys whose KeyableParent is type Server"). *)
Definition activeServerEnvkey (g : OrgGraph) (o : GraphObject) : bool :=
  match activeEnvkey o with
  | Some ge => bool_decide (keyableParentTypeAt g (keyableParentId ge) = Some server)
  | None => false
  end.

Definition releasedServerEnvkeys (g : OrgGraph) (ids : list string) : Z :=
  Z.of_nat (length (filter (λ id, from_option (activeServerEnvkey g) false (g !! id) = true)
                      (remove_dups ids))).

Definition decrementServerEnvkeyCount (n : Z) (o : GraphObject) : GraphObject :=
  match o with
  | OrgObj o =>
      OrgObj (mkOrg (org_id o) (serverEnvkeyCount o - n) (org_updatedAt o) (org_deletedAt o))
  | _ => o
  end.

(** Modelled from the spec: [deleteGraphObjects] of [@core/lib/graph] is not
    among the sources.  The spec has a deleted node carry a delete marker
    ("has no delete marker" is what active means), has revocation decrement
    the org's active-server-envkey counter, and keeps that counter equal to
    "the count of active GeneratedEnvkeys whose KeyableParent is type
    Server".  So: every listed node that exists gets [deletedAt := now], and
    the org node's counter drops by the number of listed nodes that were
    active envkeys whose keyable parent, looked up in the graph as it was,
    is of type Server. *)
Definition deleteGraphObjects (g : OrgGraph) (ids : list string) (now : Z) : OrgGraph :=
  decrementServerEnvkeyCount (releasedServerEnvkeys g ids)
    <$> foldr (λ id acc, alter (markDeleted now) id acc) g ids.

(** Modelled from the spec: [getDeleteKeyableParentProducer] of
    [@core/lib/graph] is not among the sources.  The spec: deleting a keyable
    parent "deletes its active GeneratedEnvkey via the same path as explicit
    revocation".  So the producer deletes the parent and, when the index has
    one, its active envkey, through [deleteGraphObjects]. *)
Definition getDeleteKeyableParentProducer (id : string) (now : Z) (g : OrgGraph)
  : OrgGraph :=
  match getActiveGeneratedEnvkeysByKeyableParentId g !! id with
  | Some existing => deleteGraphObjects g [id; ge_id existing] now
  | None => deleteGraphObjects g [id] now
  end.

(** [list.filter(Boolean)] on a list of [string | undefined]: drops
    [undefined] and the empty string. *)
Definition filterBoolean (l : list (option string)) : list string :=
  omap (λ o, match o with
             | Some s => if decide (s = "") then None else Some s
             | None => None
             end) l.

(** ** Collaborators outside the sources, taken as interfaces *)

(** [@core/lib/crypto/utils] and [@core/lib/client]. *)
Class Crypto := {
  sha256 : string → string;
  getPubkeyHash : string → string;
}.

(** [../graph_key] (the pair is [pkey], [skey]) and [environmentCompositeId]. *)
Class GraphLib := {
  graphKey_generatedEnvkey : string → string → string → string * string;
  environmentCompositeId : Environment → string;
}.

(** [authz] of [@core/lib/graph]: graph, acting user's id, target id. *)
Class Authz := {
  UserGraph : Type;
  canCreateServer : UserGraph → string → string → bool;
  canDeleteServer : UserGraph → string → string → bool;
  canDeleteLocalKey : UserGraph → string → string → bool;
  canGenerateKey : UserGraph → string → string → bool;
  canRevokeKey : UserGraph → string → string → bool;
}.

(** ** The handlers of keyable_parents.ts

    Each handler reads nodes through unchecked casts.  A handler here has a
    result, [Some], on the runs where every node it reads a field of is
    there and of the type the cast names.  It has none, [None], where such
    a node is absent (the JavaScript throws a [TypeError]) and also where it
    is of another type: there the JavaScript goes on with that node, and
    the run is outside the model. *)

Section Handlers.
Context {crypto : Crypto} {graphLib : GraphLib} {authz : Authz}.

Definition CREATE_SERVER_graphAuthorizer
  (environmentId : string) (orgGraph : OrgGraph) (userGraph : UserGraph)
  (auth : AuthContext) : bool :=
  let numActive := numActive orgGraph in
  if negb (maxServerEnvkeys (auth_license auth) =? -1)
     && (numActive >=? maxServerEnvkeys (auth_license auth))
  then false
  else canCreateServer userGraph (auth_user_id auth) environmentId.

Definition DELETE_SERVER_graphAuthorizer
  (id : string) (orgGraph : OrgGraph) (userGraph : UserGraph) (auth : AuthContext) : bool :=
  canDeleteServer userGraph (auth_user_id auth) id.

Definition DELETE_SERVER_graphHandler
  (id : string) (orgGraph : OrgGraph) (auth : AuthContext) (now : Z)
  : option GraphHandlerResult :=
  server ← orgGraph !! id ≫= asKeyableParent;
  environment ← orgGraph !! kp_environmentId server ≫= asEnvironment;
  let generatedEnvkey :=
    getActiveGeneratedEnvkeysByKeyableParentId orgGraph !! kp_id server in
  Some {|
    graph := getDeleteKeyableParentProducer id now orgGraph;
    handlerContext := None;
    transactionItems :=
      match generatedEnvkey with
      | Some generatedEnvkey =>
          Some (mkItems [mkScope ("envkey|" +:+ envkeyIdPart generatedEnvkey)])
      | None => None
      end;
    logTargetIds :=
      filterBoolean
        [Some (kp_id server);
         Some (envParentId environment);
         Some (environmentRoleId environment);
         if isSub environment then Some (environmentCompositeId environment) else None];
    clearEnvkeySockets :=
      match generatedEnvkey with
      | Some generatedEnvkey =>
          Some [ClearEnvkeySocket (auth_org_id auth) (ge_id generatedEnvkey)]
      | None => None
      end;
  |}.

Definition DELETE_LOCAL_KEY_graphAuthorizer
  (id : string) (orgGraph : OrgGraph) (userGraph : UserGraph) (auth : AuthContext) : bool :=
  canDeleteLocalKey userGraph (auth_user_id auth) id.

Definition DELETE_LOCAL_KEY_graphHandler
  (id : string) (orgGraph : OrgGraph) (auth : AuthContext) (now : Z)
  : option GraphHandlerResult :=
  localKey ← orgGraph !! id ≫= asKeyableParent;
  environment ← orgGraph !! kp_environmentId localKey ≫= asEnvironment;
  let generatedEnvkey :=
    getActiveGeneratedEnvkeysByKeyableParentId orgGraph !! kp_id localKey in
  Some {|
    graph := getDeleteKeyableParentProducer id now orgGraph;
    handlerContext := None;
    transactionItems :=
      match generatedEnvkey with
      | Some generatedEnvkey =>
          Some (mkItems [mkScope ("envkey|" +:+ envkeyIdPart generatedEnvkey)])
      | None => None
      end;
    logTargetIds :=
      filterBoolean
        [Some (kp_id localKey);
         Some (envParentId environment);
         Some (environmentRoleId environment);
         Some "locals"];
    clearEnvkeySockets :=
      match generatedEnvkey with
      | Some generatedEnvkey =>
          Some [ClearEnvkeySocket (auth_org_id auth) (ge_id generatedEnvkey)]
      | None => None
      end;
  |}.

Definition GENERATE_KEY_graphAuthorizer
  (payload : GenerateKeyPayload) (orgGraph : OrgGraph) (userGraph : UserGraph)
  (auth : AuthContext) : bool :=
  let quotaReached :=
    match p_keyableParentType payload with
    | server =>
        let numActive := numActive orgGraph in
        let existingEnvkey :=
          getActiveGeneratedEnvkeysByKeyableParentId orgGraph
            !! p_keyableParentId payload in
        negb (maxServerEnvkeys (auth_license auth) =? -1)
        && (numActive - (if existingEnvkey is Some _ then 1 else 0)
              >=? maxServerEnvkeys (auth_license auth))
    | localKey => false
    end in
  if quotaReached then false
  else canGenerateKey userGraph (auth_user_id auth) (p_keyableParentId payload).

Definition generateKey
  (orgGraph : OrgGraph) (auth : AuthContext) (now : Z) (newId : string)
  (payload : GenerateKeyPayload) : option (OrgGraph * GeneratedEnvkey) :=
  keyableParent ← orgGraph !! p_keyableParentId payload ≫= asKeyableParent;
  let id := newId in
  let keys :=
    graphKey_generatedEnvkey (auth_org_id auth) (p_appId payload) (p_envkeyIdPart payload) in
  let generatedEnvkey := {|
    ge_id := id;
    ge_pkey := keys.1;
    ge_skey := keys.2;
    ge_appId := p_appId payload;
    encryptedPrivkey := p_encryptedPrivkey payload;
    envkeyIdPart := p_envkeyIdPart payload;
    keyableParentId := p_keyableParentId payload;
    keyableParentType := p_keyableParentType payload;
    pubkey := p_pubkey payload;
    ge_environmentId := kp_environmentId keyableParent;
    signedTrustedRoot := p_signedTrustedRoot payload;
    trustedRootUpdatedAt := now;
    envkeyShort := String.substring 0 6 (p_envkeyIdPart payload);
    envkeyIdPartHash := sha256 (p_envkeyIdPart payload);
    creatorId := auth_user_id auth;
    creatorDeviceId :=
      match auth_type auth with
      | tokenAuthContext orgUserDeviceId => Some orgUserDeviceId
      | cliUserAuthContext => None
      end;
    signedById :=
      match auth_type auth with
      | tokenAuthContext orgUserDeviceId => orgUserDeviceId
      | cliUserAuthContext => auth_user_id auth
      end;
    pubkeyId := getPubkeyHash (p_pubkey payload);
    pubkeyUpdatedAt := now;
    blobsUpdatedAt := now;
    ge_userId :=
      match kp_type keyableParent with
      | localKey => kp_userId keyableParent
      | server => None
      end;
    ge_deviceId :=
      match kp_type keyableParent with
      | localKey => kp_deviceId keyableParent
      | server => None
      end;
    ge_createdAt := now;
    ge_updatedAt := now;
    ge_deletedAt := None;
  |} in
  let withEnvkey := <[ge_id generatedEnvkey := GeneratedEnvkeyObj generatedEnvkey]> orgGraph in
  match p_keyableParentType payload with
  | server =>
      org ← orgGraph !! auth_org_id auth ≫= asOrg;
      Some (<[auth_org_id auth :=
                OrgObj (mkOrg (org_id org) (serverEnvkeyCount org + 1) now (org_deletedAt org))]>
              withEnvkey,
            generatedEnvkey)
  | localKey =>
      (* [[auth.org.id]: org] writes back whatever the lookup gave,
         [undefined] included *)
      Some (match orgGraph !! auth_org_id auth with
            | Some org => <[auth_org_id auth := org]> withEnvkey
            | None => delete (auth_org_id auth) withEnvkey
            end,
            generatedEnvkey)
  end.

Definition GENERATE_KEY_graphHandler
  (actionType : string) (payload : GenerateKeyPayload) (orgGraph : OrgGraph)
  (auth : AuthContext) (now : Z) (newId : string) : option GraphHandlerResult :=
  '(updatedGraph, generatedEnvkey) ← generateKey orgGraph auth now newId payload;
  let existingEnvkey :=
    getActiveGeneratedEnvkeysByKeyableParentId orgGraph !! p_keyableParentId payload in
  let updatedGraph :=
    match existingEnvkey with
    | Some existingEnvkey => deleteGraphObjects updatedGraph [ge_id existingEnvkey] now
    | None => updatedGraph
    end in
  keyableParent ← orgGraph !! p_keyableParentId payload ≫= asKeyableParent;
  environment ← orgGraph !! kp_environmentId keyableParent ≫= asEnvironment;
  let logTargetIds :=
    [ge_id generatedEnvkey;
     envParentId environment;
     p_keyableParentId payload;
     environmentRoleId environment]
    ++ match kp_type keyableParent with
       | localKey => ["locals"]
       | server =>
           if isSub environment then [environmentCompositeId environment] else []
       end in
  Some {|
    graph := updatedGraph;
    handlerContext := Some (mkHandlerContext actionType (ge_id generatedEnvkey));
    transactionItems :=
      match existingEnvkey with
      | Some existingEnvkey =>
          Some (mkItems [mkScope ("envkey|" +:+ envkeyIdPart existingEnvkey)])
      | None => None
      end;
    logTargetIds := logTargetIds;
    clearEnvkeySockets :=
      match existingEnvkey with
      | Some existingEnvkey =>
          Some [ClearEnvkeySocket (auth_org_id auth) (ge_id existingEnvkey)]
      | None => None
      end;
  |}.

Definition REVOKE_KEY_graphAuthorizer
  (id : string) (orgGraph : OrgGraph) (userGraph : UserGraph) (auth : AuthContext) : bool :=
  canRevokeKey userGraph (auth_user_id auth) id.

Definition REVOKE_KEY_graphHandler
  (id : string) (orgGraph : OrgGraph) (auth : AuthContext) (now : Z)
  : option GraphHandlerResult :=
  generatedEnvkey ← orgGraph !! id ≫= asGeneratedEnvkey;
  keyableParent ← orgGraph !! keyableParentId generatedEnvkey ≫= asKeyableParent;
  environment ← orgGraph !! kp_environmentId keyableParent ≫= asEnvironment;
  let logTargetIds :=
    [ge_id generatedEnvkey;
     keyableParentId generatedEnvkey;
     envParentId environment;
     environmentRoleId environment]
    ++ match kp_type keyableParent with
       | localKey => ["locals"]
       | server =>
           if isSub environment then [environmentCompositeId environment] else []
       end in
  Some {|
    graph := deleteGraphObjects orgGraph [ge_id generatedEnvkey] now;
    handlerContext := None;
    transactionItems :=
      Some (mkItems [mkScope ("envkey|" +:+ envkeyIdPart generatedEnvkey)]);
    logTargetIds := logTargetIds;
    clearEnvkeySockets :=
      Some [ClearEnvkeySocket (auth_org_id auth) (ge_id generatedEnvkey)];
  |}.

End Handlers.

(** ** Well-formed graphs and runs of the lifecycle actions *)

(** Every node is stored under its own [id]. *)
Definition IdsConsistent (g : OrgGraph) : Prop :=
  ∀ k o, g !! k = Some o → objectId o = k.

(** At most one active generated envkey per keyable parent. *)
Definition OnePerParentMap (a : gmap string GeneratedEnvkey) : Prop :=
  ∀ i j x y, a !! i = Some x → a !! j = Some y →
             keyableParentId x = keyableParentId y → i = j.

Definition OnePerParent (g : OrgGraph) : Prop :=
  OnePerParentMap (activeGeneratedEnvkeys g).

Definition WellFormed (g : OrgGraph) : Prop := IdsConsistent g ∧ OnePerParent g.

(** Decidable forms of the two invariants, for concrete graphs. *)
Definition idsConsistentb (g : OrgGraph) : bool :=
  forallb (λ p, bool_decide (objectId p.2 = p.1)) (map_to_list g).

Definition onePerParentb (g : OrgGraph) : bool :=
  bool_decide (NoDup ((λ p, keyableParentId p.2) <$> map_to_list (activeGeneratedEnvkeys g))).

(** The active envkeys bound to servers, and their number: the envkeys
    whose [keyableParentId] names a node of type Server.  The
    [keyableParentType] field of an envkey is not consulted: [generateKey]
    copies it from the payload, which can declare another type than the
    node has. *)
Definition activeServerEnvkeys (g : OrgGraph) : gmap string GeneratedEnvkey :=
  filter (λ p, keyableParentTypeAt g (keyableParentId p.2) = Some server)
    (activeGeneratedEnvkeys g).

Definition numActiveServerEnvkeys (g : OrgGraph) : Z :=
  Z.of_nat (size (activeServerEnvkeys g)).

(** The org node's counter equals the number of active server-bound
    envkeys. *)
Definition CounterMatches (orgId : string) (g : OrgGraph) : Prop :=
  ∃ org, g !! orgId = Some (OrgObj org)
         ∧ serverEnvkeyCount org = numActiveServerEnvkeys g.

(** [uuid()] gives an id that is not in use. *)
Definition Fresh (g : OrgGraph) (auth : AuthContext) (newId : string) : Prop :=
  g !! newId = None ∧ newId ≠ auth_org_id auth.

Section Runs.
Context {crypto : Crypto} {graphLib : GraphLib} {authz : Authz}.


(** The payload declares as [keyableParentType] the type of the node its
    [keyableParentId] names.  Neither the authorizer nor the handler checks
    it. *)
Definition DeclaresParentType (payload : GenerateKeyPayload) (g : OrgGraph) : Prop :=
  keyableParentTypeAt g (p_keyableParentId payload) = Some (p_keyableParentType payload).


(** One Generate (a Regenerate when the parent has an active envkey) or
    Revoke action: the handler's graph replaces the org graph. *)
Inductive LifecycleStep : OrgGraph → OrgGraph → Prop :=
| lifecycle_generate actionType payload auth now newId g r :
    Fresh g auth newId →
    GENERATE_KEY_graphHandler actionType payload g auth now newId = Some r →
    LifecycleStep g (graph r)
| lifecycle_revoke id auth now g r :
    REVOKE_KEY_graphHandler id g auth now = Some r →
    LifecycleStep g (graph r).

End Runs.

(** ** Concrete collaborators and graphs *)

Definition tagCrypto : Crypto :=
  {| sha256 := λ s, "sha256:" +:+ s; getPubkeyHash := λ s, "pubkey:" +:+ s |}.

Definition plainGraphLib : GraphLib :=
  {| graphKey_generatedEnvkey := λ orgId appId part, ("g|" +:+ orgId, "envkey|" +:+ part);
     environmentCompositeId := λ e, env_id e |}.

(** An [authz] that permits everything, over a user graph without content. *)
Definition permissiveAuthz : Authz :=
  {| UserGraph := unit;
     canCreateServer := λ _ _ _, true;
     canDeleteServer := λ _ _ _, true;
     canDeleteLocalKey := λ _ _ _, true;
     canGenerateKey := λ _ _ _, true;
     canRevokeKey := λ _ _ _, true |}.

Definition org1 : Org := mkOrg "org1" 0 0 None.

Definition env1 : Environment := mkEnvironment "env1" "app1" "role1" false None.

Definition srv1 : KeyableParent :=
  mkKeyableParent server "srv1" "app1" "env1" "production" None None 0 0 None.

Definition lk1 : KeyableParent :=
  mkKeyableParent localKey "lk1" "app1" "env1" "laptop" (Some "u1") (Some "dev1") 0 0 None.

Definition envkeyOf (id part : string) (kp : KeyableParent) : GeneratedEnvkey :=
  {| ge_id := id; ge_pkey := "g|org1"; ge_skey := "envkey|" +:+ part;
     ge_appId := "app1"; encryptedPrivkey := "enc"; envkeyIdPart := part;
     keyableParentId := kp_id kp; keyableParentType := kp_type kp;
     pubkey := "pub"; ge_environmentId := "env1"; signedTrustedRoot := "root";
     trustedRootUpdatedAt := 0; envkeyShort := String.substring 0 6 part;
     envkeyIdPartHash := "sha256:" +:+ part; creatorId := "u1";
     creatorDeviceId := Some "dev1"; signedById := "dev1";
     pubkeyId := "pubkey:pub"; pubkeyUpdatedAt := 0; blobsUpdatedAt := 0;
     ge_userId := kp_userId kp; ge_deviceId := kp_deviceId kp;
     ge_createdAt := 0; ge_updatedAt := 0; ge_deletedAt := None |}.

(** An org with one server and one local key, no envkey issued. *)
Definition emptyOrgGraph : OrgGraph :=
  <["org1" := OrgObj org1]>
    (<["env1" := EnvironmentObj env1]>
       (<["srv1" := KeyableParentObj srv1]>
          (<["lk1" := KeyableParentObj lk1]> ∅))).

(** The same org after the local key got its envkey. *)
Definition localKeyGraph : OrgGraph :=
  <["k_lk" := GeneratedEnvkeyObj (envkeyOf "k_lk" "lkpart" lk1)]> emptyOrgGraph.

(** The same org after the server got its envkey [k1]. *)
Definition serverKeyGraph : OrgGraph :=
  <["k1" := GeneratedEnvkeyObj (envkeyOf "k1" "part01" srv1)]>
    (<["org1" := OrgObj (mkOrg "org1" 1 0 None)]> emptyOrgGraph).

Definition authWithLimit (n : Z) : AuthContext :=
  mkAuth (tokenAuthContext "dev1") "u1" "org1" (mkLicense n).

Definition payloadFor (kp : KeyableParent) (part : string) : GenerateKeyPayload :=
  mkGenerateKeyPayload "app1" "enc" part (kp_id kp) (kp_type kp) "pub" "root".

End Api.

(** * The local control surface (core_process/src/server.ts)

    One request at a time: what the express app answers, what the process
    state becomes and which effects are issued.  The asynchronous steps of a
    handler run to completion in order; requests and timers that would
    interleave with an [await] are outside the model.  A request comes with
    its method, with its body as [express.json()] parsed it and with the
    route its path matches; [Date.now()] is one input [now] per request; the
    key store's [isLocked()] is the [locked] field, which [lock()] sets; log
    calls are left out.  Express's own routing rules are part of the model:
    a HEAD request is served by the handlers registered with [app.get] and
    is answered without a body, and an OPTIONS request that the middleware
    lets through is answered with the methods of the route. *)

Module CoreProcess.

Inductive ActionType :=
| OPEN_URL
| UNLOCK_DEVICE
| LOAD_RECOVERY_KEY
| LOCK_DEVICE
| FETCHED_CLIENT_STATE
| OTHER_ACTION (name : string).

#[global] Instance ActionType_eq_dec : EqDecision ActionType.
Proof. solve_decision. Defined.

(** [payload] holds the url of OPEN_URL and the passphrase of UNLOCK_DEVICE. *)
Record Action := mkAction {
  action_type : ActionType;
  action_payload : string;
}.

Inductive ActionParamsType := clientAction | asyncClientAction | apiRequestAction.

Record ActionParams := mkActionParams {
  params_type : ActionParamsType;
  skipLocalSocketUpdate : option bool;
}.

(** [OTHER_METHOD] is a method no route is registered for and express has
    no rule for (PUT, DELETE, PATCH, ...). *)
Inductive Method := GET | HEAD | POST | OPTIONS | OTHER_METHOD.

(** The route express matches the request path against. *)
Inductive Route := RouteAlive | RouteStop | RouteState | RouteAction | RouteNone.

Record DeviceKey := mkDeviceKey { dk_auth : option string }.

(** The module-level variables of server.ts and the key store's lock. *)
Record ServerState (ProcState : Type) := mkServerState {
  locked : bool;
  reduxStore : option ProcState;
  lockoutTimeout : option Z;
  deviceKey : option DeviceKey;
}.
Arguments mkServerState {ProcState}.
Arguments locked {ProcState}.
Arguments reduxStore {ProcState}.
Arguments lockoutTimeout {ProcState}.
Arguments deviceKey {ProcState}.

(** Collaborators outside the sources: the redux store and [dispatch]
    (handler.ts), [getState], the key store, the crypto proxy, and
    rfc6902's [createPatch]. *)
Class Runtime := {
  ProcState : Type;
  ClientState : Type;
  Context : Type;
  Patch : Type;
  ResultRest : Type;
  EncryptedData : Type;
  cliVersion : string;
  CORE_PROC_AGENT_NAME : string;
  CORE_PROC_AUTH_TOKEN : string;
  (* getContext() *)
  defaultContext : Context;
  (* { accountIdOrCliKey, clientId } *)
  stateContext : option string → string → Context;
  getState : ProcState → Context → ClientState;
  requiresPassphrase : ProcState → bool;
  lockoutMs : ProcState → option Z;
  lastActiveAt : ProcState → option Z;
  getActionParams : ActionType → ActionParams;
  (* the store once [dispatch(action, context)] has returned its promise *)
  dispatchStart : Action → Context → ProcState → ProcState;
  (* the awaited result: success, [state], the other fields; and the store *)
  dispatchFinish : Action → Context → ProcState → (bool * ClientState * ResultRest) * ProcState;
  createPatch : ClientState → ClientState → Patch;
  (* JSON.parse(encodeUTF8(decodeBase64(token))); [None] when it throws *)
  parseEncryptedToken : string → option EncryptedData;
  (* [None] when decryption throws *)
  decryptSymmetricWithKey : EncryptedData → string → option string;
  (* [unlockDevice(passphrase)] and [init(true)]: the error message when
     they throw, the process state otherwise *)
  unlockDevice : string → ServerState ProcState → string + ServerState ProcState;
  initForceReset : ServerState ProcState → string + ServerState ProcState;
}.

(** rfc6902's contract: a patch created from [a] to [b] takes [a] to [b]. *)
Class Rfc6902 (rt : Runtime) := {
  applyPatch : ClientState → Patch → ClientState;
  applyPatch_createPatch : ∀ a b, applyPatch a (createPatch a b) = b;
}.

(** [s.split(sep)] *)
Fixpoint splitOn (sep : Ascii.ascii) (s : string) : list string :=
  match s with
  | EmptyString => [EmptyString]
  | String c rest =>
      if Ascii.eqb c sep then EmptyString :: splitOn sep rest
      else match splitOn sep rest with
           | x :: xs => String c x :: xs
           | [] => [String c EmptyString]
           end
  end.

Section Server.
Context {rt : Runtime}.

Inductive SocketMessage :=
| FullUpdate
| Diffs (diffs : Patch).

Inductive Effect :=
| OpenedUrl (url : string)
| Killed
| LocalSocketUpdate (msg : SocketMessage)
| ClosedAllOrgSockets
| Dispatched (a : Action) (c : Context)
| QueuedPersistState (s : ProcState)
| ResolvedOrgSockets.

Inductive Body :=
| AliveBody (version : string)
| TextBody (text : string)
| ErrorBody (error : string)
| SuccessBody
| LockedStateBody
| LockDeviceBody
| StateBody (s : ClientState)
| ActionBody (success : bool) (rest : ResultRest) (diffs : Patch)
| UnhandledErrorBody
| NotFoundBody
| EmptyBody.

Record Request := mkRequest {
  req_method : Method;
  req_route : Route;
  req_userAgent : option string;
  req_action : option Action;
  req_context : option Context;
  req_clientId : option string;
  req_accountIdOrCliKey : option string;
}.

Record Outcome := mkOutcome {
  status : Z;
  body : Body;
  after : ServerState ProcState;
  effects : list Effect;
}.

Definition lockedMsg : string :=
  "Error: EnvKey is LOCKED. Can only receive UNLOCK_DEVICE or LOAD_RECOVERY_KEY action.".

Definition isLocked (st : ServerState ProcState) : bool := locked st.

Definition lockDevice (st : ServerState ProcState) : ServerState ProcState * list Effect :=
  (mkServerState true None None (deviceKey st),
   [LocalSocketUpdate FullUpdate; ClosedAllOrgSockets]).

Definition clearLockoutTimer (st : ServerState ProcState) : ServerState ProcState :=
  mkServerState (locked st) (reduxStore st) None (deviceKey st).

(** [!x] on a [number | undefined]. *)
Definition falsyNumber (x : option Z) : bool :=
  match x with Some n => n =? 0 | None => true end.

Definition lockoutIfNeeded (now : Z) (st : ServerState ProcState)
  : ServerState ProcState * list Effect :=
  match isLocked st, reduxStore st with
  | false, Some store =>
      if falsyNumber (lockoutMs store) || falsyNumber (lastActiveAt store) then (st, [])
      else if default 0 (lockoutMs store) <? now - default 0 (lastActiveAt store)
           then lockDevice st
           else (st, [])
  | _, _ => (st, [])
  end.

Definition resolveLockoutTimer (now : Z) (st : ServerState ProcState)
  : ServerState ProcState * list Effect :=
  let st := clearLockoutTimer st in
  match isLocked st, reduxStore st with
  | false, Some _ =>
      let '(st, eff) := lockoutIfNeeded now st in
      if isLocked st then (st, eff)
      else
        match reduxStore st with
        | Some state =>
            if requiresPassphrase state && negb (falsyNumber (lockoutMs state))
            then (mkServerState (locked st) (reduxStore st) (lockoutMs state) (deviceKey st), eff)
            else (st, eff)
        | None => (st, eff)
        end
  | _, _ => (st, [])
  end.

(** [None] is a thrown exception. *)
Definition authenticateUserAgent (userAgent : option string) (st : ServerState ProcState)
  : option bool :=
  match userAgent with
  | None | Some "" => Some false
  | Some userAgent =>
      let parts := splitOn "|"%char userAgent in
      let agentName := parts !! 0%nat in
      let jsonEncryptedToken := parts !! 2%nat in
      match jsonEncryptedToken with
      | None | Some "" => Some false
      | Some jsonEncryptedToken =>
          if negb (bool_decide (agentName = Some CORE_PROC_AGENT_NAME)) then Some false
          else
            match parseEncryptedToken jsonEncryptedToken with
            | None => None
            | Some parsedEncryptedToken =>
                match deviceKey st ≫= dk_auth with
                | None | Some "" => Some false
                | Some auth =>
                    match decryptSymmetricWithKey parsedEncryptedToken auth with
                    | Some decryptedToken =>
                        if bool_decide (decryptedToken = CORE_PROC_AUTH_TOKEN)
                        then Some true else Some false
                    | None => Some false
                    end
                end
            end
      end
  end.

Definition shouldSendSocketUpdate (actionParams : ActionParams) : bool :=
  let skipSocketUpdate := default false (skipLocalSocketUpdate actionParams) in
  negb skipSocketUpdate
  && match params_type actionParams with
     | asyncClientAction | apiRequestAction => true
     | clientAction => false
     end.

Definition stateHandler (now : Z) (req : Request) (st : ServerState ProcState) : Outcome :=
  if isLocked st then mkOutcome 200 LockedStateBody st []
  else
    match reduxStore st with
    | None => mkOutcome 500 (ErrorBody "Error: Redux store is not defined.") st []
    | Some store =>
        match req_clientId req with
        | None | Some "" =>
            mkOutcome 400 (ErrorBody "Error: Missing clientId query parameter") st []
        | Some clientId =>
            let state := getState store (stateContext (req_accountIdOrCliKey req) clientId) in
            let fetched := mkAction FETCHED_CLIENT_STATE "" in
            let '(_, store) :=
              dispatchFinish fetched defaultContext
                (dispatchStart fetched defaultContext store) in
            let st := mkServerState (locked st) (Some store) (lockoutTimeout st) (deviceKey st) in
            let '(st, eff) := resolveLockoutTimer now st in
            mkOutcome 200 (StateBody state) st (Dispatched fetched defaultContext :: eff)
        end
    end.

(** What the lock check of the /action handler lets through: the state to
    go on with, or the response that ends the request. *)
Definition lockGate (action : Action) (st : ServerState ProcState)
  : Z * Body + ServerState ProcState :=
  if isLocked st then
    match action_type action with
    | UNLOCK_DEVICE =>
        match unlockDevice (action_payload action) st with
        | inl err => inl (403, ErrorBody err)
        | inr st => inr st
        end
    | LOAD_RECOVERY_KEY =>
        match initForceReset st with
        | inl err => inl (500, ErrorBody err)
        | inr st => inr st
        end
    | _ => inl (403, ErrorBody lockedMsg)
    end
  else if decide (action_type action = UNLOCK_DEVICE)
  then inl (422, ErrorBody "Error: Device isn't locked.")
  else inr st.

Definition actionHandler (now : Z) (req : Request) (st : ServerState ProcState) : Outcome :=
  match req_action req, req_context req with
  | Some action, Some context =>
      if decide (action_type action = OPEN_URL)
      then mkOutcome 301 SuccessBody st [OpenedUrl (action_payload action)]
      else
        match lockGate action st with
        | inl (code, answer) => mkOutcome code answer st []
        | inr st =>
            match reduxStore st with
            | None => mkOutcome 500 (ErrorBody "Error: Redux store is not defined.") st []
            | Some store =>
                if decide (action_type action = LOCK_DEVICE) then
                  if negb (requiresPassphrase store)
                  then mkOutcome 422
                         (ErrorBody "Error: Cannot lock device if no passphrase is set.") st []
                  else let '(st, eff) := lockDevice st in
                       mkOutcome 200 LockDeviceBody st eff
                else
                  let initialClientState := getState store context in
                  let actionParams := getActionParams (action_type action) in
                  let store := dispatchStart action context store in
                  let afterDispatchClientState := getState store context in
                  let socketUpdate :=
                    if shouldSendSocketUpdate actionParams
                    then [LocalSocketUpdate
                            (Diffs (createPatch initialClientState afterDispatchClientState))]
                    else [] in
                  let '((success, state, rest), store) := dispatchFinish action context store in
                  let persisted :=
                    if success then [QueuedPersistState store; ResolvedOrgSockets] else [] in
                  let st := mkServerState (locked st) (Some store) (lockoutTimeout st)
                              (deviceKey st) in
                  let '(st, eff) := resolveLockoutTimer now st in
                  mkOutcome 200
                    (ActionBody success rest
                       (createPatch
                          (if shouldSendSocketUpdate actionParams
                           then afterDispatchClientState
                           else initialClientState)
                          state))
                    st
                    (Dispatched action context :: socketUpdate ++ persisted ++ eff)
            end
        end
  | _, _ =>
      mkOutcome 400
        (ErrorBody "Bad request. Requires 'action' and 'context' in post body.") st []
  end.

(** [app.get] serves GET and, as no route registers HEAD, HEAD too
    ([Route.prototype._handles_method]). *)
Definition servedByGet (m : Method) : bool :=
  match m with
  | GET | HEAD => true
  | _ => false
  end.

(** The methods express lists in its answer to OPTIONS for each route
    ([Route.prototype._options]). *)
Definition allowedMethods (r : Route) : option string :=
  match r with
  | RouteAlive | RouteStop | RouteState => Some "GET,HEAD"
  | RouteAction => Some "POST"
  | RouteNone => None
  end.

(** What goes out as the body: [res.send] ends a HEAD response without
    one. *)
Definition sentBody (m : Method) (b : Body) : Body :=
  match m with
  | HEAD => EmptyBody
  | _ => b
  end.

(** The routes and middleware of [start] in registration order; [body] is
    what the handler hands to [res]. *)
Definition route (now : Z) (req : Request) (st : ServerState ProcState) : Outcome :=
  match servedByGet (req_method req), req_route req with
  | true, RouteAlive => mkOutcome 200 (AliveBody cliVersion) st []
  | true, RouteStop => mkOutcome 200 (TextBody "Stopping local server...") st [Killed]
  | _, _ =>
      (* authMiddleware *)
      match authenticateUserAgent (req_userAgent req) st with
      | None => mkOutcome 500 UnhandledErrorBody st []
      | Some false => mkOutcome 401 (ErrorBody "Unauthorized") st []
      | Some true =>
          (* lockoutMiddleware *)
          let '(st, eff) := lockoutIfNeeded now st in
          let out :=
            match req_method req, req_route req with
            | (GET | HEAD), RouteState => stateHandler now req st
            | POST, RouteAction => actionHandler now req st
            | OPTIONS, r =>
                match allowedMethods r with
                | Some methods => mkOutcome 200 (TextBody methods) st []
                | None => mkOutcome 404 NotFoundBody st []
                end
            | _, _ => mkOutcome 404 NotFoundBody st []
            end in
          mkOutcome (status out) (body out) (after out) (eff ++ effects out)
      end
  end.

(** The express app of [start]. *)
Definition handleRequest (now : Z) (req : Request) (st : ServerState ProcState) : Outcome :=
  let out := route now req st in
  mkOutcome (status out) (sentBody (req_method req) (body out)) (after out) (effects out).

End Server.

(** ** A concrete runtime: a store of two numeric fields *)

(** The serialized state is the JSON object [{x, y}]; a patch is a list of
    [replace] operations on [/x] and [/y], as rfc6902 creates them for two
    objects with the same keys. *)
Inductive FlatOp := ReplaceX (v : Z) | ReplaceY (v : Z).

Definition flatCreatePatch (a b : Z * Z) : list FlatOp :=
  (if decide (a.1 = b.1) then [] else [ReplaceX b.1])
  ++ (if decide (a.2 = b.2) then [] else [ReplaceY b.2]).

Definition flatApplyOp (s : Z * Z) (op : FlatOp) : Z * Z :=
  match op with
  | ReplaceX v => (v, s.2)
  | ReplaceY v => (s.1, v)
  end.

Definition flatApplyPatch (s : Z * Z) (patch : list FlatOp) : Z * Z :=
  foldl flatApplyOp s patch.

(** Every action is an async client action that raises [x] when dispatched
    and [y] when it completes; the token is valid when it decrypts to the
    shared secret under the device key ["key"]. *)
Definition flatRuntime : Runtime := {|
  ProcState := Z * Z;
  ClientState := Z * Z;
  Context := unit;
  Patch := list FlatOp;
  ResultRest := unit;
  EncryptedData := string;
  cliVersion := "2.0.0";
  CORE_PROC_AGENT_NAME := "envkey-core";
  CORE_PROC_AUTH_TOKEN := "secret";
  defaultContext := tt;
  stateContext := λ _ _, tt;
  getState := λ s _, s;
  requiresPassphrase := λ _, true;
  lockoutMs := λ _, None;
  lastActiveAt := λ _, None;
  getActionParams := λ _, mkActionParams asyncClientAction None;
  dispatchStart := λ _ _ s, (s.1 + 1, s.2);
  dispatchFinish := λ _ _ s, ((true, (s.1, s.2 + 1), tt), (s.1, s.2 + 1));
  createPatch := flatCreatePatch;
  parseEncryptedToken := λ s, Some s;
  decryptSymmetricWithKey := λ data key, if decide (key = "key") then Some data else None;
  unlockDevice := λ _ st, inr (mkServerState false (Some (0, 0)) None (deviceKey st));
  initForceReset := λ st, inr (mkServerState false (Some (0, 0)) None (deviceKey st));
|}.

Definition flatRfc6902 : Rfc6902 flatRuntime.
Proof.
  refine {| applyPatch := flatApplyPatch : @ClientState flatRuntime → _ |}.
  intros [a1 a2] [b1 b2]. unfold flatApplyPatch. simpl. unfold flatCreatePatch. simpl.
  destruct (decide (a1 = b1)), (decide (a2 = b2)); simpl; congruence.
Defined.

Definition lockedState : ServerState (@ProcState flatRuntime) :=
  mkServerState true None None (Some (mkDeviceKey (Some "key"))).

Definition unlockedState : ServerState (@ProcState flatRuntime) :=
  mkServerState false (Some (0, 0)) None (Some (mkDeviceKey (Some "key"))).

Definition validUserAgent : string := "envkey-core|2.0.0|secret".

Definition actionRequest (userAgent : option string) (a : Action) : @Request flatRuntime :=
  @mkRequest flatRuntime POST RouteAction userAgent (Some a)
    (Some (tt : @Context flatRuntime)) None None.

Definition stopRequest : @Request flatRuntime :=
  @mkRequest flatRuntime GET RouteStop None None None None None.

End CoreProcess.

(** * Block connections and access scopes (core_process/src/handlers/blocks.ts) *)

Module Blocks.

(** One dimension of an access scope: a set of ids, or ["all"]. *)
Inductive ScopeIds :=
| all
| ids (s : gset string).

(** [Rbac.OrgAccessScope]; the callers in blocks.ts leave dimensions out,
    so each one is optional. *)
Record OrgAccessScope := mkAccessScope {
  envParentIds : option ScopeIds;
  userIds : option ScopeIds;
  keyableParentIds : option ScopeIds;
}.

Definition mergeScopeIds (a b : option ScopeIds) : option ScopeIds :=
  match a, b with
  | Some all, _ | _, Some all => Some all
  | Some (ids x), Some (ids y) => Some (ids (x ∪ y))
  | Some (ids x), None => Some (ids x)
  | None, Some (ids y) => Some (ids y)
  | None, None => None
  end.

Definition mergeTwoAccessScopes (a b : OrgAccessScope) : OrgAccessScope :=
  {| envParentIds := mergeScopeIds (envParentIds a) (envParentIds b);
     userIds := mergeScopeIds (userIds a) (userIds b);
     keyableParentIds := mergeScopeIds (keyableParentIds a) (keyableParentIds b) |}.

(** Modelled from the spec: [mergeAccessScopes] of [@core/lib/graph] is not
    among the sources (blocks.ts calls it with two and with three scopes).
    The spec: "Scopes merge by unioning each dimension, with "all" absorbing
    any finite set on that dimension." *)
Definition mergeAccessScopes (scopes : list OrgAccessScope) : OrgAccessScope :=
  foldr mergeTwoAccessScopes (mkAccessScope None None None) scopes.

Record AppBlock := mkAppBlock {
  ab_id : string;
  appId : string;
  blockId : string;
  orderIndex : Z;
}.

Inductive UserGraphObject :=
| AppObj (id : string) (name : string)
| BlockObj (id : string) (name : string)
| AppBlockObj (c : AppBlock)
| OtherUserObj (id : string).

Abbreviation UserGraph := (gmap string UserGraphObject).

Definition asAppBlock (o : UserGraphObject) : option AppBlock :=
  match o with AppBlockObj c => Some c | _ => None end.

Definition isApp (o : UserGraphObject) : bool :=
  match o with AppObj _ _ => true | _ => false end.

Definition isBlock (o : UserGraphObject) : bool :=
  match o with BlockObj _ _ => true | _ => false end.

(** Modelled from the spec: [deleteProposer] of [../lib/graph] is not among
    the sources.  The spec: disconnecting a block "removes the connection
    node"; the proposer drops the node with the payload's id from the graph
    draft. *)
Definition deleteProposer (id : string) (graphDraft : UserGraph) : UserGraph :=
  delete id graphDraft.

Definition DELETE_BLOCK_encryptedKeysScopeFn (graph : UserGraph) (id : string)
  : OrgAccessScope :=
  {| envParentIds := Some (ids {[id]});
     userIds := Some all;
     keyableParentIds := Some all |}.

Definition DISCONNECT_BLOCK_graphProposer (id : string) (graph : UserGraph) : UserGraph :=
  deleteProposer id graph.

(** [None]: [graph[id]] is undefined and the destructuring throws. *)
Definition DISCONNECT_BLOCK_encryptedKeysScopeFn (graph : UserGraph) (id : string)
  : option OrgAccessScope :=
  c ← graph !! id ≫= asAppBlock;
  Some {| envParentIds := Some (ids {[appId c; blockId c]});
          userIds := Some all;
          keyableParentIds := Some all |}.

Definition CONNECT_BLOCK_encryptedKeysScopeFn (graph : UserGraph) (appId blockId : string)
  : OrgAccessScope :=
  {| envParentIds := Some (ids {[appId; blockId]});
     userIds := Some all;
     keyableParentIds := Some all |}.

Section GroupScopes.
(** [getOrgAccessScopeForGroupMembers] of [@core/lib/graph], a collaborator. *)
Variable getOrgAccessScopeForGroupMembers : UserGraph → string → OrgAccessScope.

Definition CREATE_APP_BLOCK_GROUP_encryptedKeysScopeFn
  (graph : UserGraph) (appId blockGroupId : string) : OrgAccessScope :=
  mergeAccessScopes
    [getOrgAccessScopeForGroupMembers graph blockGroupId;
     {| userIds := Some all; keyableParentIds := Some all;
        envParentIds := Some (ids {[appId]}) |}].

Definition CREATE_APP_GROUP_BLOCK_encryptedKeysScopeFn
  (graph : UserGraph) (blockId appGroupId : string) : OrgAccessScope :=
  mergeAccessScopes
    [getOrgAccessScopeForGroupMembers graph appGroupId;
     {| userIds := Some all; keyableParentIds := Some all;
        envParentIds := Some (ids {[blockId]}) |}].

Definition CREATE_APP_GROUP_BLOCK_GROUP_encryptedKeysScopeFn
  (graph : UserGraph) (blockGroupId appGroupId : string) : OrgAccessScope :=
  mergeAccessScopes
    [getOrgAccessScopeForGroupMembers graph appGroupId;
     getOrgAccessScopeForGroupMembers graph blockGroupId;
     {| userIds := Some all; keyableParentIds := Some all; envParentIds := None |}].

End GroupScopes.

(** An app connected to a block. *)
Definition connectedGraph : UserGraph :=
  <["app1" := AppObj "app1" "api"]>
    (<["block1" := BlockObj "block1" "shared"]>
       (<["app1|block1" := AppBlockObj (mkAppBlock "app1|block1" "app1" "block1" 0)]> ∅)).

End Blocks.

(** * The heartbeat of the core process (server.ts, [procHeartbeatLoop]) *)

Module CoreProcessLoop.
Import CoreProcess.

Section Loop.
Context {rt : Runtime}.

(** One run of [procHeartbeatLoop]: the process state, the effects, and the
    new [lastProcHeartbeatAt]; the loop then re-arms itself for ten seconds
    later.  An exception of [lockoutIfNeeded] is caught and logged. *)
Definition procHeartbeatLoop (now lastProcHeartbeatAt : Z) (st : ServerState ProcState)
  : ServerState ProcState * list Effect * Z :=
  let '(st, eff) :=
    if 15000 <? now - lastProcHeartbeatAt then lockoutIfNeeded now st else (st, []) in
  (st, eff, now).

(** A locked process holds no redux store and no armed lockout timer. *)
Definition LockedClean (st : ServerState ProcState) : Prop :=
  locked st = true → reduxStore st = None ∧ lockoutTimeout st = None.

(** The conditions under which [lockoutIfNeeded] locks: unlocked, a store
    whose [lockoutMs] and [lastActiveAt] are set and not zero, and more than
    [lockoutMs] since [lastActiveAt]. *)
Definition idleTooLong (now : Z) (st : ServerState ProcState) : Prop :=
  locked st = false
  ∧ ∃ store ms activeAt,
      reduxStore st = Some store
      ∧ lockoutMs store = Some ms ∧ ms ≠ 0
      ∧ lastActiveAt store = Some activeAt ∧ activeAt ≠ 0
      ∧ ms < now - activeAt.

(** Effects other than terminating the process and opening a url. *)
Definition quiet (e : Effect) : Prop :=
  match e with
  | Killed | OpenedUrl _ => False
  | _ => True
  end.

End Loop.

(** A runtime like [flatRuntime] whose store locks after one second of
    inactivity; the store's second field is [lastActiveAt]. *)
Definition idleRuntime : Runtime := {|
  ProcState := Z * Z;
  ClientState := Z * Z;
  Context := unit;
  Patch := list FlatOp;
  ResultRest := unit;
  EncryptedData := string;
  cliVersion := "2.0.0";
  CORE_PROC_AGENT_NAME := "envkey-core";
  CORE_PROC_AUTH_TOKEN := "secret";
  defaultContext := tt;
  stateContext := λ _ _, tt;
  getState := λ s _, s;
  requiresPassphrase := λ _, true;
  lockoutMs := λ _, Some 1000;
  lastActiveAt := λ s, Some s.2;
  getActionParams := λ _, mkActionParams clientAction None;
  dispatchStart := λ _ _ s, s;
  dispatchFinish := λ _ _ s, ((true, s, tt), s);
  createPatch := flatCreatePatch;
  parseEncryptedToken := λ s, Some s;
  decryptSymmetricWithKey := λ data key, if decide (key = "key") then Some data else None;
  unlockDevice := λ _ st, inr (mkServerState false (Some (0, 0)) None (deviceKey st));
  initForceReset := λ st, inr (mkServerState false (Some (0, 0)) None (deviceKey st));
|}.

Definition activeState (activeAt : Z) : ServerState (@ProcState idleRuntime) :=
  mkServerState false (Some (0, activeAt)) (Some 1000) (Some (mkDeviceKey (Some "key"))).

End CoreProcessLoop.

(** * Connecting blocks (core_process/src/handlers/blocks.ts, CONNECT_BLOCKS) *)

Module BlocksConnect.

(** One element of the ConnectBlocks payload; [apiActionCreator] and
    [getGraphProposer] read it [as any], so every field is optional. *)
Record ConnectParams := mkConnectParams {
  cp_appId : option string;
  cp_appGroupId : option string;
  cp_blockId : option string;
  cp_blockGroupId : option string;
  cp_orderIndex : option Z;
}.

Inductive ConnectActionType :=
| CONNECT_BLOCK
| CREATE_APP_BLOCK_GROUP
| CREATE_APP_GROUP_BLOCK
| CREATE_APP_GROUP_BLOCK_GROUP.

(** Truthiness of a [string | undefined]. *)
Definition truthy (o : option string) : bool :=
  match o with
  | Some s => negb (bool_decide (s = ""))
  | None => false
  end.

(** The [actionType] that [apiActionCreator] picks; [None] is the
    [undefined] left when no branch applies. *)
Definition apiActionCreator_actionType (payload : ConnectParams) : option ConnectActionType :=
  if truthy (cp_appId payload) && truthy (cp_blockId payload)
  then Some CONNECT_BLOCK
  else if truthy (cp_appId payload) && truthy (cp_blockGroupId payload)
  then Some CREATE_APP_BLOCK_GROUP
  else if truthy (cp_appGroupId payload) && truthy (cp_blockId payload)
  then Some CREATE_APP_GROUP_BLOCK
  else if truthy (cp_appGroupId payload) && truthy (cp_blockGroupId payload)
  then Some CREATE_APP_GROUP_BLOCK_GROUP
  else None.

(** [list.join(sep)] *)
Fixpoint joinWith (sep : string) (l : list string) : string :=
  match l with
  | [] => ""
  | [x] => x
  | x :: rest => x +:+ sep +:+ joinWith sep rest
  end.

(** The [proposalId] of [getGraphProposer]: the ids the payload has, in the
    order app, app group, block, block group, joined by ["|"]. *)
Definition proposalId (payload : ConnectParams) : string :=
  joinWith "|"
    (Api.filterBoolean
       [cp_appId payload; cp_appGroupId payload; cp_blockId payload;
        cp_blockGroupId payload]).

(** The app side and the block side of one payload element: the [appId] or
    [blockId] when the key is there, the group id otherwise. *)
Definition appTargetId (params : ConnectParams) : option string :=
  match cp_appId params with
  | Some appId => Some appId
  | None => cp_appGroupId params
  end.

Definition blockTargetId (params : ConnectParams) : option string :=
  match cp_blockId params with
  | Some blockId => Some blockId
  | None => cp_blockGroupId params
  end.

Definition connectBlockStatusPaths (payload : list ConnectParams)
  : list (list (option string)) :=
  foldl
    (λ res params,
       res ++ [[appTargetId params; blockTargetId params];
               [blockTargetId params; appTargetId params]])
    [] payload.

(** No ["|"] inside an id. *)
Definition barFree (s : string) : Prop :=
  "|"%char ∉ String.list_ascii_of_string s.

End BlocksConnect.

(** * Granting a team access to apps (the [TeamAddApps] component) *)

Module TeamAddApps.

Record AppRole := mkAppRole { role_id : string; role_name : string }.

Record App := mkApp { app_id : string; app_name : string }.

(** What the [useMemo] callback accumulates. *)
Record Memo := mkMemo {
  grantableAppsByAppRoleId : gmap string (list App);
  grantableAppRoleIds : gset string;
  grantableAppRoles : list AppRole;
  existingAppRolesByAppId : gmap string (option AppRole);
}.

Section Component.
(** [g.authz.getAccessGrantableAppRolesForUserGroup(graph, currentUserId,
    app.id, groupId)] and [g.getAppRoleForUserGroup(graph, app.id, groupId)],
    collaborators, for the graph, user and group of the component. *)
Variable getAccessGrantableAppRolesForUserGroup : App → list AppRole.
Variable getAppRoleForUserGroup : App → option AppRole.

(** The body of [for (let role of roles)]. *)
Definition addRole (app : App) (m : Memo) (role : AppRole) : Memo :=
  let m :=
    if decide (role_id role ∈ grantableAppRoleIds m) then m
    else mkMemo (grantableAppsByAppRoleId m)
           (grantableAppRoleIds m ∪ {[role_id role]})
           (grantableAppRoles m ++ [role])
           (existingAppRolesByAppId m) in
  mkMemo
    (<[role_id role :=
         default [] (grantableAppsByAppRoleId m !! role_id role) ++ [app]]>
       (grantableAppsByAppRoleId m))
    (grantableAppRoleIds m) (grantableAppRoles m) (existingAppRolesByAppId m).

(** The body of [for (let app of grantableApps)]. *)
Definition addApp (m : Memo) (app : App) : Memo :=
  let m := foldl (addRole app) m (getAccessGrantableAppRolesForUserGroup app) in
  mkMemo (grantableAppsByAppRoleId m) (grantableAppRoleIds m) (grantableAppRoles m)
    (<[app_id app := getAppRoleForUserGroup app]> (existingAppRolesByAppId m)).

Definition useMemoResult (grantableApps : list App) : Memo :=
  foldl addApp (mkMemo ∅ ∅ [] ∅) grantableApps.

(** [grantableAppRoles[grantableAppRoles.length - 1].id], the initial
    [selectedAppRoleId]; [None]: the element is [undefined] and reading its
    [id] throws. *)
Definition initialSelectedAppRoleId (m : Memo) : option string :=
  role_id <$> last (grantableAppRoles m).

(** [grantableAppsByAppRoleId[selectedAppRoleId] ?? []] *)
Definition grantableAppsFor (m : Memo) (selectedAppRoleId : string) : list App :=
  default [] (grantableAppsByAppRoleId m !! selectedAppRoleId).

(** Every (app, role) pair the two loops visit, in order. *)
Definition visited (grantableApps : list App) : list (App * AppRole) :=
  app ← grantableApps;
  (λ role, (app, role)) <$> getAccessGrantableAppRolesForUserGroup app.

End Component.

(** What the loops have established once they have visited the pairs [V]. *)
Record Grouped (m : Memo) (V : list (App * AppRole)) : Prop := {
  grouped_nodup : NoDup (role_id <$> grantableAppRoles m);
  grouped_ids : ∀ rid, rid ∈ grantableAppRoleIds m ↔ rid ∈ role_id <$> grantableAppRoles m;
  grouped_seen : ∀ rid, rid ∈ grantableAppRoleIds m ↔ rid ∈ (λ p, role_id p.2) <$> V;
  grouped_apps : ∀ rid,
    default [] (grantableAppsByAppRoleId m !! rid)
    = (filter (λ p, role_id p.2 = rid) V).*1;
}.

Definition adminRole : AppRole := mkAppRole "role-admin" "Admin".
Definition devRole : AppRole := mkAppRole "role-dev" "Developer".
Definition apiApp : App := mkApp "app-api" "api".
Definition webApp : App := mkApp "app-web" "web".

Definition sampleRoles (app : App) : list AppRole :=
  if decide (app_id app = "app-api") then [devRole; adminRole] else [devRole].

End TeamAddApps.

Module ApiFacts.
Import Api.

(** ** The parent→active-envkey index *)

Lemma index_lookup_inv (a : gmap string GeneratedEnvkey) kp ge :
  indexByKeyableParentId a !! kp = Some ge →
  ∃ i, a !! i = Some ge ∧ keyableParentId ge = kp.
Proof.
  unfold indexByKeyableParentId.
  intros Hin%elem_of_list_to_map_2.
  apply list_elem_of_fmap in Hin as [[i x] [Heq Hin]].
  apply elem_of_map_to_list in Hin.
  unfold byKeyableParentId in Heq; simpl in Heq.
  exists i. by simplify_eq.
Qed.

Lemma index_lookup_is_Some (a : gmap string GeneratedEnvkey) i ge :
  a !! i = Some ge → is_Some (indexByKeyableParentId a !! keyableParentId ge).
Proof.
  intros Hi.
  destruct (indexByKeyableParentId a !! keyableParentId ge) eqn:E; [by eauto|].
  exfalso. apply not_elem_of_list_to_map_2 in E. apply E.
  apply list_elem_of_fmap. exists (keyableParentId ge, ge). split; [done|].
  apply list_elem_of_fmap. exists (i, ge). split; [done|].
  by apply elem_of_map_to_list.
Qed.

Lemma index_lookup (a : gmap string GeneratedEnvkey) kp ge :
  OnePerParentMap a →
  indexByKeyableParentId a !! kp = Some ge ↔
  ∃ i, a !! i = Some ge ∧ keyableParentId ge = kp.
Proof.
  intros Hone. split; [apply index_lookup_inv|].
  intros (i & Hi & <-).
  destruct (index_lookup_is_Some a i ge Hi) as [ge' Hge'].
  destruct (index_lookup_inv _ _ _ Hge') as (j & Hj & Hkp).
  assert (j = i) as -> by (eapply Hone; eauto).
  by simplify_eq.
Qed.

Lemma index_lookup_None (a : gmap string GeneratedEnvkey) kp :
  indexByKeyableParentId a !! kp = None ↔
  ∀ i ge, a !! i = Some ge → keyableParentId ge ≠ kp.
Proof.
  split.
  - intros Hnone i ge Hi <-.
    destruct (index_lookup_is_Some a i ge Hi) as [? ?]. congruence.
  - intros Hall. destruct (indexByKeyableParentId a !! kp) eqn:E; [|done].
    apply index_lookup_inv in E as (i & Hi & Hkp). by destruct (Hall i _ Hi).
Qed.

Lemma index_keys_NoDup (a : gmap string GeneratedEnvkey) :
  OnePerParentMap a → NoDup (byKeyableParentId <$> map_to_list a).*1.
Proof.
  intros Hone. rewrite <- list_fmap_compose.
  apply NoDup_fmap_2_strong; [|apply NoDup_map_to_list].
  intros [i x] [j y] Hi%elem_of_map_to_list Hj%elem_of_map_to_list Heq.
  simpl in Heq. assert (i = j) as -> by (eapply Hone; eauto).
  by simplify_eq.
Qed.

Lemma index_size (a : gmap string GeneratedEnvkey) :
  OnePerParentMap a → size (indexByKeyableParentId a) = size a.
Proof.
  intros Hone. unfold indexByKeyableParentId.
  rewrite map_size_list_to_map by by apply index_keys_NoDup.
  by rewrite length_fmap, length_map_to_list.
Qed.

(** ** Deleting graph objects *)

Lemma markDeleted_idemp now o : markDeleted now (markDeleted now o) = markDeleted now o.
Proof. by destruct o. Qed.

Lemma objectId_markDeleted now o : objectId (markDeleted now o) = objectId o.
Proof. by destruct o. Qed.

Lemma objectId_decrement n o : objectId (decrementServerEnvkeyCount n o) = objectId o.
Proof. by destruct o. Qed.

Lemma activeEnvkey_markDeleted now o : activeEnvkey (markDeleted now o) = None.
Proof. by destruct o. Qed.

Lemma activeEnvkey_decrement n o :
  activeEnvkey (decrementServerEnvkeyCount n o) = activeEnvkey o.
Proof. by destruct o. Qed.

Lemma activeEnvkey_Some o ge :
  activeEnvkey o = Some ge ↔ o = GeneratedEnvkeyObj ge ∧ ge_deletedAt ge = None.
Proof.
  destruct o as [| | |g|]; simpl; try (split; [done | by intros [? ?]]).
  destruct (ge_deletedAt g) eqn:E; split; try done.
  - intros [? ?]; simplify_eq.
  - intros ?; by simplify_eq.
  - intros [? ?]; by simplify_eq.
Qed.

Lemma lookup_mark_all (g : OrgGraph) ids now i :
  foldr (λ id acc, alter (markDeleted now) id acc) g ids !! i
  = if decide (i ∈ ids) then markDeleted now <$> g !! i else g !! i.
Proof.
  induction ids as [|k ids IH]; cbn [foldr].
  - by rewrite decide_False by apply not_elem_of_nil.
  - rewrite lookup_alter. destruct (decide (k = i)) as [->|Hne].
    + rewrite decide_True by apply list_elem_of_here.
      rewrite IH. case_decide; [|done].
      rewrite <- option_fmap_compose. apply option_fmap_ext.
      intros o; apply markDeleted_idemp.
    + rewrite IH. destruct (decide (i ∈ ids)).
      * by rewrite decide_True by by apply list_elem_of_further.
      * rewrite decide_False; [done|].
        intros [?|?]%elem_of_cons; congruence.
Qed.

Lemma lookup_deleteGraphObjects (g : OrgGraph) ids now i :
  deleteGraphObjects g ids now !! i
  = decrementServerEnvkeyCount (releasedServerEnvkeys g ids)
      <$> (if decide (i ∈ ids) then markDeleted now <$> g !! i else g !! i).
Proof. unfold deleteGraphObjects. by rewrite lookup_fmap, lookup_mark_all. Qed.

Lemma active_deleteGraphObjects (g : OrgGraph) ids now i :
  activeGeneratedEnvkeys (deleteGraphObjects g ids now) !! i
  = if decide (i ∈ ids) then None else activeGeneratedEnvkeys g !! i.
Proof.
  unfold activeGeneratedEnvkeys.
  rewrite !lookup_omap, lookup_deleteGraphObjects.
  case_decide; destruct (g !! i) as [o|]; simpl; try done.
  - by rewrite activeEnvkey_decrement, activeEnvkey_markDeleted.
  - by rewrite activeEnvkey_decrement.
Qed.

Lemma active_deleteGraphObjects_1 (g : OrgGraph) k now :
  activeGeneratedEnvkeys (deleteGraphObjects g [k] now)
  = delete k (activeGeneratedEnvkeys g).
Proof.
  apply map_eq; intros i. rewrite active_deleteGraphObjects, lookup_delete.
  destruct (decide (k = i)) as [->|].
  - by rewrite decide_True by apply list_elem_of_here.
  - rewrite decide_False; [done|]. rewrite list_elem_of_singleton. congruence.
Qed.

Lemma IdsConsistent_deleteGraphObjects (g : OrgGraph) ids now :
  IdsConsistent g → IdsConsistent (deleteGraphObjects g ids now).
Proof.
  intros Hg k o. rewrite lookup_deleteGraphObjects.
  case_decide; destruct (g !! k) as [o'|] eqn:E; simpl; intros ?; simplify_eq.
  - rewrite objectId_decrement, objectId_markDeleted. by apply Hg.
  - rewrite objectId_decrement. by apply Hg.
Qed.

Lemma active_lookup_Some (g : OrgGraph) i ge :
  activeGeneratedEnvkeys g !! i = Some ge ↔
  g !! i = Some (GeneratedEnvkeyObj ge) ∧ ge_deletedAt ge = None.
Proof.
  unfold activeGeneratedEnvkeys. rewrite lookup_omap_Some. split.
  - intros (o & [-> ?]%activeEnvkey_Some & ?). done.
  - intros [? ?]. exists (GeneratedEnvkeyObj ge). by rewrite activeEnvkey_Some.
Qed.

(** Under the invariants the index at a parent is that parent's one active
    envkey, stored in the graph under its own id. *)
Lemma index_Some_graph (g : OrgGraph) kp ge :
  IdsConsistent g →
  getActiveGeneratedEnvkeysByKeyableParentId g !! kp = Some ge →
  g !! ge_id ge = Some (GeneratedEnvkeyObj ge)
  ∧ ge_deletedAt ge = None ∧ keyableParentId ge = kp.
Proof.
  intros Hids (i & Hi & Hkp)%index_lookup_inv.
  apply active_lookup_Some in Hi as [Hi Hact].
  assert (ge_id ge = i) as -> by apply (Hids _ _ Hi). done.
Qed.

Lemma index_graph_Some (g : OrgGraph) i ge :
  OnePerParent g →
  g !! i = Some (GeneratedEnvkeyObj ge) → ge_deletedAt ge = None →
  getActiveGeneratedEnvkeysByKeyableParentId g !! keyableParentId ge = Some ge.
Proof.
  intros Hone Hi Hact. apply index_lookup; [done|].
  exists i. split; [|done]. by apply active_lookup_Some.
Qed.

Lemma numActive_size (g : OrgGraph) :
  OnePerParent g → numActive g = Z.of_nat (size (activeGeneratedEnvkeys g)).
Proof. intros Hone. unfold numActive. f_equal. by apply index_size. Qed.


(** ** One-per-parent under insertion and deletion *)

Lemma OnePerParentMap_delete (a : gmap string GeneratedEnvkey) k :
  OnePerParentMap a → OnePerParentMap (delete k a).
Proof.
  intros Hone i j x y [_ Hi]%lookup_delete_Some [_ Hj]%lookup_delete_Some.
  by apply Hone.
Qed.

Lemma OnePerParentMap_insert (a : gmap string GeneratedEnvkey) n new :
  OnePerParentMap a →
  (∀ i x, i ≠ n → a !! i = Some x → keyableParentId x ≠ keyableParentId new) →
  OnePerParentMap (<[n := new]> a).
Proof.
  intros Hone Hnew i j x y.
  rewrite !lookup_insert_Some.
  intros [[<- <-]|[Hin Hi]] [[<- <-]|[Hjn Hj]] Hkp; try done.
  - by destruct (Hnew j y (not_eq_sym Hjn) Hj).
  - by destruct (Hnew i x (not_eq_sym Hin) Hi).
  - by eapply Hone.
Qed.

Section HandlerFacts.
Context {crypto : Crypto} {graphLib : GraphLib} {authz : Authz}.

(** ** [generateKey] *)

Lemma generateKey_envkey g auth now newId payload g1 new :
  generateKey g auth now newId payload = Some (g1, new) →
  ge_id new = newId
  ∧ keyableParentId new = p_keyableParentId payload
  ∧ keyableParentType new = p_keyableParentType payload
  ∧ envkeyIdPart new = p_envkeyIdPart payload
  ∧ envkeyIdPartHash new = sha256 (p_envkeyIdPart payload)
  ∧ ge_deletedAt new = None.
Proof.
  unfold generateKey. intros Hgen.
  destruct (g !! p_keyableParentId payload ≫= asKeyableParent) as [kp|]; [|done].
  simpl in Hgen. destruct (p_keyableParentType payload) eqn:Hty.
  - destruct (g !! auth_org_id auth ≫= asOrg); [|done].
    simpl in Hgen. by simplify_eq.
  - by simplify_eq.
Qed.

Lemma generateKey_lookup g auth now newId payload g1 new :
  generateKey g auth now newId payload = Some (g1, new) →
  newId ≠ auth_org_id auth →
  g1 !! newId = Some (GeneratedEnvkeyObj new)
  ∧ (∀ i, i ≠ newId → i ≠ auth_org_id auth → g1 !! i = g !! i)
  ∧ match p_keyableParentType payload with
    | server =>
        ∃ org, g !! auth_org_id auth = Some (OrgObj org)
               ∧ g1 !! auth_org_id auth
                 = Some (OrgObj (mkOrg (org_id org) (serverEnvkeyCount org + 1)
                                   now (org_deletedAt org)))
    | localKey => g1 !! auth_org_id auth = g !! auth_org_id auth
    end.
Proof.
  unfold generateKey. intros Hgen Hne.
  destruct (g !! p_keyableParentId payload ≫= asKeyableParent) as [kp|]; [|done].
  simpl in Hgen. destruct (p_keyableParentType payload) eqn:Hty.
  - destruct (g !! auth_org_id auth) as [[org| | | |]|] eqn:Horg; try done.
    simpl in Hgen. simplify_eq. split_and!.
    + by rewrite lookup_insert_ne, lookup_insert_eq by done.
    + intros i ? ?. by rewrite !lookup_insert_ne by done.
    + exists org. by rewrite lookup_insert_eq.
  - destruct (g !! auth_org_id auth) as [o|] eqn:Horg; simplify_eq; split_and!.
    + by rewrite lookup_insert_ne, lookup_insert_eq by done.
    + intros i ? ?. by rewrite !lookup_insert_ne by done.
    + by rewrite lookup_insert_eq.
    + by rewrite lookup_delete_ne, lookup_insert_eq by done.
    + intros i ? ?. by rewrite lookup_delete_ne, lookup_insert_ne by done.
    + by rewrite lookup_delete_eq.
Qed.

Lemma active_generateKey g auth now newId payload g1 new :
  generateKey g auth now newId payload = Some (g1, new) →
  newId ≠ auth_org_id auth →
  activeGeneratedEnvkeys g1 = <[newId := new]> (activeGeneratedEnvkeys g).
Proof.
  intros Hgen Hne.
  destruct (generateKey_envkey _ _ _ _ _ _ _ Hgen) as (_ & _ & _ & _ & _ & Hact).
  destruct (generateKey_lookup _ _ _ _ _ _ _ Hgen Hne) as (Hnew & Hother & Horg).
  apply map_eq; intros i. unfold activeGeneratedEnvkeys.
  destruct (decide (i = newId)) as [->|Hi].
  - rewrite lookup_insert_eq, lookup_omap, Hnew. simpl. by rewrite Hact.
  - rewrite lookup_insert_ne by done. rewrite !lookup_omap.
    destruct (decide (i = auth_org_id auth)) as [->|Hio]; [|by rewrite Hother].
    destruct (p_keyableParentType payload).
    + destruct Horg as (org & -> & ->). done.
    + by rewrite Horg.
Qed.

Lemma IdsConsistent_generateKey g auth now newId payload g1 new :
  generateKey g auth now newId payload = Some (g1, new) →
  newId ≠ auth_org_id auth →
  IdsConsistent g → IdsConsistent g1.
Proof.
  intros Hgen Hne Hids.
  destruct (generateKey_envkey _ _ _ _ _ _ _ Hgen) as (Hid & _).
  destruct (generateKey_lookup _ _ _ _ _ _ _ Hgen Hne) as (Hnew & Hother & Horg).
  intros k o Hk.
  destruct (decide (k = newId)) as [->|Hk1].
  { rewrite Hnew in Hk. by simplify_eq. }
  destruct (decide (k = auth_org_id auth)) as [->|Hk2].
  - destruct (p_keyableParentType payload).
    + destruct Horg as (org & Hg & Hg1). rewrite Hg1 in Hk. simplify_eq.
      apply (Hids _ _ Hg).
    + rewrite Horg in Hk. by apply Hids.
  - rewrite Hother in Hk by done. by apply Hids.
Qed.

(** ** The GenerateKey handler *)

Lemma GENERATE_KEY_inv actionType payload g auth now newId r :
  GENERATE_KEY_graphHandler actionType payload g auth now newId = Some r →
  ∃ g1 new,
    generateKey g auth now newId payload = Some (g1, new)
    ∧ graph r
      = match getActiveGeneratedEnvkeysByKeyableParentId g !! p_keyableParentId payload with
        | Some existing => deleteGraphObjects g1 [ge_id existing] now
        | None => g1
        end
    ∧ handlerContext r = Some (mkHandlerContext actionType (ge_id new))
    ∧ transactionItems r
      = match getActiveGeneratedEnvkeysByKeyableParentId g !! p_keyableParentId payload with
        | Some existing => Some (mkItems [mkScope ("envkey|" +:+ envkeyIdPart existing)])
        | None => None
        end
    ∧ clearEnvkeySockets r
      = match getActiveGeneratedEnvkeysByKeyableParentId g !! p_keyableParentId payload with
        | Some existing => Some [ClearEnvkeySocket (auth_org_id auth) (ge_id existing)]
        | None => None
        end.
Proof.
  unfold GENERATE_KEY_graphHandler. intros Hh.
  destruct (generateKey g auth now newId payload) as [[g1 new]|]; [|done].
  simpl in Hh.
  destruct (g !! p_keyableParentId payload ≫= asKeyableParent) as [kp|]; [|done].
  simpl in Hh.
  destruct (g !! kp_environmentId kp ≫= asEnvironment) as [env|]; [|done].
  simpl in Hh. simplify_eq. exists g1, new. by split_and!.
Qed.

(** The active envkeys after GenerateKey: the parent's previous active
    envkey, if any, leaves; the new one enters. *)
Lemma GENERATE_KEY_active actionType payload g auth now newId r :
  GENERATE_KEY_graphHandler actionType payload g auth now newId = Some r →
  Fresh g auth newId →
  IdsConsistent g →
  ∃ new,
    ge_id new = newId
    ∧ keyableParentId new = p_keyableParentId payload
    ∧ keyableParentType new = p_keyableParentType payload
    ∧ envkeyIdPart new = p_envkeyIdPart payload
    ∧ envkeyIdPartHash new = sha256 (p_envkeyIdPart payload)
    ∧ ge_deletedAt new = None
    ∧ activeGeneratedEnvkeys (graph r)
      = <[newId := new]>
          (match getActiveGeneratedEnvkeysByKeyableParentId g !! p_keyableParentId payload with
           | Some existing => delete (ge_id existing) (activeGeneratedEnvkeys g)
           | None => activeGeneratedEnvkeys g
           end)
    ∧ IdsConsistent (graph r).
Proof.
  intros (g1 & new & Hgen & Hgraph & _)%GENERATE_KEY_inv [Hfresh Hne] Hids.
  exists new.
  destruct (generateKey_envkey _ _ _ _ _ _ _ Hgen) as (? & ? & ? & ? & ? & ?).
  split_and!; try done.
  - rewrite Hgraph.
    destruct (getActiveGeneratedEnvkeysByKeyableParentId g !! p_keyableParentId payload)
      as [existing|] eqn:Hex.
    + rewrite active_deleteGraphObjects_1.
      rewrite (active_generateKey _ _ _ _ _ _ _ Hgen Hne).
      apply (index_Some_graph _ _ _ Hids) in Hex as (Hg & _).
      rewrite delete_insert_ne; [done|]. intros <-. congruence.
    + by apply (active_generateKey _ _ _ _ _ _ _ Hgen Hne).
  - rewrite Hgraph.
    pose proof (IdsConsistent_generateKey _ _ _ _ _ _ _ Hgen Hne Hids).
    destruct (getActiveGeneratedEnvkeysByKeyableParentId g !! p_keyableParentId payload);
      [by apply IdsConsistent_deleteGraphObjects | done].
Qed.

Lemma fresh_not_active (g : OrgGraph) i :
  g !! i = None → activeGeneratedEnvkeys g !! i = None.
Proof. intros Hi. unfold activeGeneratedEnvkeys. by rewrite lookup_omap, Hi. Qed.

Lemma GENERATE_KEY_WellFormed actionType payload g auth now newId r :
  GENERATE_KEY_graphHandler actionType payload g auth now newId = Some r →
  Fresh g auth newId →
  WellFormed g → WellFormed (graph r).
Proof.
  intros Hh Hfresh [Hids Hone].
  destruct (GENERATE_KEY_active _ _ _ _ _ _ _ Hh Hfresh Hids)
    as (new & _ & Hkp & _ & _ & _ & _ & Hact & Hids').
  split; [done|]. unfold OnePerParent. rewrite Hact.
  destruct (getActiveGeneratedEnvkeysByKeyableParentId g !! p_keyableParentId payload)
    as [existing|] eqn:Hex.
  - apply OnePerParentMap_insert; [by apply OnePerParentMap_delete|].
    intros i x _ [Hik Hi]%lookup_delete_Some Heq.
    apply index_lookup_inv in Hex as (k & Hk & Hkk).
    pose proof Hk as Hk'. apply active_lookup_Some in Hk' as [Hk' _].
    apply Hids in Hk'. simpl in Hk'. subst k.
    apply Hik. eapply Hone; [exact Hk | exact Hi | congruence].
  - apply OnePerParentMap_insert; [done|].
    intros i x _ Hi Heq.
    pose proof (proj1 (index_lookup_None _ _) Hex i x Hi). congruence.
Qed.


(** ** The keyable-parent nodes are left as they are *)

Lemma keyableParentTypeAt_deleteGraphObjects (g : OrgGraph) ids now k :
  keyableParentTypeAt (deleteGraphObjects g ids now) k = keyableParentTypeAt g k.
Proof.
  unfold keyableParentTypeAt. rewrite lookup_deleteGraphObjects.
  case_decide; by destruct (g !! k) as [[| | | |]|].
Qed.

Lemma keyableParentTypeAt_generateKey g auth now newId payload g1 new k :
  generateKey g auth now newId payload = Some (g1, new) →
  Fresh g auth newId →
  keyableParentTypeAt g1 k = keyableParentTypeAt g k.
Proof.
  intros Hgen [Hfresh Hne].
  destruct (generateKey_lookup _ _ _ _ _ _ _ Hgen Hne) as (Hnew & Hother & Horg).
  unfold keyableParentTypeAt.
  destruct (decide (k = newId)) as [->|Hk]; [by rewrite Hnew, Hfresh|].
  destruct (decide (k = auth_org_id auth)) as [->|Hko]; [|by rewrite Hother].
  destruct (p_keyableParentType payload).
  - by destruct Horg as (org & -> & ->).
  - by rewrite Horg.
Qed.

Lemma keyableParentTypeAt_GENERATE_KEY actionType payload g auth now newId r k :
  GENERATE_KEY_graphHandler actionType payload g auth now newId = Some r →
  Fresh g auth newId →
  keyableParentTypeAt (graph r) k = keyableParentTypeAt g k.
Proof.
  intros (g1 & new & Hgen & -> & _)%GENERATE_KEY_inv Hfresh.
  destruct (getActiveGeneratedEnvkeysByKeyableParentId g !! p_keyableParentId payload);
    [rewrite keyableParentTypeAt_deleteGraphObjects|];
    by eapply keyableParentTypeAt_generateKey.
Qed.

(** The server-bound envkeys of a graph, read with the parent types of
    another graph that has the same ones. *)
Lemma activeServerEnvkeys_ext (g g' : OrgGraph) :
  (∀ k, keyableParentTypeAt g' k = keyableParentTypeAt g k) →
  activeServerEnvkeys g'
  = filter (λ p, keyableParentTypeAt g (keyableParentId p.2) = Some server)
      (activeGeneratedEnvkeys g').
Proof.
  intros Hsame. unfold activeServerEnvkeys. apply map_filter_ext.
  intros i x _. simpl. by rewrite Hsame.
Qed.

End HandlerFacts.

(** ** Checking the invariants on a concrete graph *)

Lemma idsConsistentb_sound (g : OrgGraph) : idsConsistentb g = true → IdsConsistent g.
Proof.
  unfold idsConsistentb. rewrite forallb_forall. intros Hall k o Hk.
  apply elem_of_map_to_list, list_elem_of_In in Hk.
  apply Hall in Hk. by apply bool_decide_eq_true in Hk.
Qed.

Lemma onePerParentb_sound (g : OrgGraph) : onePerParentb g = true → OnePerParent g.
Proof.
  unfold onePerParentb. intros Hnd%bool_decide_eq_true i j x y Hi Hj Hkp.
  apply elem_of_map_to_list in Hi, Hj.
  apply list_elem_of_lookup in Hi as [n Hn], Hj as [m Hm].
  assert (n = m) as ->.
  { eapply NoDup_lookup; [exact Hnd| |].
    - rewrite list_lookup_fmap, Hn. done.
    - rewrite list_lookup_fmap, Hm. simpl. by rewrite Hkp. }
  congruence.
Qed.

Lemma wellFormed_check (g : OrgGraph) :
  idsConsistentb g && onePerParentb g = true → WellFormed g.
Proof.
  intros [? ?]%andb_true_iff.
  split; [by apply idsConsistentb_sound | by apply onePerParentb_sound].
Qed.

Section Quota.
Context {crypto : Crypto} {graphLib : GraphLib} {authz : Authz}.

Lemma GENERATE_KEY_authorizer_server payload g userGraph auth :
  p_keyableParentType payload = server →
  GENERATE_KEY_graphAuthorizer payload g userGraph auth = true ↔
  canGenerateKey userGraph (auth_user_id auth) (p_keyableParentId payload) = true
  ∧ (maxServerEnvkeys (auth_license auth) = -1
     ∨ numActive g
       - (if getActiveGeneratedEnvkeysByKeyableParentId g !! p_keyableParentId payload
          is Some _ then 1 else 0)
       < maxServerEnvkeys (auth_license auth)).
Proof.
  intros Hty. unfold GENERATE_KEY_graphAuthorizer. rewrite Hty.
  destruct (maxServerEnvkeys (auth_license auth) =? -1) eqn:Hmax; simpl.
  - apply Z.eqb_eq in Hmax. split; [by auto | by intros [? _]].
  - apply Z.eqb_neq in Hmax.
    destruct (_ >=? _) eqn:Hge.
    + rewrite Z.geb_le in Hge. split; [done|]. intros [_ [?|?]]; lia.
    + rewrite Z.geb_leb, Z.leb_gt in Hge. split; [by auto | by intros [? _]].
Qed.

Lemma GENERATE_KEY_authorizer_localKey payload g userGraph auth :
  p_keyableParentType payload = localKey →
  GENERATE_KEY_graphAuthorizer payload g userGraph auth
  = canGenerateKey userGraph (auth_user_id auth) (p_keyableParentId payload).
Proof. intros Hty. unfold GENERATE_KEY_graphAuthorizer. by rewrite Hty. Qed.




(** C10.  The CreateServer authorizer rejects whenever the license is
    limited and the number of entries of the parent→active-envkey index
    (which on a well-formed graph is the number of active generated envkeys
    of every keyable-parent type) has reached [license.maxServerEnvkeys];
    otherwise it is [canCreateServer]. *)
Theorem create_server_quota_gate environmentId (g : OrgGraph) userGraph auth :
  (maxServerEnvkeys (auth_license auth) ≠ -1
   ∧ maxServerEnvkeys (auth_license auth) ≤ numActive g →
   CREATE_SERVER_graphAuthorizer environmentId g userGraph auth = false)
  ∧ (¬ (maxServerEnvkeys (auth_license auth) ≠ -1
        ∧ maxServerEnvkeys (auth_license auth) ≤ numActive g) →
     CREATE_SERVER_graphAuthorizer environmentId g userGraph auth
     = canCreateServer userGraph (auth_user_id auth) environmentId)
  ∧ (OnePerParent g → numActive g = Z.of_nat (size (activeGeneratedEnvkeys g))).
Proof.
  unfold CREATE_SERVER_graphAuthorizer. split_and!.
  - intros [Hmax Hge]. apply Z.eqb_neq in Hmax. rewrite Hmax. simpl.
    apply Z.geb_le in Hge. by rewrite Hge.
  - intros Hnot.
    destruct (maxServerEnvkeys (auth_license auth) =? -1) eqn:Hmax; simpl; [done|].
    destruct (_ >=? _) eqn:Hge; [|done].
    exfalso. apply Hnot. apply Z.eqb_neq in Hmax. apply Z.geb_le in Hge. lia.
  - apply numActive_size.
Qed.

End Quota.

Section Lifecycle.
Context {crypto : Crypto} {graphLib : GraphLib} {authz : Authz}.

(** ** The RevokeKey handler *)

Lemma REVOKE_KEY_inv id g auth now r :
  REVOKE_KEY_graphHandler id g auth now = Some r →
  ∃ ge,
    g !! id = Some (GeneratedEnvkeyObj ge)
    ∧ graph r = deleteGraphObjects g [ge_id ge] now
    ∧ transactionItems r = Some (mkItems [mkScope ("envkey|" +:+ envkeyIdPart ge)])
    ∧ clearEnvkeySockets r = Some [ClearEnvkeySocket (auth_org_id auth) (ge_id ge)].
Proof.
  unfold REVOKE_KEY_graphHandler. intros Hh.
  destruct (g !! id) as [[| | |ge|]|] eqn:Hid; try done. simpl in Hh.
  destruct (g !! keyableParentId ge ≫= asKeyableParent) as [kp|]; [|done].
  simpl in Hh.
  destruct (g !! kp_environmentId kp ≫= asEnvironment) as [env|]; [|done].
  simpl in Hh. simplify_eq. by exists ge.
Qed.

Lemma REVOKE_KEY_returns id g auth now ge kp env :
  g !! id = Some (GeneratedEnvkeyObj ge) →
  g !! keyableParentId ge = Some (KeyableParentObj kp) →
  g !! kp_environmentId kp = Some (EnvironmentObj env) →
  is_Some (REVOKE_KEY_graphHandler id g auth now).
Proof.
  intros Hid Hkp Henv. unfold REVOKE_KEY_graphHandler.
  rewrite Hid. simpl. rewrite Hkp. simpl. rewrite Henv. simpl. by eexists.
Qed.

Lemma REVOKE_KEY_WellFormed id g auth now r :
  REVOKE_KEY_graphHandler id g auth now = Some r →
  WellFormed g → WellFormed (graph r).
Proof.
  intros (ge & _ & -> & _)%REVOKE_KEY_inv [Hids Hone]. split.
  - by apply IdsConsistent_deleteGraphObjects.
  - unfold OnePerParent. rewrite active_deleteGraphObjects_1.
    by apply OnePerParentMap_delete.
Qed.

Lemma LifecycleStep_WellFormed g g' :
  LifecycleStep g g' → WellFormed g → WellFormed g'.
Proof.
  intros [actionType payload auth now newId g0 r Hfresh Hh|id auth now g0 r Hh] Hwf.
  - by eapply GENERATE_KEY_WellFormed.
  - by eapply REVOKE_KEY_WellFormed.
Qed.

Lemma Lifecycle_run_WellFormed g0 g :
  rtc LifecycleStep g0 g → WellFormed g0 → WellFormed g.
Proof.
  induction 1 as [|g0 g1 g Hstep _ IH]; [done|].
  intros Hwf. apply IH. by eapply LifecycleStep_WellFormed.
Qed.

Lemma releasedServerEnvkeys_1 (g : OrgGraph) k :
  releasedServerEnvkeys g [k]
  = if from_option (activeServerEnvkey g) false (g !! k) then 1 else 0.
Proof.
  unfold releasedServerEnvkeys.
  change (remove_dups [k]) with [k].
  rewrite filter_cons, filter_nil.
  destruct (from_option (activeServerEnvkey g) false (g !! k));
    [by rewrite decide_True | by rewrite decide_False].
Qed.

Lemma GENERATE_KEY_returns actionType payload g auth now newId kp env org :
  g !! p_keyableParentId payload = Some (KeyableParentObj kp) →
  g !! kp_environmentId kp = Some (EnvironmentObj env) →
  g !! auth_org_id auth = Some (OrgObj org) →
  is_Some (GENERATE_KEY_graphHandler actionType payload g auth now newId).
Proof.
  intros Hkp Henv Horg. unfold GENERATE_KEY_graphHandler, generateKey.
  rewrite Hkp. simpl. rewrite Horg. simpl.
  destruct (p_keyableParentType payload); simpl; rewrite Henv; simpl; by eexists.
Qed.

(** C2, as amended.  GenerateKey on a keyable parent whose active envkey
    is [K1] returns a graph that holds the new envkey [K2] under the fresh
    id, carrying the payload's [envkeyIdPart] and its hash (they differ from
    [K1]'s exactly as far as the payload's value does: the handler does not
    compare them); [K1] carries the delete marker in that same graph and
    [K2] is the parent's entry in the index; the transaction items are one
    hard-delete scope, ["envkey|" + K1.envkeyIdPart]; exactly one
    envkey-socket invalidation is emitted, for [K1]'s id.  And every run of
    Generate/Regenerate/Revoke actions from a well-formed graph keeps at
    most one active envkey per keyable parent. *)
Theorem regenerate_replaces_active_envkey :
  (∀ actionType payload g auth now newId K1 kp env org,
     WellFormed g →
     Fresh g auth newId →
     g !! p_keyableParentId payload = Some (KeyableParentObj kp) →
     g !! kp_environmentId kp = Some (EnvironmentObj env) →
     g !! auth_org_id auth = Some (OrgObj org) →
     getActiveGeneratedEnvkeysByKeyableParentId g !! p_keyableParentId payload = Some K1 →
     ∃ r K2,
       GENERATE_KEY_graphHandler actionType payload g auth now newId = Some r
       ∧ graph r !! newId = Some (GeneratedEnvkeyObj K2)
       ∧ ge_id K2 = newId
       ∧ keyableParentId K2 = p_keyableParentId payload
       ∧ ge_deletedAt K2 = None
       ∧ envkeyIdPart K2 = p_envkeyIdPart payload
       ∧ envkeyIdPartHash K2 = sha256 (envkeyIdPart K2)
       ∧ (p_envkeyIdPart payload ≠ envkeyIdPart K1 → envkeyIdPart K2 ≠ envkeyIdPart K1)
       ∧ graph r !! ge_id K1 = Some (markDeleted now (GeneratedEnvkeyObj K1))
       ∧ getActiveGeneratedEnvkeysByKeyableParentId (graph r) !! p_keyableParentId payload
         = Some K2
       ∧ transactionItems r
         = Some (mkItems [mkScope ("envkey|" +:+ envkeyIdPart K1)])
       ∧ clearEnvkeySockets r
         = Some [ClearEnvkeySocket (auth_org_id auth) (ge_id K1)])
  ∧ (∀ g0 g, WellFormed g0 → rtc LifecycleStep g0 g → OnePerParent g).
Proof.
  split.
  - intros actionType payload g auth now newId K1 kp env org Hwf Hfresh Hkp Henv Horg Hex.
    destruct (GENERATE_KEY_returns actionType payload g auth now newId _ _ _ Hkp Henv Horg)
      as [r Hr].
    pose proof (GENERATE_KEY_WellFormed _ _ _ _ _ _ _ Hr Hfresh Hwf) as [_ Hone'].
    destruct (GENERATE_KEY_active _ _ _ _ _ _ _ Hr Hfresh (proj1 Hwf))
      as (K2 & Hid & Hpar & _ & Hpart & Hhash & Hact & Hactive & _).
    destruct (GENERATE_KEY_inv _ _ _ _ _ _ _ Hr)
      as (g1 & new & Hgen & Hgraph & _ & Hitems & Hsockets).
    rewrite Hex in Hgraph, Hitems, Hsockets, Hactive.
    destruct (index_Some_graph _ _ _ (proj1 Hwf) Hex) as (HK1 & _ & _).
    destruct Hfresh as [Hfresh Hne].
    assert (ge_id K1 ≠ newId) as Hk1 by (intros Heq; congruence).
    assert (ge_id K1 ≠ auth_org_id auth) as Hk1o by (intros Heq; congruence).
    assert (activeGeneratedEnvkeys (graph r) !! newId = Some K2) as HK2
      by (rewrite Hactive; apply lookup_insert_eq).
    exists r, K2. split_and!; try done.
    + by apply active_lookup_Some in HK2 as [? _].
    + by rewrite Hpart.
    + by rewrite Hpart.
    + destruct (generateKey_lookup _ _ _ _ _ _ _ Hgen Hne) as (_ & Hother & _).
      rewrite Hgraph, lookup_deleteGraphObjects.
      rewrite decide_True by apply list_elem_of_here.
      rewrite Hother, HK1 by done. done.
    + rewrite <- Hpar. apply index_lookup; [done|]. by exists newId.
  - intros g0 g Hwf Hrun. by destruct (Lifecycle_run_WellFormed _ _ Hrun Hwf).
Qed.

(** C3.  RevokeKey on an active generated envkey returns: a graph in which
    that node carries the delete marker and is no longer active; the blob
    hard-delete scope ["envkey|" + envkeyIdPart]; the org node with its
    active-server-envkey counter one lower when the credential is
    server-bound, that is, when its keyable parent is of type Server
    (unchanged otherwise, whatever type the envkey itself declares); and one
    envkey-socket invalidation, for that envkey's id. *)
Theorem revoke_key_result id (g : OrgGraph) auth now ge kp env org :
  IdsConsistent g →
  g !! id = Some (GeneratedEnvkeyObj ge) →
  ge_deletedAt ge = None →
  g !! keyableParentId ge = Some (KeyableParentObj kp) →
  g !! kp_environmentId kp = Some (EnvironmentObj env) →
  g !! auth_org_id auth = Some (OrgObj org) →
  ∃ r,
    REVOKE_KEY_graphHandler id g auth now = Some r
    ∧ graph r !! id = Some (markDeleted now (GeneratedEnvkeyObj ge))
    ∧ activeGeneratedEnvkeys (graph r) !! id = None
    ∧ transactionItems r = Some (mkItems [mkScope ("envkey|" +:+ envkeyIdPart ge)])
    ∧ clearEnvkeySockets r = Some [ClearEnvkeySocket (auth_org_id auth) id]
    ∧ graph r !! auth_org_id auth
      = Some (OrgObj (mkOrg (org_id org)
                        (serverEnvkeyCount org
                         - (if bool_decide (kp_type kp = server) then 1 else 0))
                        (org_updatedAt org) (org_deletedAt org))).
Proof.
  intros Hids Hid Hact Hkp Henv Horg.
  destruct (REVOKE_KEY_returns id g auth now _ _ _ Hid Hkp Henv) as [r Hr].
  destruct (REVOKE_KEY_inv _ _ _ _ _ Hr) as (ge' & Hid' & Hgraph & Hitems & Hsockets).
  assert (ge' = ge) as -> by congruence. clear Hid'.
  assert (ge_id ge = id) as Hgid by apply (Hids _ _ Hid).
  rewrite Hgid in *.
  exists r. split_and!; try done.
  - rewrite Hgraph, lookup_deleteGraphObjects.
    rewrite decide_True by apply list_elem_of_here. by rewrite Hid.
  - rewrite Hgraph, active_deleteGraphObjects.
    by rewrite decide_True by apply list_elem_of_here.
  - rewrite Hgraph, lookup_deleteGraphObjects.
    rewrite decide_False by (rewrite list_elem_of_singleton; intros Heq; congruence).
    rewrite Horg, releasedServerEnvkeys_1, Hid. simpl.
    unfold activeServerEnvkey, keyableParentTypeAt. simpl. rewrite Hact, Hkp. simpl.
    assert (bool_decide (Some (kp_type kp) = Some server)
            = bool_decide (kp_type kp = server)) as ->
      by (apply bool_decide_ext; split; congruence).
    done.
Qed.

(** C4.  DeleteServer and DeleteLocalKey: when the keyable parent has an
    active generated envkey, the returned graph has that node carrying the
    delete marker and no longer active, and the same result carries the
    blob hard-delete scope ["envkey|" + envkeyIdPart] and one envkey-socket
    invalidation for the envkey's id; when it has none, the result carries
    no transaction items and no socket invalidations. *)
Theorem delete_keyable_parent_cascades id (g : OrgGraph) auth now kp env :
  IdsConsistent g →
  g !! id = Some (KeyableParentObj kp) →
  g !! kp_environmentId kp = Some (EnvironmentObj env) →
  ∀ handler,
    handler = DELETE_SERVER_graphHandler ∨ handler = DELETE_LOCAL_KEY_graphHandler →
    ∃ r,
      handler id g auth now = Some r
      ∧ match getActiveGeneratedEnvkeysByKeyableParentId g !! id with
        | Some ge =>
            graph r !! ge_id ge = Some (markDeleted now (GeneratedEnvkeyObj ge))
            ∧ activeGeneratedEnvkeys (graph r) !! ge_id ge = None
            ∧ transactionItems r
              = Some (mkItems [mkScope ("envkey|" +:+ envkeyIdPart ge)])
            ∧ clearEnvkeySockets r
              = Some [ClearEnvkeySocket (auth_org_id auth) (ge_id ge)]
        | None => transactionItems r = None ∧ clearEnvkeySockets r = None
        end.
Proof.
  intros Hids Hid Henv handler Hhandler.
  assert (kp_id kp = id) as Hkid by apply (Hids _ _ Hid).
  assert (∃ r, handler id g auth now = Some r
               ∧ graph r = getDeleteKeyableParentProducer id now g
               ∧ transactionItems r
                 = match getActiveGeneratedEnvkeysByKeyableParentId g !! id with
                   | Some ge => Some (mkItems [mkScope ("envkey|" +:+ envkeyIdPart ge)])
                   | None => None
                   end
               ∧ clearEnvkeySockets r
                 = match getActiveGeneratedEnvkeysByKeyableParentId g !! id with
                   | Some ge => Some [ClearEnvkeySocket (auth_org_id auth) (ge_id ge)]
                   | None => None
                   end) as (r & Hr & Hgraph & Hitems & Hsockets).
  { destruct Hhandler as [-> | ->];
      unfold DELETE_SERVER_graphHandler, DELETE_LOCAL_KEY_graphHandler;
      rewrite Hid; simpl; rewrite Henv; simpl; rewrite Hkid;
      eexists; split_and!; done. }
  exists r. split; [done|].
  unfold getDeleteKeyableParentProducer in Hgraph.
  destruct (getActiveGeneratedEnvkeysByKeyableParentId g !! id) as [ge|] eqn:Hex; [|done].
  destruct (index_Some_graph _ _ _ Hids Hex) as (Hge & _ & _).
  split_and!; try done.
  - rewrite Hgraph, lookup_deleteGraphObjects.
    rewrite decide_True by (apply list_elem_of_further, list_elem_of_here).
    by rewrite Hge.
  - rewrite Hgraph, active_deleteGraphObjects.
    by rewrite decide_True by (apply list_elem_of_further, list_elem_of_here).
Qed.

(** ** The org counter follows issuance and revocation *)

Lemma serverCount_insert (P : string * GeneratedEnvkey → Prop)
    `{!∀ x, Decision (P x)} (a : gmap string GeneratedEnvkey) n new :
  a !! n = None →
  size (filter P (<[n := new]> a))
  = (size (filter P a) + (if bool_decide (P (n, new)) then 1 else 0))%nat.
Proof.
  intros Hn. case_bool_decide as Hty.
  - rewrite map_filter_insert_True by done.
    rewrite map_size_insert_None by (apply map_lookup_filter_None_2; by left). lia.
  - rewrite map_filter_insert_not' by (done || by rewrite Hn). lia.
Qed.

Lemma serverCount_delete (P : string * GeneratedEnvkey → Prop)
    `{!∀ x, Decision (P x)} (a : gmap string GeneratedEnvkey) k x :
  a !! k = Some x →
  (size (filter P (delete k a)) + (if bool_decide (P (k, x)) then 1 else 0))%nat
  = size (filter P a).
Proof.
  intros Hk. rewrite map_filter_delete, map_size_delete. case_bool_decide as Hty.
  - rewrite (map_lookup_filter_Some_2 _ _ _ _ Hk) by done.
    assert (size (filter P a) ≠ 0%nat).
    { apply map_size_non_empty_iff. intros Hempty.
      pose proof (map_lookup_filter_Some_2 P _ _ _ Hk Hty) as Hin.
      by rewrite Hempty in Hin. }
    lia.
  - rewrite (proj2 (map_lookup_filter_None _ _ _)); [simpl; lia|].
    right. intros y Hy. by simplify_eq.
Qed.

Lemma activeServerEnvkey_active (g0 g : OrgGraph) k x :
  activeGeneratedEnvkeys g !! k = Some x →
  from_option (activeServerEnvkey g0) false (g !! k)
  = bool_decide (keyableParentTypeAt g0 (keyableParentId x) = Some server).
Proof.
  intros [Hk Hact]%active_lookup_Some. rewrite Hk. simpl.
  unfold activeServerEnvkey. simpl. by rewrite Hact.
Qed.

(** Revocation keeps the counter equal to the number of active envkeys on
    server nodes. *)
Lemma REVOKE_KEY_counter orgId id g auth now r :
  REVOKE_KEY_graphHandler id g auth now = Some r →
  IdsConsistent g →
  CounterMatches orgId g → CounterMatches orgId (graph r).
Proof.
  intros (ge & Hid & Hgraph & _)%REVOKE_KEY_inv Hids (org & Horg & Hcount).
  assert (ge_id ge = id) as Hgid by apply (Hids _ _ Hid). rewrite Hgid in Hgraph.
  eexists. split.
  - rewrite Hgraph, lookup_deleteGraphObjects.
    rewrite decide_False by (rewrite list_elem_of_singleton; intros Heq; congruence).
    by rewrite Horg.
  - simpl. rewrite Hcount. unfold numActiveServerEnvkeys.
    rewrite (activeServerEnvkeys_ext g (graph r))
      by (intros k; rewrite Hgraph; apply keyableParentTypeAt_deleteGraphObjects).
    unfold activeServerEnvkeys.
    rewrite Hgraph, active_deleteGraphObjects_1, releasedServerEnvkeys_1.
    destruct (activeGeneratedEnvkeys g !! id) as [x|] eqn:Hact.
    + rewrite (activeServerEnvkey_active _ _ _ _ Hact).
      pose proof (serverCount_delete
                    (λ p, keyableParentTypeAt g (keyableParentId p.2) = Some server)
                    _ _ _ Hact) as Hdel.
      simpl in Hdel. case_bool_decide; lia.
    + rewrite delete_id by done.
      assert (from_option (activeServerEnvkey g) false (g !! id) = false) as ->; [|lia].
      assert (activeEnvkey (GeneratedEnvkeyObj ge) = None) as Hnone
        by (unfold activeGeneratedEnvkeys in Hact; by rewrite lookup_omap, Hid in Hact).
      rewrite Hid. cbn [from_option]. unfold activeServerEnvkey. by rewrite Hnone.
Qed.

(** So does issuance, for a payload that declares the type of its parent:
    [generateKey] raises the counter by the declared type. *)
Lemma GENERATE_KEY_counter actionType payload g auth now newId r :
  GENERATE_KEY_graphHandler actionType payload g auth now newId = Some r →
  Fresh g auth newId →
  IdsConsistent g →
  DeclaresParentType payload g →
  CounterMatches (auth_org_id auth) g → CounterMatches (auth_org_id auth) (graph r).
Proof.
  intros Hh Hfresh Hids Hdecl (org & Horg & Hcount).
  destruct (GENERATE_KEY_active _ _ _ _ _ _ _ Hh Hfresh Hids)
    as (new & _ & Hpar & _ & _ & _ & _ & Hact & _).
  pose proof (λ k, keyableParentTypeAt_GENERATE_KEY _ _ _ _ _ _ _ k Hh Hfresh) as Hsame.
  destruct (GENERATE_KEY_inv _ _ _ _ _ _ _ Hh) as (g1 & new' & Hgen & Hgraph & _).
  pose proof (λ k, keyableParentTypeAt_generateKey _ _ _ _ _ _ _ k Hgen Hfresh) as Hsame1.
  destruct Hfresh as [Hfresh Hne].
  destruct (generateKey_lookup _ _ _ _ _ _ _ Hgen Hne) as (_ & Hother & Horg1).
  pose proof (active_generateKey _ _ _ _ _ _ _ Hgen Hne) as Hact1.
  pose proof (fresh_not_active _ _ Hfresh) as Hnew.
  assert (∃ org1, g1 !! auth_org_id auth = Some (OrgObj org1)
                  ∧ serverEnvkeyCount org1
                    = serverEnvkeyCount org
                      + (if bool_decide (p_keyableParentType payload = server)
                         then 1 else 0)) as (org1 & Horg1' & Hcount1).
  { destruct (p_keyableParentType payload).
    - destruct Horg1 as (org0 & Horg0 & ->). rewrite Horg in Horg0. simplify_eq.
      eexists. split; [done|]. simpl. done.
    - rewrite Horg1, Horg. eexists. split; [done|]. simpl. lia. }
  assert (bool_decide (keyableParentTypeAt g (keyableParentId new) = Some server)
          = bool_decide (p_keyableParentType payload = server)) as Hnewty.
  { unfold DeclaresParentType in Hdecl. rewrite Hpar, Hdecl.
    apply bool_decide_ext. split; congruence. }
  unfold CounterMatches, numActiveServerEnvkeys.
  rewrite (activeServerEnvkeys_ext g (graph r)) by done.
  rewrite Hact.
  unfold numActiveServerEnvkeys, activeServerEnvkeys in Hcount.
  destruct (getActiveGeneratedEnvkeysByKeyableParentId g !! p_keyableParentId payload)
    as [existing|] eqn:Hex.
  - destruct (index_Some_graph _ _ _ Hids Hex) as (HK1 & HK1act & _).
    assert (activeGeneratedEnvkeys g !! ge_id existing = Some existing) as HA
      by by apply active_lookup_Some.
    assert (ge_id existing ≠ newId) as Hk1 by (intros Heq; congruence).
    assert (ge_id existing ≠ auth_org_id auth) as Hk1o by (intros Heq; congruence).
    eexists. split.
    + rewrite Hgraph, lookup_deleteGraphObjects.
      rewrite decide_False by (rewrite list_elem_of_singleton; intros Heq; congruence).
      by rewrite Horg1'.
    + simpl. rewrite releasedServerEnvkeys_1.
      assert (activeGeneratedEnvkeys g1 !! ge_id existing = Some existing) as HA1
        by (rewrite Hact1, lookup_insert_ne by done; exact HA).
      rewrite (activeServerEnvkey_active _ _ _ _ HA1), Hsame1.
      rewrite serverCount_insert by (rewrite lookup_delete_ne by done; exact Hnew).
      pose proof (serverCount_delete
                    (λ p, keyableParentTypeAt g (keyableParentId p.2) = Some server)
                    _ _ _ HA) as Hdel.
      simpl in Hdel. simpl. rewrite Hnewty, Hcount1, Hcount.
      repeat case_bool_decide; lia.
  - eexists. split; [by rewrite Hgraph|].
    rewrite serverCount_insert by done.
    simpl. rewrite Hnewty, Hcount1, Hcount. repeat case_bool_decide; lia.
Qed.

End Lifecycle.

(** ** The theorems at concrete inputs *)



Lemma create_server_quota_gate_witness :
  @CREATE_SERVER_graphAuthorizer permissiveAuthz "env1" localKeyGraph tt (authWithLimit 1)
  = false
  ∧ @CREATE_SERVER_graphAuthorizer permissiveAuthz "env1" emptyOrgGraph tt (authWithLimit 1)
    = true
  ∧ numActive localKeyGraph = 1.
Proof.
  split_and!.
  - apply (proj1 (@create_server_quota_gate permissiveAuthz "env1" localKeyGraph tt
                    (authWithLimit 1))).
    split; [done | by vm_compute].
  - apply (proj1 (proj2 (@create_server_quota_gate permissiveAuthz "env1" emptyOrgGraph tt
                           (authWithLimit 1)))).
    intros [_ Hle]. by vm_compute in Hle.
  - rewrite (proj2 (proj2 (@create_server_quota_gate permissiveAuthz "env1" localKeyGraph tt
                             (authWithLimit 1)))).
    + vm_compute. reflexivity.
    + apply onePerParentb_sound. vm_compute. reflexivity.
Defined.

Lemma regenerate_replaces_active_envkey_witness :
  (∃ r K2,
     @GENERATE_KEY_graphHandler tagCrypto plainGraphLib "GenerateKey"
       (payloadFor srv1 "part02") serverKeyGraph (authWithLimit 1) 5 "k2" = Some r
     ∧ graph r !! "k2" = Some (GeneratedEnvkeyObj K2)
     ∧ envkeyIdPart K2 = "part02"
     ∧ graph r !! "k1"
       = Some (markDeleted 5 (GeneratedEnvkeyObj (envkeyOf "k1" "part01" srv1)))
     ∧ transactionItems r = Some (mkItems [mkScope "envkey|part01"])
     ∧ clearEnvkeySockets r = Some [ClearEnvkeySocket "org1" "k1"])
  ∧ (∃ r,
       @REVOKE_KEY_graphHandler plainGraphLib "k1" serverKeyGraph (authWithLimit 1) 7 = Some r
       ∧ OnePerParent (graph r)).
Proof.
  assert (WellFormed serverKeyGraph) as Hwf
    by (apply wellFormed_check; vm_compute; reflexivity).
  split.
  - destruct (proj1 (@regenerate_replaces_active_envkey tagCrypto plainGraphLib)
                "GenerateKey" (payloadFor srv1 "part02") serverKeyGraph (authWithLimit 1)
                5 "k2" (envkeyOf "k1" "part01" srv1) srv1 env1 (mkOrg "org1" 1 0 None))
      as (r & K2 & Hr & HK2 & _ & _ & _ & Hpart & _ & _ & HK1 & _ & Hitems & Hsockets).
    + exact Hwf.
    + split; [vm_compute; reflexivity | done].
    + vm_compute. reflexivity.
    + vm_compute. reflexivity.
    + vm_compute. reflexivity.
    + vm_compute. reflexivity.
    + exists r, K2. by split_and!.
  - eexists. split; [vm_compute; reflexivity|].
    match goal with
    | |- OnePerParent (graph ?r) =>
        apply (proj2 (@regenerate_replaces_active_envkey tagCrypto plainGraphLib)
                 serverKeyGraph (graph r) Hwf),
          rtc_once,
          (@lifecycle_revoke tagCrypto plainGraphLib "k1" (authWithLimit 1) 7
             serverKeyGraph r)
    end.
    vm_compute. reflexivity.
Defined.

(** C2 as stated fails: the handler takes [envkeyIdPart] from the payload
    as it comes; a payload that repeats [K1]'s value yields a [K2] with the
    same [envkeyIdPart] and the same hash. *)
Lemma regenerate_can_repeat_envkeyIdPart :
  ∃ r K1 K2,
    getActiveGeneratedEnvkeysByKeyableParentId serverKeyGraph !! "srv1" = Some K1
    ∧ Fresh serverKeyGraph (authWithLimit 1) "k2"
    ∧ @GENERATE_KEY_graphHandler tagCrypto plainGraphLib "GenerateKey"
        (payloadFor srv1 "part01") serverKeyGraph (authWithLimit 1) 5 "k2" = Some r
    ∧ graph r !! "k2" = Some (GeneratedEnvkeyObj K2)
    ∧ envkeyIdPart K2 = envkeyIdPart K1
    ∧ envkeyIdPartHash K2 = envkeyIdPartHash K1.
Proof.
  eexists _, _, _. split_and!.
  - vm_compute. reflexivity.
  - split; [vm_compute; reflexivity | done].
  - vm_compute. reflexivity.
  - vm_compute. reflexivity.
  - reflexivity.
  - reflexivity.
Qed.

Lemma revoke_key_result_witness :
  ∃ r,
    @REVOKE_KEY_graphHandler plainGraphLib "k1" serverKeyGraph (authWithLimit 1) 7 = Some r
    ∧ graph r !! "k1"
      = Some (markDeleted 7 (GeneratedEnvkeyObj (envkeyOf "k1" "part01" srv1)))
    ∧ transactionItems r = Some (mkItems [mkScope "envkey|part01"])
    ∧ clearEnvkeySockets r = Some [ClearEnvkeySocket "org1" "k1"]
    ∧ graph r !! "org1" = Some (OrgObj (mkOrg "org1" 0 0 None)).
Proof.
  destruct (@revoke_key_result plainGraphLib "k1" serverKeyGraph (authWithLimit 1) 7
              (envkeyOf "k1" "part01" srv1) srv1 env1 (mkOrg "org1" 1 0 None))
    as (r & Hr & Hk1 & _ & Hitems & Hsockets & Horg).
  - apply idsConsistentb_sound. vm_compute. reflexivity.
  - vm_compute. reflexivity.
  - reflexivity.
  - vm_compute. reflexivity.
  - vm_compute. reflexivity.
  - vm_compute. reflexivity.
  - exists r. by split_and!.
Defined.

Lemma delete_keyable_parent_cascades_witness :
  (∃ r,
     @DELETE_SERVER_graphHandler plainGraphLib "srv1" serverKeyGraph (authWithLimit 1) 7
     = Some r
     ∧ graph r !! "k1"
       = Some (markDeleted 7 (GeneratedEnvkeyObj (envkeyOf "k1" "part01" srv1)))
     ∧ transactionItems r = Some (mkItems [mkScope "envkey|part01"])
     ∧ clearEnvkeySockets r = Some [ClearEnvkeySocket "org1" "k1"])
  ∧ (∃ r,
       DELETE_LOCAL_KEY_graphHandler "lk1" serverKeyGraph (authWithLimit 1) 7
       = Some r
       ∧ transactionItems r = None
       ∧ clearEnvkeySockets r = None).
Proof.
  assert (IdsConsistent serverKeyGraph) as Hids
    by (apply idsConsistentb_sound; vm_compute; reflexivity).
  split.
  - destruct (@delete_keyable_parent_cascades plainGraphLib "srv1" serverKeyGraph
                (authWithLimit 1) 7 srv1 env1 Hids eq_refl eq_refl
                DELETE_SERVER_graphHandler (or_introl eq_refl))
      as (r & Hr & Hcase).
    assert (getActiveGeneratedEnvkeysByKeyableParentId serverKeyGraph !! "srv1"
            = Some (envkeyOf "k1" "part01" srv1)) as Hex by (vm_compute; reflexivity).
    rewrite Hex in Hcase. destruct Hcase as (Hk1 & _ & Hitems & Hsockets).
    exists r. by split_and!.
  - destruct (@delete_keyable_parent_cascades plainGraphLib "lk1" serverKeyGraph
                (authWithLimit 1) 7 lk1 env1 Hids eq_refl eq_refl
                DELETE_LOCAL_KEY_graphHandler (or_intror eq_refl))
      as (r & Hr & Hcase).
    assert (getActiveGeneratedEnvkeysByKeyableParentId serverKeyGraph !! "lk1" = None)
      as Hex by (vm_compute; reflexivity).
    rewrite Hex in Hcase. destruct Hcase as (Hitems & Hsockets).
    exists r. by split_and!.
Defined.

End ApiFacts.

Module CoreProcessFacts.
Import CoreProcess.

Section ServerFacts.
Context {rt : Runtime}.

Lemma lockoutIfNeeded_locked now (st : ServerState ProcState) :
  isLocked st = true → lockoutIfNeeded now st = (st, []).
Proof. unfold lockoutIfNeeded. by intros ->. Qed.

Lemma lockGate_locked_other (action : Action) (st : ServerState ProcState) :
  isLocked st = true →
  action_type action ≠ UNLOCK_DEVICE →
  action_type action ≠ LOAD_RECOVERY_KEY →
  lockGate action st = inl (403, ErrorBody lockedMsg).
Proof.
  intros Hlocked Hunlock Hload. unfold lockGate. rewrite Hlocked.
  by destruct (action_type action).
Qed.

(** C5, as amended.  While the device is locked, an authenticated POST to
    /action carrying an action and a context is answered 403 with the
    "locked" error, with the process state as it was and no effect issued,
    for every action type other than UNLOCK_DEVICE, LOAD_RECOVERY_KEY and
    OPEN_URL; an OPEN_URL action is answered by the shortcut ahead of the
    lock check, which opens the url and leaves the process state as it
    was. *)
Theorem locked_gate now (req : Request) (st : ServerState ProcState) action context :
  isLocked st = true →
  req_method req = POST →
  req_route req = RouteAction →
  authenticateUserAgent (req_userAgent req) st = Some true →
  req_action req = Some action →
  req_context req = Some context →
  (action_type action ≠ OPEN_URL →
   action_type action ≠ UNLOCK_DEVICE →
   action_type action ≠ LOAD_RECOVERY_KEY →
   handleRequest now req st = mkOutcome 403 (ErrorBody lockedMsg) st [])
  ∧ (action_type action = OPEN_URL →
     handleRequest now req st
     = mkOutcome 301 SuccessBody st [OpenedUrl (action_payload action)]).
Proof.
  intros Hlocked Hmethod Hroute Hauth Haction Hcontext.
  unfold handleRequest, route. rewrite Hmethod, Hroute, Hauth.
  cbn [servedByGet sentBody].
  rewrite (lockoutIfNeeded_locked _ _ Hlocked).
  unfold actionHandler. rewrite Haction, Hcontext.
  split.
  - intros Hopen Hunlock Hload.
    rewrite decide_False by done.
    by rewrite (lockGate_locked_other _ _ Hlocked Hunlock Hload).
  - intros Hopen. by rewrite decide_True by done.
Qed.

(** C6, as amended.  A request other than a GET or HEAD of /alive or /stop
    whose user-agent does not authenticate gets no further than
    [authMiddleware]: the process state is as it was and no effect is
    issued; the answer is 401 "Unauthorized" when the check returns false
    and the 500 of the error handler when it throws (either without its
    body when the request is a HEAD). *)
Theorem unauthenticated_requests_rejected now (req : Request) (st : ServerState ProcState) :
  ¬ (servedByGet (req_method req) = true ∧ req_route req = RouteAlive) →
  ¬ (servedByGet (req_method req) = true ∧ req_route req = RouteStop) →
  authenticateUserAgent (req_userAgent req) st ≠ Some true →
  after (handleRequest now req st) = st
  ∧ effects (handleRequest now req st) = []
  ∧ (authenticateUserAgent (req_userAgent req) st = Some false →
     status (handleRequest now req st) = 401
     ∧ body (handleRequest now req st)
       = sentBody (req_method req) (ErrorBody "Unauthorized"))
  ∧ (authenticateUserAgent (req_userAgent req) st = None →
     status (handleRequest now req st) = 500
     ∧ body (handleRequest now req st) = sentBody (req_method req) UnhandledErrorBody).
Proof.
  intros Halive Hstop Hauth. unfold handleRequest, route.
  destruct (servedByGet (req_method req)) eqn:Hm, (req_route req) eqn:Hr;
    try (exfalso; apply Halive; by split);
    try (exfalso; apply Hstop; by split);
    (destruct (authenticateUserAgent (req_userAgent req) st) as [[|]|];
     [done | | ]; simpl; repeat split; done).
Qed.

Section Diffs.
Context {rfc : Rfc6902 rt}.

(** C7, as amended.  On the dispatch path of the /action handler, that is
    for every request with an action and a context whose action is not
    OPEN_URL, passes the lock check (on an unlocked process anything but
    UNLOCK_DEVICE; on a locked one UNLOCK_DEVICE or LOAD_RECOVERY_KEY once
    unlocking or re-initialising has succeeded), finds a store and is not
    LOCK_DEVICE, the response is 200 and its [diffs] is the patch created
    from a base state to the state of the dispatch result, so applying it to
    that base gives that state.  The base is the state captured before
    dispatch when no socket update is sent; when one is sent, the base is
    the state captured right after [dispatch] returned its promise, the
    sockets got the patch from the state before dispatch to that one, and
    the two patches applied in order take the state before dispatch to the
    state of the result. *)
Theorem action_diffs_forward_patch now (req : Request) (st : ServerState ProcState)
    action context st1 store :
  req_action req = Some action →
  req_context req = Some context →
  action_type action ≠ OPEN_URL →
  lockGate action st = inr st1 →
  reduxStore st1 = Some store →
  action_type action ≠ LOCK_DEVICE →
  let initialClientState := getState store context in
  let afterDispatchClientState := getState (dispatchStart action context store) context in
  let dispatchRes := (dispatchFinish action context (dispatchStart action context store)).1 in
  let out := actionHandler now req st in
  ∃ diffs,
    status out = 200
    ∧ body out = ActionBody dispatchRes.1.1 dispatchRes.2 diffs
    ∧ if shouldSendSocketUpdate (getActionParams (action_type action))
      then
        diffs = createPatch afterDispatchClientState dispatchRes.1.2
        ∧ applyPatch afterDispatchClientState diffs = dispatchRes.1.2
        ∧ LocalSocketUpdate (Diffs (createPatch initialClientState afterDispatchClientState))
          ∈ effects out
        ∧ applyPatch
            (applyPatch initialClientState
               (createPatch initialClientState afterDispatchClientState))
            diffs
          = dispatchRes.1.2
      else
        diffs = createPatch initialClientState dispatchRes.1.2
        ∧ applyPatch initialClientState diffs = dispatchRes.1.2.
Proof.
  intros Haction Hcontext Hopen Hgate Hstore Hlock. simpl.
  unfold actionHandler. rewrite Haction, Hcontext.
  rewrite decide_False by done.
  rewrite Hgate, Hstore. rewrite decide_False by done.
  destruct (dispatchFinish action context (dispatchStart action context store))
    as [[[success state] rest] store'] eqn:Hfinish.
  destruct (resolveLockoutTimer now _) as [st' eff] eqn:Htimer.
  simpl.
  destruct (shouldSendSocketUpdate (getActionParams (action_type action))) eqn:Hsend.
  - eexists. split_and!; try done.
    + apply applyPatch_createPatch.
    + apply list_elem_of_further, list_elem_of_here.
    + by rewrite !applyPatch_createPatch.
  - eexists. split_and!; try done. apply applyPatch_createPatch.
Qed.

End Diffs.

End ServerFacts.

(** ** The theorems at concrete inputs *)

Lemma locked_gate_witness :
  handleRequest 0
    (actionRequest (Some validUserAgent) (mkAction (OTHER_ACTION "envkey/client/CREATE_APP") ""))
    lockedState
  = mkOutcome 403 (ErrorBody lockedMsg) lockedState [].
Proof.
  apply (@locked_gate flatRuntime 0
           (actionRequest (Some validUserAgent)
              (mkAction (OTHER_ACTION "envkey/client/CREATE_APP") ""))
           lockedState
           (mkAction (OTHER_ACTION "envkey/client/CREATE_APP") "") tt);
    (reflexivity || done).
Defined.

(** C5 as stated fails: while locked, an OPEN_URL action is accepted. *)
Lemma locked_device_accepts_open_url :
  isLocked lockedState = true
  ∧ OPEN_URL ≠ UNLOCK_DEVICE
  ∧ OPEN_URL ≠ LOAD_RECOVERY_KEY
  ∧ handleRequest 0
      (actionRequest (Some validUserAgent) (mkAction OPEN_URL "https://example.com"))
      lockedState
    = mkOutcome 301 SuccessBody lockedState [OpenedUrl "https://example.com"].
Proof. split_and!; [reflexivity | done | done | vm_compute; reflexivity]. Qed.

Lemma unauthenticated_requests_rejected_witness :
  after (handleRequest 0 (actionRequest None (mkAction LOCK_DEVICE "")) unlockedState)
  = unlockedState
  ∧ effects (handleRequest 0 (actionRequest None (mkAction LOCK_DEVICE "")) unlockedState)
    = []
  ∧ status (handleRequest 0 (actionRequest None (mkAction LOCK_DEVICE "")) unlockedState)
    = 401.
Proof.
  destruct (@unauthenticated_requests_rejected flatRuntime 0
              (actionRequest None (mkAction LOCK_DEVICE "")) unlockedState)
    as (Hafter & Heffects & Hfalse & _).
  - by intros [? _].
  - by intros [? _].
  - done.
  - destruct (Hfalse eq_refl) as [Hstatus _]. by split_and!.
Defined.

(** C6 as stated fails: GET /stop is registered ahead of [authMiddleware];
    without any user-agent it is answered 200 and the process is signalled
    to terminate.  So is HEAD /stop, which express serves through the same
    handler. *)
Lemma stop_route_is_not_authenticated :
  authenticateUserAgent (req_userAgent stopRequest) unlockedState = Some false
  ∧ handleRequest 0 stopRequest unlockedState
    = mkOutcome 200 (TextBody "Stopping local server...") unlockedState [Killed]
  ∧ handleRequest 0 (@mkRequest flatRuntime HEAD RouteStop None None None None None)
      unlockedState
    = mkOutcome 200 EmptyBody unlockedState [Killed].
Proof. split_and!; reflexivity. Qed.

Lemma action_diffs_forward_patch_witness :
  (∃ diffs,
     body (actionHandler 0
             (actionRequest (Some validUserAgent) (mkAction (OTHER_ACTION "a") ""))
             unlockedState)
     = @ActionBody flatRuntime true tt diffs
     ∧ @applyPatch flatRuntime flatRfc6902 (1, 0) diffs = (1, 1))
  ∧ (∃ diffs,
       body (actionHandler 0
               (actionRequest (Some validUserAgent) (mkAction UNLOCK_DEVICE "passphrase"))
               lockedState)
       = @ActionBody flatRuntime true tt diffs
       ∧ @applyPatch flatRuntime flatRfc6902 (1, 0) diffs = (1, 1)).
Proof.
  split.
  - destruct (@action_diffs_forward_patch flatRuntime flatRfc6902 0
                (actionRequest (Some validUserAgent) (mkAction (OTHER_ACTION "a") ""))
                unlockedState (mkAction (OTHER_ACTION "a") "") tt unlockedState (0, 0))
      as (diffs & _ & Hbody & Hcase); try done.
    exists diffs. split; [exact Hbody|].
    simpl in Hcase. by destruct Hcase as (_ & Happly & _).
  - destruct (@action_diffs_forward_patch flatRuntime flatRfc6902 0
                (actionRequest (Some validUserAgent) (mkAction UNLOCK_DEVICE "passphrase"))
                lockedState (mkAction UNLOCK_DEVICE "passphrase") tt unlockedState (0, 0))
      as (diffs & _ & Hbody & Hcase); try done.
    exists diffs. split; [exact Hbody|].
    simpl in Hcase. by destruct Hcase as (_ & Happly & _).
Defined.

(** C7 as stated fails: for an action that sends a socket update, the
    response's [diffs] starts from the state captured after [dispatch]
    returned, so applied to the state captured before dispatch, [(0, 0)], it
    gives [(0, 1)], not the state after the action, [(1, 1)]. *)
Lemma response_diffs_do_not_start_from_initial_state :
  ∃ diffs,
    body (handleRequest 0
            (actionRequest (Some validUserAgent) (mkAction (OTHER_ACTION "a") ""))
            unlockedState)
    = @ActionBody flatRuntime true tt diffs
    ∧ @getState flatRuntime (0, 0) tt = (0, 0)
    ∧ (@dispatchFinish flatRuntime (mkAction (OTHER_ACTION "a") "") tt
         (@dispatchStart flatRuntime (mkAction (OTHER_ACTION "a") "") tt (0, 0))).1.1.2
      = (1, 1)
    ∧ @applyPatch flatRuntime flatRfc6902 (0, 0) diffs = (0, 1)
    ∧ @applyPatch flatRuntime flatRfc6902 (0, 0) diffs ≠ (1, 1).
Proof. eexists. split_and!; [vm_compute; reflexivity | done..]. Qed.

End CoreProcessFacts.

Module BlocksFacts.
Import Blocks.

Lemma mergeScopeIds_comm a b : mergeScopeIds a b = mergeScopeIds b a.
Proof.
  destruct a as [[|x]|], b as [[|y]|]; simpl; try done.
  by rewrite (comm_L (∪) x y).
Qed.

Lemma mergeScopeIds_assoc a b c :
  mergeScopeIds (mergeScopeIds a b) c = mergeScopeIds a (mergeScopeIds b c).
Proof.
  destruct a as [[|x]|], b as [[|y]|], c as [[|z]|]; simpl; try done.
  by rewrite (assoc_L (∪) x y z).
Qed.

Lemma mergeScopeIds_all_l b : mergeScopeIds (Some all) b = Some all.
Proof. done. Qed.

Lemma mergeScopeIds_None_r a : mergeScopeIds a None = a.
Proof. by destruct a as [[|x]|]. Qed.

Lemma mergeTwoAccessScopes_empty_r a :
  mergeTwoAccessScopes a (mkAccessScope None None None) = a.
Proof.
  destruct a. unfold mergeTwoAccessScopes. simpl.
  by rewrite !mergeScopeIds_None_r.
Qed.

Lemma mergeAccessScopes_two a b : mergeAccessScopes [a; b] = mergeTwoAccessScopes a b.
Proof. unfold mergeAccessScopes. simpl. by rewrite mergeTwoAccessScopes_empty_r. Qed.

(** C8.  Merging two access scopes is commutative and associative; each
    dimension of the result is the union of the two sets, and a dimension
    that is ["all"] in the first scope is ["all"] in the result whatever the
    second scope has there. *)
Theorem mergeAccessScopes_laws :
  (∀ a b, mergeAccessScopes [a; b] = mergeAccessScopes [b; a])
  ∧ (∀ a b c,
       mergeAccessScopes [mergeAccessScopes [a; b]; c]
       = mergeAccessScopes [a; mergeAccessScopes [b; c]])
  ∧ (∀ x y ux uy kx ky,
       mergeAccessScopes
         [mkAccessScope (Some (ids x)) (Some (ids ux)) (Some (ids kx));
          mkAccessScope (Some (ids y)) (Some (ids uy)) (Some (ids ky))]
       = mkAccessScope (Some (ids (x ∪ y))) (Some (ids (ux ∪ uy))) (Some (ids (kx ∪ ky))))
  ∧ (∀ a b,
       (envParentIds a = Some all → envParentIds (mergeAccessScopes [a; b]) = Some all)
       ∧ (userIds a = Some all → userIds (mergeAccessScopes [a; b]) = Some all)
       ∧ (keyableParentIds a = Some all
          → keyableParentIds (mergeAccessScopes [a; b]) = Some all)).
Proof.
  split_and!.
  - intros a b. rewrite !mergeAccessScopes_two. unfold mergeTwoAccessScopes.
    f_equal; apply mergeScopeIds_comm.
  - intros a b c. rewrite !mergeAccessScopes_two. unfold mergeTwoAccessScopes. simpl.
    f_equal; apply mergeScopeIds_assoc.
  - intros. by rewrite mergeAccessScopes_two.
  - intros a b. rewrite mergeAccessScopes_two. simpl.
    split_and!; intros ->; apply mergeScopeIds_all_l.
Qed.

(** C9.  DisconnectBlock: the proposed graph no longer has the connection
    node of the payload's id and has every other node as before; the
    encrypted-keys scope is exactly the connection's [appId] and [blockId]
    as [envParentIds], with [userIds] and [keyableParentIds] both ["all"];
    and the two ids, naming an app and a block, are two elements. *)
Theorem disconnect_block_scope (graph : UserGraph) id c :
  graph !! id = Some (AppBlockObj c) →
  DISCONNECT_BLOCK_graphProposer id graph !! id = None
  ∧ (∀ j, j ≠ id → DISCONNECT_BLOCK_graphProposer id graph !! j = graph !! j)
  ∧ DISCONNECT_BLOCK_encryptedKeysScopeFn graph id
    = Some (mkAccessScope (Some (ids {[appId c; blockId c]})) (Some all) (Some all))
  ∧ (isApp <$> graph !! appId c = Some true →
     isBlock <$> graph !! blockId c = Some true →
     size ({[appId c; blockId c]} : gset string) = 2%nat).
Proof.
  intros Hid. unfold DISCONNECT_BLOCK_graphProposer, deleteProposer. split_and!.
  - apply lookup_delete_eq.
  - intros j Hj. by apply lookup_delete_ne.
  - unfold DISCONNECT_BLOCK_encryptedKeysScopeFn. by rewrite Hid.
  - intros Happ Hblock.
    assert (appId c ≠ blockId c) as Hne.
    { intros Heq. rewrite Heq in Happ.
      destruct (graph !! blockId c) as [[]|]; simpl in *; congruence. }
    rewrite size_union by set_solver. by rewrite !size_singleton.
Qed.

Lemma mergeAccessScopes_laws_witness :
  userIds
    (mergeAccessScopes
       [mkAccessScope None (Some all) (Some all); mkAccessScope (Some (ids {["app1"]})) None None])
  = Some all.
Proof.
  apply (proj1 (proj2 (proj2 (proj2 (proj2 mergeAccessScopes_laws))
                         (mkAccessScope None (Some all) (Some all))
                         (mkAccessScope (Some (ids {["app1"]})) None None)))).
  reflexivity.
Defined.

Lemma disconnect_block_scope_witness :
  DISCONNECT_BLOCK_graphProposer "app1|block1" connectedGraph !! "app1|block1" = None
  ∧ DISCONNECT_BLOCK_encryptedKeysScopeFn connectedGraph "app1|block1"
    = Some (mkAccessScope (Some (ids {["app1"; "block1"]})) (Some all) (Some all))
  ∧ size ({["app1"; "block1"]} : gset string) = 2%nat.
Proof.
  destruct (disconnect_block_scope connectedGraph "app1|block1"
              (mkAppBlock "app1|block1" "app1" "block1" 0))
    as (Hgone & _ & Hscope & Hsize).
  - vm_compute. reflexivity.
  - split_and!; [exact Hgone | exact Hscope | apply Hsize; vm_compute; reflexivity].
Defined.

End BlocksFacts.

(** * Further properties of keyable_parents.ts *)

Module ApiCoverage.
Import Api ApiFacts.

(** ** The typed projections *)

Lemma asKeyableParent_Some o kp : asKeyableParent o = Some kp → o = KeyableParentObj kp.
Proof. destruct o; simpl; congruence. Qed.

Lemma asEnvironment_Some o env : asEnvironment o = Some env → o = EnvironmentObj env.
Proof. destruct o; simpl; congruence. Qed.

Lemma asOrg_Some o org : asOrg o = Some org → o = OrgObj org.
Proof. destruct o; simpl; congruence. Qed.

Lemma asGeneratedEnvkey_Some o ge :
  asGeneratedEnvkey o = Some ge → o = GeneratedEnvkeyObj ge.
Proof. destruct o; simpl; congruence. Qed.

(** ** [substr(0, n)] *)

Lemma substring_0_length n s :
  String.length (String.substring 0 n s) = Nat.min n (String.length s).
Proof.
  revert n. induction s as [|c s IH]; intros [|n]; simpl; try done.
  by rewrite IH.
Qed.

Lemma substring_0_prefix n s : String.prefix (String.substring 0 n s) s = true.
Proof.
  revert n. induction s as [|c s IH]; intros [|n]; simpl; try done.
  destruct (Ascii.ascii_dec c c); [apply IH | done].
Qed.

Lemma substring_0_all n s :
  (String.length s ≤ n)%nat → String.substring 0 n s = s.
Proof.
  revert n. induction s as [|c s IH]; intros [|n] Hle; simpl in *; try done; try lia.
  f_equal. apply IH. lia.
Qed.

Section Issue.
Context {crypto : Crypto} {graphLib : GraphLib} {authz : Authz}.

(** What [generateKey] writes: the new envkey under the fresh id, the org
    node with its counter one higher and [updatedAt = now] for a server-type
    payload and untouched for a local-key payload; every other node is as it
    was. *)
Theorem generateKey_writes g auth now newId payload g1 new :
  generateKey g auth now newId payload = Some (g1, new) →
  newId ≠ auth_org_id auth →
  g1 !! newId = Some (GeneratedEnvkeyObj new)
  ∧ ge_id new = newId
  ∧ (∀ i, i ≠ newId → i ≠ auth_org_id auth → g1 !! i = g !! i)
  ∧ (p_keyableParentType payload = server →
     ∃ org, g !! auth_org_id auth = Some (OrgObj org)
            ∧ g1 !! auth_org_id auth
              = Some (OrgObj (mkOrg (org_id org) (serverEnvkeyCount org + 1) now
                                (org_deletedAt org))))
  ∧ (p_keyableParentType payload = localKey →
     g1 !! auth_org_id auth = g !! auth_org_id auth).
Proof.
  intros Hgen Hne.
  destruct (generateKey_envkey _ _ _ _ _ _ _ Hgen) as (Hid & _).
  destruct (generateKey_lookup _ _ _ _ _ _ _ Hgen Hne) as (Hnew & Hother & Horg).
  split_and!; try done.
  - intros Hty. by rewrite Hty in Horg.
  - intros Hty. by rewrite Hty in Horg.
Qed.

(** [envkeyShort] is the first six characters of [envkeyIdPart], or all of
    it when it is shorter. *)
Theorem generateKey_envkeyShort g auth now newId payload g1 new :
  generateKey g auth now newId payload = Some (g1, new) →
  envkeyIdPart new = p_envkeyIdPart payload
  ∧ String.prefix (envkeyShort new) (envkeyIdPart new) = true
  ∧ String.length (envkeyShort new) = Nat.min 6 (String.length (envkeyIdPart new))
  ∧ ((String.length (envkeyIdPart new) ≤ 6)%nat → envkeyShort new = envkeyIdPart new).
Proof.
  unfold generateKey. intros Hgen.
  destruct (g !! p_keyableParentId payload ≫= asKeyableParent) as [kp|]; [|done].
  simpl in Hgen.
  assert (envkeyIdPart new = p_envkeyIdPart payload
          ∧ envkeyShort new = String.substring 0 6 (p_envkeyIdPart payload)) as [-> ->].
  { destruct (p_keyableParentType payload).
    - destruct (g !! auth_org_id auth ≫= asOrg); [|done]. simpl in Hgen. by simplify_eq.
    - by simplify_eq. }
  split_and!; [done | apply substring_0_prefix | apply substring_0_length
              | apply substring_0_all].
Qed.

(** The quota check follows the type the payload declares, the binding to a
    user and device follows the parent node: a payload that declares
    [localKey] for a node that is a server is authorized by [canGenerateKey]
    alone, whatever the license and the number of active envkeys, and yields
    an envkey typed [localKey] with no user and no device. *)
Theorem declared_type_decides_quota_check g userGraph auth now newId payload kp g1 new :
  p_keyableParentType payload = localKey →
  g !! p_keyableParentId payload = Some (KeyableParentObj kp) →
  kp_type kp = server →
  generateKey g auth now newId payload = Some (g1, new) →
  GENERATE_KEY_graphAuthorizer payload g userGraph auth
  = canGenerateKey userGraph (auth_user_id auth) (p_keyableParentId payload)
  ∧ keyableParentType new = localKey
  ∧ keyableParentId new = p_keyableParentId payload
  ∧ ge_environmentId new = kp_environmentId kp
  ∧ ge_userId new = None
  ∧ ge_deviceId new = None.
Proof.
  intros Hty Hkp Hsrv Hgen. split.
  - unfold GENERATE_KEY_graphAuthorizer. by rewrite Hty.
  - unfold generateKey in Hgen. rewrite Hkp, Hty in Hgen. simpl in Hgen.
    rewrite Hsrv in Hgen. simplify_eq. by simpl.
Qed.

(** At the authorizer a regeneration does not count against the quota: for
    a server that has an active envkey the check is [numActive <= max], for
    one that has none it is [numActive < max].  So with the quota exactly
    used up, existing server envkeys can still be regenerated and no server
    can get a first one. *)
Theorem regenerate_is_quota_neutral payload g userGraph auth :
  p_keyableParentType payload = server →
  maxServerEnvkeys (auth_license auth) ≠ -1 →
  (is_Some (getActiveGeneratedEnvkeysByKeyableParentId g !! p_keyableParentId payload) →
   GENERATE_KEY_graphAuthorizer payload g userGraph auth = true ↔
   canGenerateKey userGraph (auth_user_id auth) (p_keyableParentId payload) = true
   ∧ numActive g ≤ maxServerEnvkeys (auth_license auth))
  ∧ (getActiveGeneratedEnvkeysByKeyableParentId g !! p_keyableParentId payload = None →
     GENERATE_KEY_graphAuthorizer payload g userGraph auth = true ↔
     canGenerateKey userGraph (auth_user_id auth) (p_keyableParentId payload) = true
     ∧ numActive g < maxServerEnvkeys (auth_license auth)).
Proof.
  intros Hty Hmax. split.
  - intros [existing Hex]. rewrite (GENERATE_KEY_authorizer_server _ _ _ _ Hty), Hex.
    split; intros [? H]; (split; [done|]); [destruct H; [done | lia] | right; lia].
  - intros Hex. rewrite (GENERATE_KEY_authorizer_server _ _ _ _ Hty), Hex.
    split; intros [? H]; (split; [done|]); [destruct H; [done | lia] | right; lia].
Qed.

(** Under a limit of zero, or any negative limit other than [-1], no
    server-type GenerateKey action is ever authorized, whatever the graph
    and whatever [canGenerateKey] answers. *)
Theorem nonpositive_limit_refuses_servers payload g userGraph auth :
  p_keyableParentType payload = server →
  maxServerEnvkeys (auth_license auth) ≤ 0 →
  maxServerEnvkeys (auth_license auth) ≠ -1 →
  GENERATE_KEY_graphAuthorizer payload g userGraph auth = false.
Proof.
  intros Hty Hle Hmax.
  destruct (GENERATE_KEY_graphAuthorizer payload g userGraph auth) eqn:Hauth; [|done].
  apply (GENERATE_KEY_authorizer_server _ _ _ _ Hty) in Hauth as [_ [?|Hlt]]; [done|].
  exfalso. unfold numActive in Hlt.
  destruct (getActiveGeneratedEnvkeysByKeyableParentId g !! p_keyableParentId payload)
    as [existing|] eqn:Hex; [|lia].
  assert (size (getActiveGeneratedEnvkeysByKeyableParentId g) ≠ 0%nat)
    by (apply map_size_non_empty_iff; intros Hempty; by rewrite Hempty in Hex).
  lia.
Qed.

(** The quota gate of CreateServer is the gate a server without an envkey
    meets at GenerateKey: when CreateServer is authorized, the first key of
    any server is refused only by [canGenerateKey], and when a first key is
    authorized, CreateServer is refused only by [canCreateServer]. *)
Theorem create_server_gate_is_first_key_gate environmentId payload g userGraph auth :
  p_keyableParentType payload = server →
  getActiveGeneratedEnvkeysByKeyableParentId g !! p_keyableParentId payload = None →
  (CREATE_SERVER_graphAuthorizer environmentId g userGraph auth = true →
   GENERATE_KEY_graphAuthorizer payload g userGraph auth
   = canGenerateKey userGraph (auth_user_id auth) (p_keyableParentId payload))
  ∧ (GENERATE_KEY_graphAuthorizer payload g userGraph auth = true →
     CREATE_SERVER_graphAuthorizer environmentId g userGraph auth
     = canCreateServer userGraph (auth_user_id auth) environmentId).
Proof.
  intros Hty Hex.
  unfold CREATE_SERVER_graphAuthorizer, GENERATE_KEY_graphAuthorizer.
  rewrite Hty, Hex. rewrite Z.sub_0_r.
  destruct (negb (maxServerEnvkeys (auth_license auth) =? -1)
            && (numActive g >=? maxServerEnvkeys (auth_license auth))); by split.
Qed.

(** On a graph where the casts of the handler hold, the GenerateKey handler
    returns a result exactly when none of the nodes it reads a field of is
    absent: the keyable parent, that parent's environment and, for a
    server-type payload, the org node.  The result names the fresh id as
    [createdId]; a first issuance (no active envkey in the index for the
    parent) returns the graph of [generateKey] as it is and emits neither
    hard-delete scopes nor socket invalidations. *)
Theorem generate_key_handler_returns_iff actionType payload g auth now newId :
  CastHolds asKeyableParent g (p_keyableParentId payload) →
  (∀ kp, g !! p_keyableParentId payload = Some (KeyableParentObj kp) →
         CastHolds asEnvironment g (kp_environmentId kp)) →
  (p_keyableParentType payload = server → CastHolds asOrg g (auth_org_id auth)) →
  (is_Some (GENERATE_KEY_graphHandler actionType payload g auth now newId) ↔
   is_Some (g !! p_keyableParentId payload)
   ∧ (∀ kp, g !! p_keyableParentId payload = Some (KeyableParentObj kp) →
            is_Some (g !! kp_environmentId kp))
   ∧ (p_keyableParentType payload = server → is_Some (g !! auth_org_id auth)))
  ∧ (∀ r,
       GENERATE_KEY_graphHandler actionType payload g auth now newId = Some r →
       handlerContext r = Some (mkHandlerContext actionType newId)
       ∧ (getActiveGeneratedEnvkeysByKeyableParentId g !! p_keyableParentId payload = None →
          transactionItems r = None
          ∧ clearEnvkeySockets r = None
          ∧ ∃ new, generateKey g auth now newId payload = Some (graph r, new))).
Proof.
  intros Hcast Hcastenv Hcastorg. split.
  - split.
    + intros [r Hr]. unfold GENERATE_KEY_graphHandler in Hr.
      destruct (generateKey g auth now newId payload) as [[g1 new]|] eqn:Hgen; [|done].
      simpl in Hr.
      destruct (g !! p_keyableParentId payload) as [[| |kp| |]|] eqn:Hkp; try done.
      simpl in Hr.
      destruct (g !! kp_environmentId kp) as [[|env| | |]|] eqn:Henv; try done.
      split_and!; [by eexists | intros kp' ?; simplify_eq; by eexists |].
      intros Hty.
      destruct (g !! auth_org_id auth) as [o|] eqn:Horg; [by eexists|].
      exfalso. unfold generateKey in Hgen. rewrite Hkp in Hgen. simpl in Hgen.
      rewrite Hty, Horg in Hgen. done.
    + intros ([o Ho] & Henv & Horg).
      destruct (Hcast o Ho) as [kp ->%asKeyableParent_Some].
      destruct (Henv kp Ho) as [oe Hoe].
      destruct (Hcastenv kp Ho oe Hoe) as [env ->%asEnvironment_Some].
      unfold GENERATE_KEY_graphHandler, generateKey. rewrite Ho. simpl.
      destruct (p_keyableParentType payload) eqn:Hty; simpl.
      * destruct (Horg eq_refl) as [oo Hoo].
        destruct (Hcastorg eq_refl oo Hoo) as [org ->%asOrg_Some].
        rewrite Hoo. simpl. rewrite Hoe. simpl. by eexists.
      * rewrite Hoe. simpl. by eexists.
  - intros r Hr.
    destruct (GENERATE_KEY_inv _ _ _ _ _ _ _ Hr)
      as (g1 & new & Hgen & Hgraph & Hctx & Hitems & Hsockets).
    destruct (generateKey_envkey _ _ _ _ _ _ _ Hgen) as (Hid & _).
    split; [by rewrite Hctx, Hid|].
    intros Hex. rewrite Hex in Hgraph, Hitems, Hsockets.
    split_and!; try done. exists new. by rewrite Hgraph.
Qed.

End Issue.

Section Retire.
Context {graphLib : GraphLib}.

(** On a graph where the casts of the handler hold, RevokeKey returns a
    result exactly when none of the nodes it reads a field of is absent: the
    envkey the payload names, its keyable parent and that parent's
    environment (read for the log targets); whether the envkey already
    carries a delete marker plays no part.  Every result holds the
    hard-delete scope of the envkey's [envkeyIdPart] and one socket
    invalidation. *)
Theorem revoke_key_returns_iff id (g : OrgGraph) auth now :
  CastHolds asGeneratedEnvkey g id →
  (∀ ge, g !! id = Some (GeneratedEnvkeyObj ge) →
         CastHolds asKeyableParent g (keyableParentId ge)) →
  (∀ ge kp, g !! id = Some (GeneratedEnvkeyObj ge) →
            g !! keyableParentId ge = Some (KeyableParentObj kp) →
            CastHolds asEnvironment g (kp_environmentId kp)) →
  (is_Some (REVOKE_KEY_graphHandler id g auth now) ↔
   is_Some (g !! id)
   ∧ (∀ ge, g !! id = Some (GeneratedEnvkeyObj ge) →
            is_Some (g !! keyableParentId ge)
            ∧ ∀ kp, g !! keyableParentId ge = Some (KeyableParentObj kp) →
                    is_Some (g !! kp_environmentId kp)))
  ∧ (∀ r ge,
       REVOKE_KEY_graphHandler id g auth now = Some r →
       g !! id = Some (GeneratedEnvkeyObj ge) →
       transactionItems r = Some (mkItems [mkScope ("envkey|" +:+ envkeyIdPart ge)])
       ∧ clearEnvkeySockets r = Some [ClearEnvkeySocket (auth_org_id auth) (ge_id ge)]
       ∧ handlerContext r = None).
Proof.
  intros Hcast Hcastkp Hcastenv. split.
  - split.
    + intros [r Hr]. unfold REVOKE_KEY_graphHandler in Hr.
      destruct (g !! id) as [[| | |ge|]|] eqn:Hid; try done. simpl in Hr.
      destruct (g !! keyableParentId ge) as [[| |kp| |]|] eqn:Hkp; try done. simpl in Hr.
      destruct (g !! kp_environmentId kp) as [[|env| | |]|] eqn:Henv; try done.
      split; [by eexists|]. intros ge' ?. simplify_eq. rewrite Hkp.
      split; [by eexists|]. intros kp' ?. simplify_eq. by eexists.
    + intros ([o Ho] & Hreads).
      destruct (Hcast o Ho) as [ge ->%asGeneratedEnvkey_Some].
      destruct (Hreads ge Ho) as [[ok Hok] Henv].
      destruct (Hcastkp ge Ho ok Hok) as [kp ->%asKeyableParent_Some].
      destruct (Henv kp Hok) as [oe Hoe].
      destruct (Hcastenv ge kp Ho Hok oe Hoe) as [env ->%asEnvironment_Some].
      by eapply REVOKE_KEY_returns.
  - intros r ge Hr Hid. unfold REVOKE_KEY_graphHandler in Hr.
    rewrite Hid in Hr. simpl in Hr.
    destruct (g !! keyableParentId ge ≫= asKeyableParent) as [kp|]; [|done]. simpl in Hr.
    destruct (g !! kp_environmentId kp ≫= asEnvironment) as [env|]; [|done]. simpl in Hr.
    by simplify_eq.
Qed.

Lemma filterBoolean_nonempty l : "" ∉ filterBoolean l.
Proof.
  unfold filterBoolean. intros Hin.
  apply list_elem_of_omap in Hin as (o & _ & Ho).
  destruct o as [s|]; [|done]. by destruct (decide (s = "")); simplify_eq.
Qed.

Lemma DELETE_SERVER_inv id (g : OrgGraph) auth now r :
  DELETE_SERVER_graphHandler id g auth now = Some r →
  ∃ kp env,
    g !! id = Some (KeyableParentObj kp)
    ∧ g !! kp_environmentId kp = Some (EnvironmentObj env)
    ∧ r = {|
        graph := getDeleteKeyableParentProducer id now g;
        handlerContext := None;
        transactionItems :=
          (λ ge, mkItems [mkScope ("envkey|" +:+ envkeyIdPart ge)])
            <$> getActiveGeneratedEnvkeysByKeyableParentId g !! kp_id kp;
        logTargetIds :=
          filterBoolean
            [Some (kp_id kp); Some (envParentId env); Some (environmentRoleId env);
             if isSub env then Some (environmentCompositeId env) else None];
        clearEnvkeySockets :=
          (λ ge, [ClearEnvkeySocket (auth_org_id auth) (ge_id ge)])
            <$> getActiveGeneratedEnvkeysByKeyableParentId g !! kp_id kp |}.
Proof.
  unfold DELETE_SERVER_graphHandler. intros Hr.
  destruct (g !! id) as [[| |kp| |]|] eqn:Hid; try done. simpl in Hr.
  destruct (g !! kp_environmentId kp) as [[|env| | |]|] eqn:Henv; try done.
  simpl in Hr. simplify_eq. exists kp, env. split_and!; try done.
  all: by destruct (getActiveGeneratedEnvkeysByKeyableParentId g !! kp_id kp).
Qed.

Lemma DELETE_LOCAL_KEY_inv id (g : OrgGraph) auth now r :
  DELETE_LOCAL_KEY_graphHandler id g auth now = Some r →
  ∃ kp env,
    g !! id = Some (KeyableParentObj kp)
    ∧ g !! kp_environmentId kp = Some (EnvironmentObj env)
    ∧ r = {|
        graph := getDeleteKeyableParentProducer id now g;
        handlerContext := None;
        transactionItems :=
          (λ ge, mkItems [mkScope ("envkey|" +:+ envkeyIdPart ge)])
            <$> getActiveGeneratedEnvkeysByKeyableParentId g !! kp_id kp;
        logTargetIds :=
          filterBoolean
            [Some (kp_id kp); Some (envParentId env); Some (environmentRoleId env);
             Some "locals"];
        clearEnvkeySockets :=
          (λ ge, [ClearEnvkeySocket (auth_org_id auth) (ge_id ge)])
            <$> getActiveGeneratedEnvkeysByKeyableParentId g !! kp_id kp |}.
Proof.
  unfold DELETE_LOCAL_KEY_graphHandler. intros Hr.
  destruct (g !! id) as [[| |kp| |]|] eqn:Hid; try done. simpl in Hr.
  destruct (g !! kp_environmentId kp) as [[|env| | |]|] eqn:Henv; try done.
  simpl in Hr. simplify_eq. exists kp, env. split_and!; try done.
  all: by destruct (getActiveGeneratedEnvkeysByKeyableParentId g !! kp_id kp).
Qed.

(** On a graph where the casts of the handlers hold, DeleteServer and
    DeleteLocalKey each return a result exactly when none of the nodes they
    read a field of is absent: the keyable parent the payload names and its
    environment.  In the result the hard-delete scopes and the socket
    invalidations come together or not at all, no log target is the empty
    string, and DeleteLocalKey's log targets hold ["locals"]. *)
Theorem delete_handlers_results id (g : OrgGraph) auth now :
  CastHolds asKeyableParent g id →
  (∀ kp, g !! id = Some (KeyableParentObj kp) →
         CastHolds asEnvironment g (kp_environmentId kp)) →
  (is_Some (DELETE_SERVER_graphHandler id g auth now) ↔
   is_Some (g !! id)
   ∧ (∀ kp, g !! id = Some (KeyableParentObj kp) → is_Some (g !! kp_environmentId kp)))
  ∧ (is_Some (DELETE_LOCAL_KEY_graphHandler id g auth now) ↔
     is_Some (g !! id)
     ∧ (∀ kp, g !! id = Some (KeyableParentObj kp) → is_Some (g !! kp_environmentId kp)))
  ∧ (∀ r, DELETE_SERVER_graphHandler id g auth now = Some r →
          (is_Some (transactionItems r) ↔ is_Some (clearEnvkeySockets r))
          ∧ ("" ∉ logTargetIds r)
          ∧ handlerContext r = None)
  ∧ (∀ r, DELETE_LOCAL_KEY_graphHandler id g auth now = Some r →
          (is_Some (transactionItems r) ↔ is_Some (clearEnvkeySockets r))
          ∧ ("" ∉ logTargetIds r)
          ∧ "locals" ∈ logTargetIds r
          ∧ handlerContext r = None).
Proof.
  intros Hcast Hcastenv.
  assert (is_Some (g !! id)
          ∧ (∀ kp, g !! id = Some (KeyableParentObj kp) →
                   is_Some (g !! kp_environmentId kp))
          → ∃ kp env, g !! id = Some (KeyableParentObj kp)
                      ∧ g !! kp_environmentId kp = Some (EnvironmentObj env)) as Hthere.
  { intros ([o Ho] & Henv).
    destruct (Hcast o Ho) as [kp ->%asKeyableParent_Some].
    destruct (Henv kp Ho) as [oe Hoe].
    destruct (Hcastenv kp Ho oe Hoe) as [env ->%asEnvironment_Some].
    by exists kp, env. }
  split_and!.
  - split.
    + intros [r (kp & env & Hid & Henv & _)%DELETE_SERVER_inv].
      split; [by eexists|]. intros kp' ?. simplify_eq. by eexists.
    + intros (kp & env & Hid & Henv)%Hthere. unfold DELETE_SERVER_graphHandler.
      rewrite Hid. simpl. rewrite Henv. simpl. by eexists.
  - split.
    + intros [r (kp & env & Hid & Henv & _)%DELETE_LOCAL_KEY_inv].
      split; [by eexists|]. intros kp' ?. simplify_eq. by eexists.
    + intros (kp & env & Hid & Henv)%Hthere. unfold DELETE_LOCAL_KEY_graphHandler.
      rewrite Hid. simpl. rewrite Henv. simpl. by eexists.
  - intros r (kp & env & _ & _ & ->)%DELETE_SERVER_inv.
    cbn [logTargetIds transactionItems clearEnvkeySockets handlerContext]. split_and!.
    + by rewrite !fmap_is_Some.
    + apply filterBoolean_nonempty.
    + done.
  - intros r (kp & env & _ & _ & ->)%DELETE_LOCAL_KEY_inv.
    cbn [logTargetIds transactionItems clearEnvkeySockets handlerContext]. split_and!.
    + by rewrite !fmap_is_Some.
    + apply filterBoolean_nonempty.
    + unfold filterBoolean. apply list_elem_of_omap. exists (Some "locals").
      split; [|done]. do 3 apply list_elem_of_further. apply list_elem_of_here.
    + done.
Qed.

End Retire.

(** ** Instances *)

Lemma generateKey_writes_witness :
  ∃ g1 new,
    @generateKey tagCrypto plainGraphLib emptyOrgGraph (authWithLimit 5) 7 "k1"
      (payloadFor srv1 "part01") = Some (g1, new)
    ∧ g1 !! "k1" = Some (GeneratedEnvkeyObj new)
    ∧ g1 !! "srv1" = Some (KeyableParentObj srv1)
    ∧ g1 !! "org1" = Some (OrgObj (mkOrg "org1" 1 7 None)).
Proof.
  destruct (@generateKey tagCrypto plainGraphLib emptyOrgGraph (authWithLimit 5) 7 "k1"
              (payloadFor srv1 "part01")) as [[g1 new]|] eqn:Hgen;
    [|by vm_compute in Hgen].
  destruct (@generateKey_writes tagCrypto plainGraphLib _ _ _ _ _ _ _ Hgen)
    as (Hnew & _ & Hother & Hserver & _); [done|].
  exists g1, new. split_and!; [done | done | by rewrite Hother |].
  destruct Hserver as (org & Horg & Hg1); [done|].
  vm_compute in Horg. simplify_eq. exact Hg1.
Defined.

Lemma generateKey_envkeyShort_witness :
  ∃ g1 new,
    @generateKey tagCrypto plainGraphLib emptyOrgGraph (authWithLimit 5) 7 "k1"
      (payloadFor srv1 "0123456789abcdef") = Some (g1, new)
    ∧ envkeyIdPart new = "0123456789abcdef"
    ∧ String.length (envkeyShort new) = 6%nat.
Proof.
  destruct (@generateKey tagCrypto plainGraphLib emptyOrgGraph (authWithLimit 5) 7 "k1"
              (payloadFor srv1 "0123456789abcdef")) as [[g1 new]|] eqn:Hgen;
    [|by vm_compute in Hgen].
  destruct (@generateKey_envkeyShort tagCrypto plainGraphLib _ _ _ _ _ _ _ Hgen)
    as (Hpart & _ & Hlen & _).
  exists g1, new. split_and!; [done | done |]. by rewrite Hlen, Hpart.
Defined.

Lemma declared_type_decides_quota_check_witness :
  ∃ g1 new,
    @generateKey tagCrypto plainGraphLib serverKeyGraph (authWithLimit 0) 7 "k2"
      (mkGenerateKeyPayload "app1" "enc" "part02" "srv1" localKey "pub" "root")
    = Some (g1, new)
    ∧ @GENERATE_KEY_graphAuthorizer permissiveAuthz
        (mkGenerateKeyPayload "app1" "enc" "part02" "srv1" localKey "pub" "root")
        serverKeyGraph tt (authWithLimit 0) = true
    ∧ keyableParentType new = localKey
    ∧ keyableParentId new = "srv1"
    ∧ ge_userId new = None.
Proof.
  destruct (@generateKey tagCrypto plainGraphLib serverKeyGraph (authWithLimit 0) 7 "k2"
              (mkGenerateKeyPayload "app1" "enc" "part02" "srv1" localKey "pub" "root"))
    as [[g1 new]|] eqn:Hgen; [|by vm_compute in Hgen].
  destruct (@declared_type_decides_quota_check tagCrypto plainGraphLib permissiveAuthz
              serverKeyGraph tt (authWithLimit 0) 7 "k2"
              (mkGenerateKeyPayload "app1" "enc" "part02" "srv1" localKey "pub" "root")
              srv1 g1 new)
    as (Hauth & Hty & Hid & _ & Huser & _);
    [done | by vm_compute | done | done |].
  exists g1, new. by split_and!.
Defined.

Lemma regenerate_is_quota_neutral_witness :
  @GENERATE_KEY_graphAuthorizer permissiveAuthz (payloadFor srv1 "part02")
    serverKeyGraph tt (authWithLimit 1) = true
  ∧ @GENERATE_KEY_graphAuthorizer permissiveAuthz
      (mkGenerateKeyPayload "app1" "enc" "part03" "srv2" server "pub" "root")
      serverKeyGraph tt (authWithLimit 1) = false.
Proof.
  split.
  - apply (proj1 (@regenerate_is_quota_neutral permissiveAuthz (payloadFor srv1 "part02")
                    serverKeyGraph tt (authWithLimit 1) eq_refl ltac:(done))).
    + eexists. vm_compute. reflexivity.
    + split; [done | by vm_compute].
  - apply not_true_is_false. intros Hauth.
    apply (proj2 (@regenerate_is_quota_neutral permissiveAuthz
                    (mkGenerateKeyPayload "app1" "enc" "part03" "srv2" server "pub" "root")
                    serverKeyGraph tt (authWithLimit 1) eq_refl ltac:(done))) in Hauth
      as [_ Hlt]; [by vm_compute in Hlt | by vm_compute].
Defined.

Lemma nonpositive_limit_refuses_servers_witness :
  @GENERATE_KEY_graphAuthorizer permissiveAuthz (payloadFor srv1 "part01")
    emptyOrgGraph tt (authWithLimit 0) = false.
Proof.
  apply (@nonpositive_limit_refuses_servers permissiveAuthz); [done | by vm_compute | done].
Defined.

Lemma create_server_gate_is_first_key_gate_witness :
  @GENERATE_KEY_graphAuthorizer permissiveAuthz (payloadFor srv1 "part01")
    emptyOrgGraph tt (authWithLimit 1) = true
  ∧ @CREATE_SERVER_graphAuthorizer permissiveAuthz "env1" localKeyGraph tt (authWithLimit 1)
    = false.
Proof.
  split.
  - apply (proj1 (@create_server_gate_is_first_key_gate permissiveAuthz "env1"
                    (payloadFor srv1 "part01") emptyOrgGraph tt (authWithLimit 1)
                    eq_refl ltac:(by vm_compute))).
    by vm_compute.
  - apply not_true_is_false. intros Hcreate.
    pose proof (proj1 (@create_server_gate_is_first_key_gate permissiveAuthz "env1"
                         (payloadFor srv1 "part01") localKeyGraph tt (authWithLimit 1)
                         eq_refl ltac:(by vm_compute)) Hcreate) as Hgen.
    by vm_compute in Hgen.
Defined.

(** Every cast of the handlers holds on the sample graphs: a lookup that
    finds a node finds one of the expected type. *)
Ltac cast_holds :=
  repeat match goal with
         | |- CastHolds _ _ _ => intros ? ?
         | |- ∀ _, _ => intros ?
         | H : _ !! _ = Some _ |- _ => vm_compute in H; simplify_eq
         end;
  by eexists.

Lemma generate_key_handler_returns_iff_witness :
  is_Some (@GENERATE_KEY_graphHandler tagCrypto plainGraphLib "GenerateKey"
             (payloadFor srv1 "part01") emptyOrgGraph (authWithLimit 5) 7 "k1")
  ∧ ¬ is_Some (@GENERATE_KEY_graphHandler tagCrypto plainGraphLib "GenerateKey"
                 (mkGenerateKeyPayload "app1" "enc" "part01" "srv9" server "pub" "root")
                 emptyOrgGraph (authWithLimit 5) 7 "k1").
Proof.
  split.
  - apply (proj1 (@generate_key_handler_returns_iff tagCrypto plainGraphLib "GenerateKey"
                    (payloadFor srv1 "part01") emptyOrgGraph (authWithLimit 5) 7 "k1"
                    ltac:(cast_holds) ltac:(cast_holds) ltac:(cast_holds))).
    split_and!; [by eexists | intros kp Hkp; vm_compute in Hkp; simplify_eq; by eexists
                | intros _; by eexists].
  - intros Hsome.
    apply (proj1 (@generate_key_handler_returns_iff tagCrypto plainGraphLib "GenerateKey"
                    (mkGenerateKeyPayload "app1" "enc" "part01" "srv9" server "pub" "root")
                    emptyOrgGraph (authWithLimit 5) 7 "k1"
                    ltac:(cast_holds) ltac:(cast_holds) ltac:(cast_holds))) in Hsome
      as ([o Ho] & _).
    by vm_compute in Ho.
Defined.

Lemma revoke_key_returns_iff_witness :
  is_Some (@REVOKE_KEY_graphHandler plainGraphLib "k1" serverKeyGraph (authWithLimit 1) 7)
  ∧ ¬ is_Some (@REVOKE_KEY_graphHandler plainGraphLib "k9" serverKeyGraph
                 (authWithLimit 1) 7).
Proof.
  split.
  - apply (proj1 (@revoke_key_returns_iff plainGraphLib "k1" serverKeyGraph
                    (authWithLimit 1) 7
                    ltac:(cast_holds) ltac:(cast_holds) ltac:(cast_holds))).
    split; [by eexists|].
    intros ge Hge. vm_compute in Hge. simplify_eq.
    split; [by eexists|].
    intros kp Hkp. vm_compute in Hkp. simplify_eq. by eexists.
  - intros Hsome.
    apply (proj1 (@revoke_key_returns_iff plainGraphLib "k9" serverKeyGraph
                    (authWithLimit 1) 7
                    ltac:(cast_holds) ltac:(cast_holds) ltac:(cast_holds))) in Hsome
      as ([o Ho] & _).
    by vm_compute in Ho.
Defined.

Lemma delete_handlers_results_witness :
  is_Some (@DELETE_SERVER_graphHandler plainGraphLib "srv1" serverKeyGraph
             (authWithLimit 1) 7)
  ∧ is_Some (DELETE_LOCAL_KEY_graphHandler "lk1" serverKeyGraph (authWithLimit 1) 7)
  ∧ ¬ is_Some (@DELETE_SERVER_graphHandler plainGraphLib "srv9" serverKeyGraph
                 (authWithLimit 1) 7).
Proof.
  split_and!.
  - apply (proj1 (@delete_handlers_results plainGraphLib "srv1" serverKeyGraph
                    (authWithLimit 1) 7 ltac:(cast_holds) ltac:(cast_holds))).
    split; [by eexists|].
    intros kp Hkp. vm_compute in Hkp. simplify_eq. by eexists.
  - apply (proj1 (proj2 (@delete_handlers_results plainGraphLib "lk1" serverKeyGraph
                           (authWithLimit 1) 7 ltac:(cast_holds) ltac:(cast_holds)))).
    split; [by eexists|].
    intros kp Hkp. vm_compute in Hkp. simplify_eq. by eexists.
  - intros Hsome.
    apply (proj1 (@delete_handlers_results plainGraphLib "srv9" serverKeyGraph
                    (authWithLimit 1) 7 ltac:(cast_holds) ltac:(cast_holds))) in Hsome
      as ([o Ho] & _).
    by vm_compute in Ho.
Defined.

End ApiCoverage.

(** * Further properties of server.ts *)

Module CoreProcessCoverage.
Import CoreProcess CoreProcessLoop.

(** ** [split] *)

Lemma splitOn_nonempty sep s : splitOn sep s ≠ [].
Proof.
  destruct s as [|c s]; simpl; [done|].
  destruct (Ascii.eqb c sep); [done|]. by destruct (splitOn sep s).
Qed.

Lemma splitOn_free sep s :
  sep ∉ String.list_ascii_of_string s → splitOn sep s = [s].
Proof.
  induction s as [|c s IH]; simpl; [done|].
  intros Hfree. apply not_elem_of_cons in Hfree as [Hne Hfree].
  destruct (Ascii.eqb_spec c sep) as [->|_]; [done|]. by rewrite IH.
Qed.

Lemma splitOn_app sep a b :
  sep ∉ String.list_ascii_of_string a →
  splitOn sep (a +:+ String sep b) = a :: splitOn sep b.
Proof.
  induction a as [|c a IH]; simpl.
  - intros _. by rewrite Ascii.eqb_refl.
  - intros Hfree. apply not_elem_of_cons in Hfree as [Hne Hfree].
    destruct (Ascii.eqb_spec c sep) as [->|_]; [done|]. by rewrite IH.
Qed.

Section Auth.
Context {rt : Runtime}.

Lemma authenticateUserAgent_true userAgent (st : ServerState ProcState) :
  authenticateUserAgent userAgent st = Some true ↔
  (∃ ua token data key,
     userAgent = Some ua
     ∧ splitOn "|" ua !! 0%nat = Some CORE_PROC_AGENT_NAME
     ∧ splitOn "|" ua !! 2%nat = Some token ∧ token ≠ ""
     ∧ parseEncryptedToken token = Some data
     ∧ deviceKey st ≫= dk_auth = Some key ∧ key ≠ ""
     ∧ decryptSymmetricWithKey data key = Some CORE_PROC_AUTH_TOKEN).
Proof.
  split.
  - unfold authenticateUserAgent. intros Hauth.
    repeat (case_match; simplify_eq; try done).
    repeat match goal with
           | H : negb (bool_decide _) = false |- _ =>
               apply negb_false_iff, bool_decide_eq_true in H
           | H : bool_decide _ = true |- _ => apply bool_decide_eq_true in H
           end.
    subst. eexists _, _, _, _. by split_and!.
  - intros (ua & token & data & key & -> & Hname & Htoken & Hne & Hparse & Hkey & Hkne & Hdec).
    unfold authenticateUserAgent.
    destruct ua as [|c ua]; [done|]. rewrite Htoken.
    destruct token as [|t token]; [done|].
    rewrite bool_decide_eq_true_2 by done. cbn [negb]. rewrite Hparse, Hkey.
    destruct key as [|k key]; [done|]. rewrite Hdec.
    by rewrite bool_decide_eq_true_2.
Qed.

(** [authenticateUserAgent] answers true exactly for a user-agent whose
    first ["|"]-separated part is the agent name and whose third part is a
    non-empty token that parses and decrypts, under the non-empty [auth] key
    of the device key, to the auth token.  It throws exactly when the name
    matches and the non-empty token does not parse, whatever the device key;
    a failing decryption is answered false. *)
Theorem authenticateUserAgent_spec userAgent (st : ServerState ProcState) :
  (authenticateUserAgent userAgent st = Some true ↔
   (∃ ua token data key,
      userAgent = Some ua
      ∧ splitOn "|" ua !! 0%nat = Some CORE_PROC_AGENT_NAME
      ∧ splitOn "|" ua !! 2%nat = Some token ∧ token ≠ ""
      ∧ parseEncryptedToken token = Some data
      ∧ deviceKey st ≫= dk_auth = Some key ∧ key ≠ ""
      ∧ decryptSymmetricWithKey data key = Some CORE_PROC_AUTH_TOKEN))
  ∧ (authenticateUserAgent userAgent st = None ↔
     (∃ ua token,
        userAgent = Some ua
        ∧ splitOn "|" ua !! 0%nat = Some CORE_PROC_AGENT_NAME
        ∧ splitOn "|" ua !! 2%nat = Some token ∧ token ≠ ""
        ∧ parseEncryptedToken token = None)).
Proof.
  split; [apply authenticateUserAgent_true|]. split.
  - unfold authenticateUserAgent. intros Hauth.
    repeat (case_match; simplify_eq; try done).
    repeat match goal with
           | H : negb (bool_decide _) = false |- _ =>
               apply negb_false_iff, bool_decide_eq_true in H
           end.
    eexists _, _. by split_and!.
  - intros (ua & token & -> & Hname & Htoken & Hne & Hparse).
    unfold authenticateUserAgent.
    destruct ua as [|c ua]; [done|]. rewrite Htoken.
    destruct token as [|t token]; [done|].
    rewrite bool_decide_eq_true_2 by done. cbn [negb]. by rewrite Hparse.
Qed.

(** The user-agent a client sends is [NAME|version|TOKEN]: with no ["|"]
    inside the name and the version, the token that is checked is what
    follows the second ["|"], up to a third one if there is one. *)
Theorem authenticateUserAgent_format version token rest (st : ServerState ProcState) :
  "|"%char ∉ String.list_ascii_of_string CORE_PROC_AGENT_NAME →
  "|"%char ∉ String.list_ascii_of_string version →
  "|"%char ∉ String.list_ascii_of_string token →
  authenticateUserAgent
    (Some (CORE_PROC_AGENT_NAME +:+ String "|" (version +:+ String "|" token))) st
  = authenticateUserAgent
      (Some (CORE_PROC_AGENT_NAME +:+ String "|" (version +:+
               String "|" (token +:+ String "|" rest)))) st
  ∧ (authenticateUserAgent
       (Some (CORE_PROC_AGENT_NAME +:+ String "|" (version +:+ String "|" token))) st
     = Some true ↔
     token ≠ ""
     ∧ ∃ data key,
         parseEncryptedToken token = Some data
         ∧ deviceKey st ≫= dk_auth = Some key ∧ key ≠ ""
         ∧ decryptSymmetricWithKey data key = Some CORE_PROC_AUTH_TOKEN).
Proof.
  intros Hname Hversion Htoken.
  assert (splitOn "|" (CORE_PROC_AGENT_NAME +:+ String "|" (version +:+ String "|" token))
          = [CORE_PROC_AGENT_NAME; version; token]) as Hsplit
    by by rewrite !splitOn_app, splitOn_free.
  assert (∃ more,
            splitOn "|" (CORE_PROC_AGENT_NAME +:+ String "|" (version +:+
                           String "|" (token +:+ String "|" rest)))
            = CORE_PROC_AGENT_NAME :: version :: token :: more) as [more Hsplit']
    by (rewrite !splitOn_app by done; by eexists).
  split.
  - unfold authenticateUserAgent. rewrite Hsplit, Hsplit'.
    destruct (CORE_PROC_AGENT_NAME +:+ String "|" (version +:+ String "|" token)) eqn:E1;
      [by destruct CORE_PROC_AGENT_NAME|].
    destruct (CORE_PROC_AGENT_NAME +:+ String "|" (version +:+
                String "|" (token +:+ String "|" rest))) eqn:E2;
      [by destruct CORE_PROC_AGENT_NAME|].
    done.
  - rewrite authenticateUserAgent_true. split.
    + intros (ua & token' & data & key & Hua & _ & H2 & ? & ? & ? & ? & ?).
      simplify_eq. rewrite Hsplit in H2. simpl in H2. simplify_eq.
      split; [done|]. by exists data, key.
    + intros (? & data & key & ? & ? & ? & ?).
      eexists _, token, data, key. rewrite Hsplit. by split_and!.
Qed.

End Auth.

Section Lockout.
Context {rt : Runtime}.

Lemma lockoutIfNeeded_cases now (st : ServerState ProcState) :
  (idleTooLong now st ∧ lockoutIfNeeded now st = lockDevice st)
  ∨ (¬ idleTooLong now st ∧ lockoutIfNeeded now st = (st, [])).
Proof.
  unfold lockoutIfNeeded, idleTooLong, isLocked.
  destruct (locked st) eqn:Hlocked; [right; split; [by intros [? _] | done]|].
  destruct (reduxStore st) as [store|] eqn:Hstore;
    [|right; split; [by intros (_ & ? & ? & ? & ? & _) | done]].
  destruct (lockoutMs store) as [ms|] eqn:Hms;
    [|right; split; [intros (_ & ? & ? & ? & ? & ? & _); congruence | done]].
  destruct (lastActiveAt store) as [activeAt|] eqn:Hat;
    [|right; split; [intros (_ & ? & ? & ? & ? & ? & ? & ? & _); congruence
                    | simpl; by rewrite orb_true_r]].
  simpl.
  destruct (Z.eqb_spec ms 0) as [->|Hms0];
    [right; split; [intros (_ & ? & ? & ? & ? & ? & ? & _); congruence | done]|].
  destruct (Z.eqb_spec activeAt 0) as [->|Hat0];
    [right; split; [intros (_ & ? & ? & ? & ? & ? & ? & ? & ? & _); congruence | done]|].
  simpl. destruct (Z.ltb_spec ms (now - activeAt)) as [Hlt|Hge].
  - left. split; [|done]. split; [done|]. by exists store, ms, activeAt.
  - right. split; [|done].
    intros (_ & ? & ? & ? & ? & ? & ? & ? & ? & ?). simplify_eq. lia.
Qed.

(** [lockoutIfNeeded] locks the device exactly when it is unlocked, has a
    store whose [lockoutMs] and [lastActiveAt] are set and not zero, and
    more than [lockoutMs] has passed since [lastActiveAt]; otherwise it
    changes nothing and issues no effect.  It never unlocks. *)
Theorem lockoutIfNeeded_spec now (st : ServerState ProcState) :
  (idleTooLong now st → lockoutIfNeeded now st = lockDevice st)
  ∧ (¬ idleTooLong now st → lockoutIfNeeded now st = (st, []))
  ∧ (locked st = true → locked (lockoutIfNeeded now st).1 = true).
Proof.
  destruct (lockoutIfNeeded_cases now st) as [[Hi ->]|[Hi ->]]; by split_and!.
Qed.

(** After [resolveLockoutTimer]: a locked process has no timer armed; an
    unlocked one has a timer armed exactly when its store requires a
    passphrase and has a non-zero [lockoutMs], and then for [lockoutMs]; a
    process that was idle for too long is now locked, without a store; a
    locked one stays locked. *)
Theorem resolveLockoutTimer_spec now (st : ServerState ProcState) :
  let st' := (resolveLockoutTimer now st).1 in
  (locked st' = true → lockoutTimeout st' = None)
  ∧ (locked st' = false →
     ∀ ms, lockoutTimeout st' = Some ms ↔
           (∃ store, reduxStore st' = Some store
                     ∧ requiresPassphrase store = true
                     ∧ lockoutMs store = Some ms ∧ ms ≠ 0))
  ∧ (idleTooLong now st → locked st' = true ∧ reduxStore st' = None)
  ∧ (locked st = true → locked st' = true).
Proof.
  simpl. unfold resolveLockoutTimer, isLocked.
  assert (idleTooLong now (clearLockoutTimer st) ↔ idleTooLong now st) as Hidle
    by (unfold idleTooLong; by destruct st).
  cbn [clearLockoutTimer locked reduxStore].
  destruct (locked st) eqn:Hlocked.
  { simpl. unfold idleTooLong. rewrite Hlocked. split_and!; try done.
    by intros [? _]. }
  destruct (reduxStore st) as [store|] eqn:Hstore.
  2:{ simpl. rewrite Hlocked, Hstore. split_and!; try done.
      - intros _ ms. split; [done | by intros (? & ? & _)].
      - unfold idleTooLong. intros (_ & ? & ? & ? & ? & _). congruence. }
  destruct (lockoutIfNeeded_cases now (clearLockoutTimer st)) as [[Hi Hl]|[Hi Hl]];
    rewrite Hl; rewrite Hidle in Hi.
  - unfold lockDevice. simpl. by split_and!.
  - cbn [clearLockoutTimer locked reduxStore]. rewrite Hlocked, Hstore.
    destruct (requiresPassphrase store) eqn:Hreq; simpl.
    + destruct (lockoutMs store) as [ms|] eqn:Hms; simpl.
      * destruct (Z.eqb_spec ms 0) as [->|Hms0]; simpl; rewrite ?Hlocked, ?Hstore.
        -- split_and!; try done. intros _ ms'. split; [done|].
           intros (? & ? & ? & ? & ?). congruence.
        -- split_and!; try done. intros _ ms'. split.
           ++ intros ?. simplify_eq. by exists store.
           ++ intros (? & ? & ? & ? & ?). congruence.
      * rewrite Hlocked, Hstore. split_and!; try done. intros _ ms'. split; [done|].
        intros (? & ? & ? & ? & ?). congruence.
    + rewrite Hlocked, Hstore. split_and!; try done. intros _ ms'. split; [done|].
      intros (? & ? & ? & ? & ?). congruence.
Qed.

(** A heartbeat that comes within fifteen seconds of the previous one
    changes nothing, however long the user has been idle; one that comes
    later locks the device exactly when [lockoutIfNeeded] would; either way
    it records its own time. *)
Theorem procHeartbeatLoop_spec now lastProcHeartbeatAt (st : ServerState ProcState) :
  (procHeartbeatLoop now lastProcHeartbeatAt st).2 = now
  ∧ (now - lastProcHeartbeatAt ≤ 15000 →
     (procHeartbeatLoop now lastProcHeartbeatAt st).1 = (st, []))
  ∧ (15000 < now - lastProcHeartbeatAt →
     (idleTooLong now st →
      (procHeartbeatLoop now lastProcHeartbeatAt st).1 = lockDevice st)
     ∧ (¬ idleTooLong now st →
        (procHeartbeatLoop now lastProcHeartbeatAt st).1 = (st, []))).
Proof.
  unfold procHeartbeatLoop. split_and!.
  - by destruct (if 15000 <? now - lastProcHeartbeatAt then _ else _).
  - intros Hle. by rewrite (proj2 (Z.ltb_ge _ _) Hle).
  - intros Hlt. rewrite (proj2 (Z.ltb_lt _ _) Hlt).
    destruct (lockoutIfNeeded_cases now st) as [[Hyes ->]|[Hno ->]];
      split; intros Hi; done.
Qed.

(** ** The locked process holds nothing *)

Lemma lockDevice_clean (st : ServerState ProcState) : LockedClean (lockDevice st).1.
Proof. by intros _. Qed.

Lemma lockoutIfNeeded_clean now (st : ServerState ProcState) :
  LockedClean st → LockedClean (lockoutIfNeeded now st).1.
Proof.
  intros Hclean.
  destruct (lockoutIfNeeded_cases now st) as [[_ ->]|[_ ->]];
    [apply lockDevice_clean | done].
Qed.

Lemma resolveLockoutTimer_clean now (st : ServerState ProcState) :
  LockedClean st → LockedClean (resolveLockoutTimer now st).1.
Proof.
  intros Hclean.
  assert (LockedClean (clearLockoutTimer st)) as Hclear.
  { intros Hl. destruct (Hclean Hl) as [? _]. done. }
  unfold resolveLockoutTimer, isLocked.
  destruct (locked (clearLockoutTimer st)) eqn:Hlocked; [done|].
  destruct (reduxStore (clearLockoutTimer st)) as [store|] eqn:Hstore; [|done].
  destruct (lockoutIfNeeded_cases now (clearLockoutTimer st)) as [[_ ->]|[_ ->]].
  - unfold lockDevice. simpl. by intros _.
  - rewrite Hlocked, Hstore.
    destruct (requiresPassphrase store && negb (falsyNumber (lockoutMs store)));
      simpl; [|done].
    intros Hl. simpl in Hl. congruence.
Qed.

Lemma stateHandler_clean now (req : Request) (st : ServerState ProcState) :
  LockedClean st → LockedClean (after (stateHandler now req st)).
Proof.
  intros Hclean. unfold stateHandler, isLocked.
  destruct (locked st) eqn:Hlocked; [done|].
  destruct (reduxStore st) as [store|]; [|done].
  destruct (req_clientId req) as [[|c clientId]|]; try done.
  destruct (dispatchFinish _ _ _) as [res store'].
  destruct (resolveLockoutTimer now _) as [st' eff] eqn:Hres. simpl.
  change st' with (st', eff).1. rewrite <- Hres.
  apply resolveLockoutTimer_clean. intros Hl. simpl in Hl. congruence.
Qed.

Lemma actionHandler_clean now (req : Request) (st : ServerState ProcState) :
  (∀ passphrase st0 st1, unlockDevice passphrase st0 = inr st1 → LockedClean st1) →
  (∀ st0 st1, initForceReset st0 = inr st1 → LockedClean st1) →
  LockedClean st → LockedClean (after (actionHandler now req st)).
Proof.
  intros Hunlock Hinit Hclean. unfold actionHandler.
  destruct (req_action req) as [action|]; [|done].
  destruct (req_context req) as [context|]; [|done].
  destruct (decide (action_type action = OPEN_URL)); [done|].
  destruct (lockGate action st) as [[code answer]|st1] eqn:Hgate; [done|].
  assert (LockedClean st1) as Hclean1.
  { unfold lockGate, isLocked in Hgate. destruct (locked st).
    - destruct (action_type action); try done.
      + destruct (unlockDevice _ _) eqn:Hu; [done|]. simplify_eq. by eapply Hunlock.
      + destruct (initForceReset _) eqn:Hi; [done|]. simplify_eq. by eapply Hinit.
    - destruct (decide _); [done|]. by simplify_eq. }
  destruct (reduxStore st1) as [store|] eqn:Hstore; [|done].
  destruct (decide (action_type action = LOCK_DEVICE)).
  { destruct (negb (requiresPassphrase store)); [done|]. simpl. by intros _. }
  destruct (dispatchFinish _ _ _) as [[[success state] rest] store'].
  destruct (resolveLockoutTimer now _) as [st' eff] eqn:Hres. simpl.
  change st' with (st', eff).1. rewrite <- Hres.
  apply resolveLockoutTimer_clean. intros Hl. simpl in Hl.
  destruct (Hclean1 Hl) as [? _]. congruence.
Qed.

(** Whatever the request, the express app keeps this invariant: a locked
    process holds no redux store and has no lockout timer armed, provided
    unlocking and re-initialising hand back states that satisfy it. *)
Theorem handleRequest_keeps_locked_clean now (req : Request) (st : ServerState ProcState) :
  (∀ passphrase st0 st1, unlockDevice passphrase st0 = inr st1 → LockedClean st1) →
  (∀ st0 st1, initForceReset st0 = inr st1 → LockedClean st1) →
  LockedClean st →
  LockedClean (after (handleRequest now req st)).
Proof.
  intros Hunlock Hinit Hclean. unfold handleRequest, route.
  pose proof (lockoutIfNeeded_clean now st Hclean) as Hclean1.
  destruct (lockoutIfNeeded now st) as [st1 eff]. simpl in Hclean1.
  destruct (req_method req), (req_route req); try done;
    destruct (authenticateUserAgent (req_userAgent req) st) as [[|]|]; try done;
    simpl;
    first [ by apply stateHandler_clean | by apply actionHandler_clean ].
Qed.

(** ** Locking, then asking *)

(** LOCK_DEVICE on an unlocked process whose store requires a passphrase is
    answered 200 with the locked state, dispatches nothing, drops the store
    and the timer and locks; from then on an authenticated GET /state gets
    the locked sentinel and leaves the process as it is.  Without a
    passphrase the action is refused with 422 and changes nothing. *)
Theorem lock_device_then_state now (req : Request) (st : ServerState ProcState)
    action context store :
  req_action req = Some action →
  req_context req = Some context →
  action_type action = LOCK_DEVICE →
  isLocked st = false →
  reduxStore st = Some store →
  (requiresPassphrase store = false →
   actionHandler now req st
   = mkOutcome 422 (ErrorBody "Error: Cannot lock device if no passphrase is set.") st [])
  ∧ (requiresPassphrase store = true →
     let out := actionHandler now req st in
     status out = 200
     ∧ body out = LockDeviceBody
     ∧ locked (after out) = true
     ∧ reduxStore (after out) = None
     ∧ lockoutTimeout (after out) = None
     ∧ effects out = [LocalSocketUpdate FullUpdate; ClosedAllOrgSockets]
     ∧ ∀ now' (req' : Request),
         req_method req' = GET →
         req_route req' = RouteState →
         authenticateUserAgent (req_userAgent req') (after out) = Some true →
         handleRequest now' req' (after out)
         = mkOutcome 200 LockedStateBody (after out) []).
Proof.
  intros Haction Hcontext Htype Hlocked Hstore.
  unfold actionHandler. rewrite Haction, Hcontext, Htype.
  rewrite decide_False by done.
  unfold lockGate. rewrite Hlocked, Htype. rewrite decide_False by done.
  rewrite Hstore. rewrite decide_True by done.
  split; intros Hreq; rewrite Hreq; [done|]. simpl.
  split_and!; try done.
  intros now' req' Hmethod Hroute Hauth.
  unfold handleRequest, route. rewrite Hmethod, Hroute, Hauth. done.
Qed.

(** GET /state on an unlocked process with a store and a client id answers
    with the state as it was when the request arrived: it is read before
    the FETCHED_CLIENT_STATE dispatch that records the activity.  Without a
    client id the answer is 400 and nothing is dispatched. *)
Theorem state_route_answers_snapshot now (req : Request) (st : ServerState ProcState) store :
  isLocked st = false →
  reduxStore st = Some store →
  (req_clientId req = None ∨ req_clientId req = Some "" →
   stateHandler now req st
   = mkOutcome 400 (ErrorBody "Error: Missing clientId query parameter") st [])
  ∧ (∀ clientId,
       req_clientId req = Some clientId → clientId ≠ "" →
       let fetched := mkAction FETCHED_CLIENT_STATE "" in
       let store' :=
         (dispatchFinish fetched defaultContext
            (dispatchStart fetched defaultContext store)).2 in
       let out := stateHandler now req st in
       status out = 200
       ∧ body out
         = StateBody (getState store (stateContext (req_accountIdOrCliKey req) clientId))
       ∧ after out
         = (resolveLockoutTimer now
              (mkServerState false (Some store') (lockoutTimeout st) (deviceKey st))).1
       ∧ effects out
         = Dispatched fetched defaultContext
             :: (resolveLockoutTimer now
                   (mkServerState false (Some store') (lockoutTimeout st) (deviceKey st))).2).
Proof.
  intros Hlocked Hstore. unfold stateHandler. rewrite Hlocked, Hstore. split.
  - by intros [-> | ->].
  - intros clientId -> Hne. simpl.
    destruct clientId as [|c clientId]; [done|].
    unfold isLocked in Hlocked. rewrite Hlocked.
    destruct (dispatchFinish _ _ _) as [res store']. simpl.
    by destruct (resolveLockoutTimer now _) as [st' eff].
Qed.

(** ** Where effects come from *)

Lemma lockoutIfNeeded_quiet now (st : ServerState ProcState) :
  Forall quiet (lockoutIfNeeded now st).2.
Proof.
  destruct (lockoutIfNeeded_cases now st) as [[_ ->]|[_ ->]]; simpl;
    repeat constructor.
Qed.

Lemma resolveLockoutTimer_quiet now (st : ServerState ProcState) :
  Forall quiet (resolveLockoutTimer now st).2.
Proof.
  unfold resolveLockoutTimer, isLocked.
  destruct (locked (clearLockoutTimer st)); [by constructor|].
  destruct (reduxStore (clearLockoutTimer st)); [|by constructor].
  pose proof (lockoutIfNeeded_quiet now (clearLockoutTimer st)) as Hq.
  destruct (lockoutIfNeeded now (clearLockoutTimer st)) as [st1 eff]. simpl in Hq.
  destruct (locked st1); [done|].
  destruct (reduxStore st1); [|done]. by destruct (_ && _).
Qed.

Lemma stateHandler_quiet now (req : Request) (st : ServerState ProcState) :
  Forall quiet (effects (stateHandler now req st)).
Proof.
  unfold stateHandler.
  destruct (isLocked st); [by constructor|].
  destruct (reduxStore st); [|by constructor].
  destruct (req_clientId req) as [[|c clientId]|]; try by constructor.
  destruct (dispatchFinish _ _ _) as [res store'].
  pose proof (resolveLockoutTimer_quiet now
                (mkServerState (locked st) (Some store') (lockoutTimeout st) (deviceKey st)))
    as Hq.
  destruct (resolveLockoutTimer now _) as [st' eff]. simpl in *.
  by constructor.
Qed.

Lemma actionHandler_quiet now (req : Request) (st : ServerState ProcState) :
  (∃ action context,
      req_action req = Some action ∧ req_context req = Some context
      ∧ action_type action = OPEN_URL
      ∧ effects (actionHandler now req st) = [OpenedUrl (action_payload action)])
  ∨ ((∀ action context,
        req_action req = Some action → req_context req = Some context →
        action_type action ≠ OPEN_URL)
     ∧ Forall quiet (effects (actionHandler now req st))).
Proof.
  unfold actionHandler.
  destruct (req_action req) as [action|];
    [|right; split; [done | by constructor]].
  destruct (req_context req) as [context|];
    [|right; split; [done | by constructor]].
  destruct (decide (action_type action = OPEN_URL)) as [Hopen|Hopen].
  { left. by exists action, context. }
  right. split; [by intros ? ? ? ?; simplify_eq|].
  destruct (lockGate action st) as [[code answer]|st1]; [by constructor|].
  destruct (reduxStore st1) as [store|]; [|by constructor].
  destruct (decide (action_type action = LOCK_DEVICE)).
  { destruct (negb (requiresPassphrase store)); simpl; repeat constructor. }
  destruct (dispatchFinish _ _ _) as [[[success state] rest] store'].
  pose proof (resolveLockoutTimer_quiet now
                (mkServerState (locked st1) (Some store') (lockoutTimeout st1)
                   (deviceKey st1))) as Hq.
  destruct (resolveLockoutTimer now _) as [st' eff]. simpl in *.
  constructor; [done|]. apply Forall_app. split.
  - destruct (shouldSendSocketUpdate _); repeat constructor.
  - apply Forall_app. split; [|done]. destruct success; repeat constructor.
Qed.

(** The process is signalled to terminate by a GET or HEAD of /stop and by
    nothing else; a url is opened by an authenticated POST to /action that
    carries an OPEN_URL action and a context, and by nothing else; that url
    is the action's payload. *)
Theorem effects_provenance now (req : Request) (st : ServerState ProcState) :
  (Killed ∈ effects (handleRequest now req st) ↔
   (req_method req = GET ∨ req_method req = HEAD) ∧ req_route req = RouteStop)
  ∧ (∀ url,
       OpenedUrl url ∈ effects (handleRequest now req st) ↔
       req_method req = POST ∧ req_route req = RouteAction
       ∧ authenticateUserAgent (req_userAgent req) st = Some true
       ∧ ∃ action context,
           req_action req = Some action ∧ req_context req = Some context
           ∧ action_type action = OPEN_URL ∧ action_payload action = url).
Proof.
  assert (∀ e l, Forall quiet l → e ∈ l → quiet e) as Hin
    by (intros e l Hall; by apply Forall_forall).
  pose proof (lockoutIfNeeded_quiet now st) as Hq.
  unfold handleRequest, route. cbn [effects].
  destruct (lockoutIfNeeded now st) as [st1 eff] eqn:Hl. simpl in Hq.
  split.
  - destruct (req_method req) eqn:Hm, (req_route req) eqn:Hr; cbn [servedByGet];
      try (split; [intros []%elem_of_nil | by intros [[?|?] ?]]);
      try (split; [intros _; split; [by auto | done] | intros _; apply list_elem_of_here]);
      (split; [|by intros [[?|?] ?]]);
      (destruct (authenticateUserAgent (req_userAgent req) st) as [[|]|];
       [|intros []%elem_of_nil..]); cbn [effects allowedMethods];
      intros [Hk|Hk]%elem_of_app;
      try (by destruct (Hin _ _ Hq Hk));
      try (by apply elem_of_nil in Hk);
      try (by destruct (Hin _ _ (stateHandler_quiet now req st1) Hk)).
    destruct (actionHandler_quiet now req st1)
      as [(a & c & _ & _ & _ & Heff)|[_ Hquiet]].
    + rewrite Heff in Hk. apply list_elem_of_singleton in Hk. done.
    + by destruct (Hin _ _ Hquiet Hk).
  - intros url.
    destruct (req_method req) eqn:Hm, (req_route req) eqn:Hr; cbn [servedByGet];
      try (split; [intros []%elem_of_nil | by intros (? & ? & _)]);
      try (split; [intros ?%list_elem_of_singleton; done | by intros (? & ? & _)]);
      (destruct (authenticateUserAgent (req_userAgent req) st) as [[|]|] eqn:Hauth;
       [|split; [intros []%elem_of_nil | by intros (_ & _ & ? & _)]..]);
      cbn [effects allowedMethods];
      try (split; [|by intros (? & ? & _)];
           intros [Hk|Hk]%elem_of_app;
           try (by destruct (Hin _ _ Hq Hk));
           try (by apply elem_of_nil in Hk);
           try (by destruct (Hin _ _ (stateHandler_quiet now req st1) Hk))).
    split.
    + intros [Hk|Hk]%elem_of_app; [by destruct (Hin _ _ Hq Hk)|].
      destruct (actionHandler_quiet now req st1)
        as [(a & c & Ha & Hc & Hty & Heff)|[_ Hquiet]].
      * rewrite Heff in Hk. apply list_elem_of_singleton in Hk. simplify_eq.
        split_and!; try done. by exists a, c.
      * by destruct (Hin _ _ Hquiet Hk).
    + intros (_ & _ & _ & a & c & Ha & Hc & Hty & <-).
      apply elem_of_app. right. unfold actionHandler. rewrite Ha, Hc.
      rewrite decide_True by done. apply list_elem_of_here.
Qed.

End Lockout.

(** ** Instances *)

Lemma authenticateUserAgent_format_witness :
  @authenticateUserAgent flatRuntime (Some "envkey-core|2.0.0|secret|extra") unlockedState
  = Some true.
Proof.
  destruct (@authenticateUserAgent_format flatRuntime "2.0.0" "secret" "extra" unlockedState)
    as [Heq Hiff]; [cbn; apply (bool_decide_unpack _); by vm_compute..|].
  etrans; [symmetry; exact Heq|]. apply Hiff. split; [done|].
  exists "secret", "key". by split_and!.
Defined.

Lemma handleRequest_keeps_locked_clean_witness :
  locked (after (@handleRequest idleRuntime 5000
                   (@mkRequest idleRuntime GET RouteState (Some validUserAgent)
                      None None (Some "client1") None)
                   (activeState 1))) = true
  ∧ LockedClean (after (@handleRequest idleRuntime 5000
                          (@mkRequest idleRuntime GET RouteState (Some validUserAgent)
                             None None (Some "client1") None)
                          (activeState 1))).
Proof.
  split; [by vm_compute|].
  apply (@handleRequest_keeps_locked_clean idleRuntime).
  - intros passphrase st0 st1 Hu. simpl in Hu. simplify_eq. by intros ?.
  - intros st0 st1 Hi. simpl in Hi. simplify_eq. by intros ?.
  - by intros ?.
Defined.

Lemma lock_device_then_state_witness :
  locked (after (@actionHandler flatRuntime 0
                   (actionRequest (Some validUserAgent) (mkAction LOCK_DEVICE ""))
                   unlockedState)) = true
  ∧ @handleRequest flatRuntime 1
      (@mkRequest flatRuntime GET RouteState (Some validUserAgent) None None
         (Some "client1") None)
      (after (@actionHandler flatRuntime 0
                (actionRequest (Some validUserAgent) (mkAction LOCK_DEVICE ""))
                unlockedState))
    = @mkOutcome flatRuntime 200 LockedStateBody
        (after (@actionHandler flatRuntime 0
                  (actionRequest (Some validUserAgent) (mkAction LOCK_DEVICE ""))
                  unlockedState)) [].
Proof.
  destruct (@lock_device_then_state flatRuntime 0
              (actionRequest (Some validUserAgent) (mkAction LOCK_DEVICE ""))
              unlockedState (mkAction LOCK_DEVICE "") tt (0, 0)
              eq_refl eq_refl eq_refl eq_refl eq_refl) as [_ Hlock].
  destruct (Hlock eq_refl) as (_ & _ & Hlocked & _ & _ & _ & Hstate).
  split; [exact Hlocked|].
  apply Hstate; [done | done | by vm_compute].
Defined.

Lemma state_route_answers_snapshot_witness :
  body (@stateHandler flatRuntime 0
          (@mkRequest flatRuntime GET RouteState (Some validUserAgent) None None
             (Some "client1") None)
          unlockedState)
  = @StateBody flatRuntime (0, 0)
  ∧ reduxStore (after (@stateHandler flatRuntime 0
                         (@mkRequest flatRuntime GET RouteState (Some validUserAgent)
                            None None (Some "client1") None)
                         unlockedState))
    = Some (1, 1).
Proof.
  destruct (@state_route_answers_snapshot flatRuntime 0
              (@mkRequest flatRuntime GET RouteState (Some validUserAgent) None None
                 (Some "client1") None)
              unlockedState (0, 0) eq_refl eq_refl) as [_ Hstate].
  destruct (Hstate "client1" eq_refl ltac:(done)) as (_ & Hbody & Hafter & _).
  split; [exact Hbody|]. rewrite Hafter. by vm_compute.
Defined.

End CoreProcessCoverage.

(** * Further properties of blocks.ts *)

Module BlocksCoverage.
Import BlocksConnect.

(** [apiActionCreator] resolves the two sides of a connection one by one:
    an [appId] wins over an [appGroupId], a [blockId] over a
    [blockGroupId]; no action type is chosen exactly when the payload names
    neither an app nor an app group, or neither a block nor a block group. *)
Theorem apiActionCreator_resolves_sides payload :
  (truthy (cp_appId payload) = true → truthy (cp_blockId payload) = true →
   apiActionCreator_actionType payload = Some CONNECT_BLOCK)
  ∧ (truthy (cp_appId payload) = true → truthy (cp_blockId payload) = false →
     truthy (cp_blockGroupId payload) = true →
     apiActionCreator_actionType payload = Some CREATE_APP_BLOCK_GROUP)
  ∧ (truthy (cp_appId payload) = false → truthy (cp_appGroupId payload) = true →
     truthy (cp_blockId payload) = true →
     apiActionCreator_actionType payload = Some CREATE_APP_GROUP_BLOCK)
  ∧ (truthy (cp_appId payload) = false → truthy (cp_appGroupId payload) = true →
     truthy (cp_blockId payload) = false → truthy (cp_blockGroupId payload) = true →
     apiActionCreator_actionType payload = Some CREATE_APP_GROUP_BLOCK_GROUP)
  ∧ (apiActionCreator_actionType payload = None ↔
     (truthy (cp_appId payload) = false ∧ truthy (cp_appGroupId payload) = false)
     ∨ (truthy (cp_blockId payload) = false ∧ truthy (cp_blockGroupId payload) = false)).
Proof.
  unfold apiActionCreator_actionType.
  destruct (truthy (cp_appId payload)), (truthy (cp_appGroupId payload)),
    (truthy (cp_blockId payload)), (truthy (cp_blockGroupId payload));
    simpl; split_and!; try done; (split; [intros ?; simplify_eq; auto | intros [[? ?]|[? ?]]; done]).
Qed.

Lemma splitOn_joinWith (l : list string) :
  l ≠ [] → Forall barFree l → CoreProcess.splitOn "|" (joinWith "|" l) = l.
Proof.
  induction l as [|x l IH]; [done|]. intros _ Hfree.
  apply Forall_cons in Hfree as [Hx Hl].
  destruct l as [|y l].
  - simpl. by apply CoreProcessCoverage.splitOn_free.
  - change (joinWith "|" (x :: y :: l)) with (x +:+ String "|" (joinWith "|" (y :: l))).
    rewrite CoreProcessCoverage.splitOn_app by done. f_equal. by apply IH.
Qed.

(** The proposal id of a connection can be taken apart again: when the ids
    the payload has contain no ["|"], splitting the proposal id on ["|"]
    gives exactly those ids, in the order app, app group, block, block
    group; so two payloads with the same proposal id have the same ids.  A
    payload without any id gets the empty proposal id. *)
Theorem proposalId_roundtrip payload :
  let present :=
    Api.filterBoolean
      [cp_appId payload; cp_appGroupId payload; cp_blockId payload;
       cp_blockGroupId payload] in
  Forall barFree present →
  (present ≠ [] → CoreProcess.splitOn "|" (proposalId payload) = present)
  ∧ (present = [] → proposalId payload = "")
  ∧ (∀ other,
       present ≠ [] →
       Forall barFree
         (Api.filterBoolean
            [cp_appId other; cp_appGroupId other; cp_blockId other;
             cp_blockGroupId other]) →
       proposalId other = proposalId payload →
       Api.filterBoolean
         [cp_appId other; cp_appGroupId other; cp_blockId other; cp_blockGroupId other]
       = present).
Proof.
  intros present Hfree. unfold proposalId. fold present. split_and!.
  - intros Hne. by apply splitOn_joinWith.
  - by intros ->.
  - intros other Hne Hfree' Heq.
    set (present' :=
           Api.filterBoolean
             [cp_appId other; cp_appGroupId other; cp_blockId other;
              cp_blockGroupId other]) in *.
    destruct (decide (present' = [])) as [Hnil|Hne'].
    + exfalso. rewrite Hnil in Heq.
      apply (f_equal (CoreProcess.splitOn "|")) in Heq.
      rewrite (splitOn_joinWith _ Hne Hfree) in Heq. simpl in Heq.
      assert ("" ∈ present) as Hin by (rewrite <- Heq; apply list_elem_of_here).
      by apply ApiCoverage.filterBoolean_nonempty in Hin.
    + rewrite <- (splitOn_joinWith present') by done.
      rewrite Heq. by apply splitOn_joinWith.
Qed.

Lemma connectBlockStatusPaths_acc (payload : list ConnectParams) acc :
  foldl
    (λ res params,
       res ++ [[appTargetId params; blockTargetId params];
               [blockTargetId params; appTargetId params]])
    acc payload
  = acc ++ (params ← payload;
            [[appTargetId params; blockTargetId params];
             [blockTargetId params; appTargetId params]]).
Proof.
  revert acc. induction payload as [|params payload IH]; intros acc; simpl.
  - by rewrite app_nil_r.
  - rewrite IH. by rewrite <- app_assoc.
Qed.

(** [connectBlockStatusPaths] indexes every connection in both directions:
    two paths of two ids for each payload element, the app side before the
    block side and the reverse, in payload order; so the reverse of every
    path is a path too. *)
Theorem connectBlockStatusPaths_mirrored (payload : list ConnectParams) :
  connectBlockStatusPaths payload
  = (params ← payload;
     [[appTargetId params; blockTargetId params];
      [blockTargetId params; appTargetId params]])
  ∧ length (connectBlockStatusPaths payload) = (2 * length payload)%nat
  ∧ ∀ path, path ∈ connectBlockStatusPaths payload →
            length path = 2%nat ∧ reverse path ∈ connectBlockStatusPaths payload.
Proof.
  assert (connectBlockStatusPaths payload
          = (params ← payload;
             [[appTargetId params; blockTargetId params];
              [blockTargetId params; appTargetId params]])) as Heq
    by (unfold connectBlockStatusPaths; by rewrite connectBlockStatusPaths_acc).
  split; [done|]. rewrite Heq. split.
  - clear Heq. induction payload as [|params payload IH]; [done|].
    rewrite bind_cons, length_app, IH. simpl. lia.
  - intros path Hin. apply list_elem_of_bind in Hin as (params & Hpath & Hparams).
    split.
    + apply elem_of_cons in Hpath as [->|Hpath]; [done|].
      apply list_elem_of_singleton in Hpath as ->. done.
    + apply list_elem_of_bind. exists params. split; [|done].
      apply elem_of_cons in Hpath as [->|Hpath].
      * apply list_elem_of_further, list_elem_of_here.
      * apply list_elem_of_singleton in Hpath as ->. apply list_elem_of_here.
Qed.

Lemma proposalId_roundtrip_witness :
  CoreProcess.splitOn "|"
    (proposalId (mkConnectParams (Some "app1") None (Some "block1") None (Some 2)))
  = ["app1"; "block1"]
  ∧ proposalId (mkConnectParams (Some "app1") None (Some "block1") None (Some 2))
    = "app1|block1".
Proof.
  split; [|done].
  apply (proj1 (proposalId_roundtrip
                  (mkConnectParams (Some "app1") None (Some "block1") None (Some 2))
                  ltac:(repeat constructor; apply (bool_decide_unpack _); by vm_compute))).
  done.
Defined.

End BlocksCoverage.

(** * Properties of the [TeamAddApps] component *)

Module TeamAddAppsCoverage.
Import TeamAddApps.

Section Grouping.
Variable rolesFor : App → list AppRole.
Variable existingRole : App → option AppRole.

Lemma Grouped_addRole m V app role :
  Grouped m V → Grouped (addRole app m role) (V ++ [(app, role)]).
Proof.
  intros [Hnd Hids Hseen Happs]. unfold addRole.
  destruct (decide (role_id role ∈ grantableAppRoleIds m)) as [Hin|Hin]; simpl.
  - split; simpl; try done.
    + intros rid. rewrite Hseen, fmap_app, elem_of_app. simpl.
      rewrite list_elem_of_singleton. split; [by left|].
      intros [?| ->]; [done | by apply Hseen].
    + intros rid. rewrite filter_app, fmap_app, <- Happs.
      destruct (decide (role_id role = rid)) as [<-|Hne].
      * rewrite lookup_insert_eq, filter_cons_True by done. done.
      * rewrite lookup_insert_ne, filter_cons_False by done.
        by rewrite filter_nil, app_nil_r.
  - split; simpl.
    + rewrite fmap_app. apply NoDup_app. split_and!; [done| |apply NoDup_singleton].
      intros rid Hrid ->%list_elem_of_singleton. apply Hin. by apply Hids.
    + intros rid. rewrite elem_of_union, elem_of_singleton, fmap_app, elem_of_app.
      simpl. by rewrite list_elem_of_singleton, Hids.
    + intros rid. rewrite elem_of_union, elem_of_singleton, fmap_app, elem_of_app.
      simpl. by rewrite list_elem_of_singleton, Hseen.
    + intros rid. rewrite filter_app, fmap_app, <- Happs.
      destruct (decide (role_id role = rid)) as [<-|Hne].
      * rewrite lookup_insert_eq, filter_cons_True by done. done.
      * rewrite lookup_insert_ne, filter_cons_False by done.
        by rewrite filter_nil, app_nil_r.
Qed.

Lemma Grouped_roles m V app roles :
  Grouped m V →
  Grouped (foldl (addRole app) m roles) (V ++ ((λ role, (app, role)) <$> roles)).
Proof.
  revert m V. induction roles as [|role roles IH]; intros m V Hg; simpl.
  - by rewrite app_nil_r.
  - rewrite cons_middle, app_assoc. apply IH. by apply Grouped_addRole.
Qed.

Lemma Grouped_addApp m V app :
  Grouped m V →
  Grouped (addApp rolesFor existingRole m app)
    (V ++ ((λ role, (app, role)) <$> rolesFor app)).
Proof.
  intros Hg. destruct (Grouped_roles m V app (rolesFor app) Hg) as [? ? ? ?].
  by split.
Qed.

Lemma Grouped_apps m V apps :
  Grouped m V →
  Grouped (foldl (addApp rolesFor existingRole) m apps) (V ++ visited rolesFor apps).
Proof.
  revert m V. induction apps as [|app apps IH]; intros m V Hg.
  - simpl. by rewrite app_nil_r.
  - unfold visited. rewrite bind_cons, app_assoc. simpl. apply IH.
    by apply Grouped_addApp.
Qed.

Lemma useMemoResult_Grouped apps :
  Grouped (useMemoResult rolesFor existingRole apps) (visited rolesFor apps).
Proof.
  apply (Grouped_apps (mkMemo ∅ ∅ [] ∅) [] apps). split; simpl; try done.
  - apply NoDup_nil_2.
  - intros rid. by rewrite elem_of_nil, elem_of_empty.
  - intros rid. by rewrite elem_of_nil, elem_of_empty.
Qed.

Lemma visited_role_ids apps rid :
  rid ∈ (λ p, role_id p.2) <$> visited rolesFor apps ↔
  ∃ app role, app ∈ apps ∧ role ∈ rolesFor app ∧ role_id role = rid.
Proof.
  rewrite list_elem_of_fmap. unfold visited. split.
  - intros ([app role] & -> & Hin). apply list_elem_of_bind in Hin as (app' & Hin & Happ).
    apply list_elem_of_fmap in Hin as (role' & Heq & Hrole). simplify_eq.
    by exists app', role'.
  - intros (app & role & Happ & Hrole & <-). exists (app, role). split; [done|].
    apply list_elem_of_bind. exists app. split; [|done].
    apply list_elem_of_fmap. by exists role.
Qed.

Lemma grantableAppRoles_ids apps rid :
  rid ∈ role_id <$> grantableAppRoles (useMemoResult rolesFor existingRole apps) ↔
  ∃ app role, app ∈ apps ∧ role ∈ rolesFor app ∧ role_id role = rid.
Proof.
  destruct (useMemoResult_Grouped apps) as [_ Hids Hseen _].
  by rewrite <- Hids, Hseen, visited_role_ids.
Qed.

(** The role list the [useMemo] of [TeamAddApps] builds for the role select
    holds every role id once, and holds exactly the ids of the roles that
    are grantable on some grantable app. *)
Theorem grantableAppRoles_distinct_and_complete (apps : list App) :
  let m := useMemoResult rolesFor existingRole apps in
  NoDup (role_id <$> grantableAppRoles m)
  ∧ (∀ rid,
       rid ∈ role_id <$> grantableAppRoles m ↔
       ∃ app role, app ∈ apps ∧ role ∈ rolesFor app ∧ role_id role = rid).
Proof.
  intros m. split.
  - by destruct (useMemoResult_Grouped apps).
  - apply grantableAppRoles_ids.
Qed.

(** The apps offered for the selected role id are the apps that role id is
    grantable on, once for each grantable role of the app that carries the
    id, in the order of the grantable-app list; an id that no role carries
    gets the empty list of the [??] fallback. *)
Theorem grantableAppsFor_lists_visited_apps (apps : list App) (rid : string) :
  grantableAppsFor (useMemoResult rolesFor existingRole apps) rid
  = (filter (λ p, role_id p.2 = rid) (visited rolesFor apps)).*1.
Proof.
  destruct (useMemoResult_Grouped apps) as [_ _ _ Happs]. apply Happs.
Qed.

(** The initial [selectedAppRoleId] reads the [id] of the last role of the
    list: the read throws exactly when no app has a grantable role (so the
    empty-list guard of [renderAppRoleSelect] is never reached with an empty
    list), and when it does not throw the selected role has at least one app
    to offer. *)
Theorem initialSelectedAppRoleId_cases (apps : list App) :
  let m := useMemoResult rolesFor existingRole apps in
  (initialSelectedAppRoleId m = None ↔ ∀ app, app ∈ apps → rolesFor app = [])
  ∧ (∀ rid, initialSelectedAppRoleId m = Some rid → grantableAppsFor m rid ≠ []).
Proof.
  intros m. destruct (useMemoResult_Grouped apps) as [Hnd Hids Hseen Happs].
  pose proof (grantableAppRoles_ids apps) as Hroles.
  fold m in Hnd, Hids, Hseen, Happs, Hroles.
  split.
  - unfold initialSelectedAppRoleId. rewrite fmap_None, last_None. split.
    + intros Hnil app Happ. destruct (rolesFor app) as [|role roles] eqn:Hr; [done|].
      exfalso. assert (role_id role ∈ role_id <$> grantableAppRoles m) as Hin.
      { apply Hroles. exists app, role. rewrite Hr. split_and!; try done.
        apply list_elem_of_here. }
      rewrite Hnil in Hin. by apply elem_of_nil in Hin.
    + intros Hnone. destruct (grantableAppRoles m) as [|role roles] eqn:Hm; [done|].
      exfalso. assert (role_id role ∈ role_id <$> role :: roles) as Hin
        by apply list_elem_of_here.
      apply Hroles in Hin as (app & role' & Happ & Hrole & _).
      rewrite (Hnone app Happ) in Hrole. by apply elem_of_nil in Hrole.
  - intros rid Hsel. unfold initialSelectedAppRoleId in Hsel.
    apply fmap_Some in Hsel as (role & Hlast & ->).
    assert (role_id role ∈ role_id <$> grantableAppRoles m) as Hin.
    { apply list_elem_of_fmap. exists role. split; [done|].
      apply last_Some in Hlast as [l' ->]. apply elem_of_app. right.
      apply list_elem_of_here. }
    apply Hids, Hseen, list_elem_of_fmap in Hin as ([app role'] & Heq & Hin).
    unfold grantableAppsFor. rewrite Happs. intros Hnil.
    apply fmap_nil_inv in Hnil.
    assert ((app, role') ∈ filter (λ p, role_id p.2 = role_id role) (visited rolesFor apps))
      as Hf by (apply list_elem_of_filter; by split).
    rewrite Hnil in Hf. by apply elem_of_nil in Hf.
Qed.

(** [existingAppRolesByAppId] has an entry for exactly the ids of the
    grantable apps, also for an app whose existing role is [undefined]. *)
Theorem existingAppRolesByAppId_keys (apps : list App) (id : string) :
  is_Some (existingAppRolesByAppId (useMemoResult rolesFor existingRole apps) !! id)
  ↔ id ∈ app_id <$> apps.
Proof.
  unfold useMemoResult.
  assert (∀ m, is_Some (existingAppRolesByAppId
                          (foldl (addApp rolesFor existingRole) m apps) !! id)
               ↔ is_Some (existingAppRolesByAppId m !! id) ∨ id ∈ app_id <$> apps)
    as Hgen.
  { induction apps as [|app apps IH]; intros m; simpl.
    - rewrite elem_of_nil. tauto.
    - rewrite IH, elem_of_cons. simpl.
      destruct (decide (id = app_id app)) as [->|Hne].
      + rewrite lookup_insert_eq. split; [intros _; right; by left|].
        intros _. left. by eexists.
      + rewrite lookup_insert_ne by done.
        assert (∀ roles m0, existingAppRolesByAppId (foldl (addRole app) m0 roles)
                            = existingAppRolesByAppId m0) as Hroles.
        { clear. induction roles as [|role roles IH]; intros m0; [done|].
          simpl. rewrite IH. unfold addRole. by case_match. }
        rewrite Hroles. tauto. }
  rewrite Hgen. simpl. rewrite lookup_empty. split; [|by right].
  intros [[? ?]|?]; done.
Qed.

End Grouping.

(** The grouping on two apps, one of which has two grantable roles. *)
Example useMemo_sample :
  let m := useMemoResult sampleRoles (λ _, None) [apiApp; webApp] in
  grantableAppRoles m = [devRole; adminRole]
  ∧ initialSelectedAppRoleId m = Some "role-admin"
  ∧ grantableAppsFor m "role-dev" = [apiApp; webApp]
  ∧ grantableAppsFor m "role-admin" = [apiApp].
Proof. by vm_compute. Qed.

End TeamAddAppsCoverage.
